(** * Minesweeper knowledge engine: a shallow embedding and its properties

    Source: [Lecture 01-Knowledge/projects/minesweeper/minesweeper.py].

    The Python classes [Sentence] and [MinesweeperAI] are embedded as
    records with explicit state passing.  A Python [set] of cells is a
    [gset]; the list [self.knowledge] is a [list]; Python integers are
    [Z].  The code is duck-typed in the cell type ([Sentence] only hashes
    and compares cells), so everything that does not compute neighbours is
    stated for any countable cell type, and the board-specific parts for
    cells that are pairs of integers. *)

From Stdlib Require Import ZArith Lia.
From stdpp Require Import gmap list.

Local Open Scope Z_scope.
Set Warnings "-clear-no-such-hyp".

(** ** class Sentence *)

Module Sentence.
Section sentence.
Context `{Countable Cell}.

(** [Sentence(cells, count)]: [self.cells = set(cells)], [self.count = count]. *)
Record t := init { cells : gset Cell; count : Z }.

(** [__eq__]: same cell set and same count. *)
#[global] Instance eq_dec : EqDecision t.
Proof. solve_decision. Defined.

(** [known_mines]: a copy of the cells when [len(cells) == count] and
    [count > 0], the empty set otherwise. *)
Definition known_mines (s : t) : gset Cell :=
  if bool_decide (Z.of_nat (size (cells s)) = count s) && bool_decide (count s > 0)
  then cells s
  else ∅.

(** [known_safes]: a copy of the cells when [count == 0], the empty set
    otherwise. *)
Definition known_safes (s : t) : gset Cell :=
  if bool_decide (count s = 0) then cells s else ∅.

(** [mark_mine]: the updated sentence together with the returned flag. *)
Definition mark_mine (cell : Cell) (s : t) : t * bool :=
  if bool_decide (cell ∈ cells s)
  then (init (cells s ∖ {[cell]}) (count s - 1), true)
  else (s, false).

(** [mark_safe]: the updated sentence together with the returned flag. *)
Definition mark_safe (cell : Cell) (s : t) : t * bool :=
  if bool_decide (cell ∈ cells s)
  then (init (cells s ∖ {[cell]}) (count s), true)
  else (s, false).
End sentence.
Global Arguments t Cell {_ _}.
End Sentence.

(** ** class MinesweeperAI *)

Module MinesweeperAI.
Section ai.
Context `{Countable Cell}.

Record t := Build {
  height : Z;
  width : Z;
  moves_made : gset Cell;
  mines : gset Cell;
  safes : gset Cell;
  knowledge : list (Sentence.t Cell)
}.

(** [__init__]: empty sets and an empty knowledge list. *)
Definition init (height width : Z) : t :=
  Build height width ∅ ∅ ∅ [].

Definition set_moves_made (kb : t) (m : gset Cell) : t :=
  Build (height kb) (width kb) m (mines kb) (safes kb) (knowledge kb).
Definition set_knowledge (kb : t) (k : list (Sentence.t Cell)) : t :=
  Build (height kb) (width kb) (moves_made kb) (mines kb) (safes kb) k.

(** [mark_mine]: nothing when the cell is already in [mines]; otherwise
    the cell is added and every stored sentence is updated in place. *)
Definition mark_mine (cell : Cell) (kb : t) : t :=
  if bool_decide (cell ∈ mines kb) then kb
  else Build (height kb) (width kb) (moves_made kb)
             ({[cell]} ∪ mines kb) (safes kb)
             (map (λ s, (Sentence.mark_mine cell s).1) (knowledge kb)).

(** [mark_safe]: the same with [safes]. *)
Definition mark_safe (cell : Cell) (kb : t) : t :=
  if bool_decide (cell ∈ safes kb) then kb
  else Build (height kb) (width kb) (moves_made kb)
             (mines kb) ({[cell]} ∪ safes kb)
             (map (λ s, (Sentence.mark_safe cell s).1) (knowledge kb)).

(** A [for x in some_set: f(x)] loop visits the elements in the order
    the set enumerates them. *)
Definition for_each (f : Cell → t → t) (xs : list Cell) (kb : t) : t :=
  foldl (λ acc x, f x acc) kb xs.

(** Body of [for sentence in copy.deepcopy(self.knowledge)]: [sentence]
    is a snapshot taken before the scan, the marks act on the live
    knowledge base. *)
Definition scan_step (st : t * bool) (sentence : Sentence.t Cell) : t * bool :=
  let new_mines := Sentence.known_mines sentence in
  let new_safes := Sentence.known_safes sentence in
  let st1 :=
    if bool_decide (new_mines ≠ ∅)
    then (for_each mark_mine (elements new_mines) st.1, true)
    else st in
  if bool_decide (new_safes ≠ ∅)
  then (for_each mark_safe (elements new_safes) st1.1, true)
  else st1.

(** One pass of the [while] body: [changes_made = False], then the scan
    of the snapshot. *)
Definition scan (kb : t) : t * bool :=
  foldl scan_step (kb, false) (knowledge kb).

(** [while changes_made: ...]; [None] when the fuel runs out first. *)
Fixpoint propagate (fuel : nat) (kb : t) : option t :=
  match fuel with
  | O => None
  | S fuel' =>
      let '(kb', changes_made) := scan kb in
      if changes_made then propagate fuel' kb' else Some kb'
  end.

(** Inner body of the two nested [for] loops of step 4, for the pair
    [sentence_1 = knowledge[i]], [sentence_2 = knowledge[j]]: the list of
    inferences it appends (none or one). *)
Definition infer_pair (k : list (Sentence.t Cell))
    (sentence_1 sentence_2 : Sentence.t Cell) : list (Sentence.t Cell) :=
  if bool_decide (Sentence.cells sentence_1 ⊆ Sentence.cells sentence_2) then
    let new_sentence :=
      Sentence.init (Sentence.cells sentence_2 ∖ Sentence.cells sentence_1)
                    (Sentence.count sentence_2 - Sentence.count sentence_1) in
    if bool_decide (0 < size (Sentence.cells new_sentence))%nat
       && bool_decide (new_sentence ∉ k)
    then [new_sentence] else []
  else if bool_decide (Sentence.cells sentence_2 ⊆ Sentence.cells sentence_1) then
    let new_sentence :=
      Sentence.init (Sentence.cells sentence_1 ∖ Sentence.cells sentence_2)
                    (Sentence.count sentence_1 - Sentence.count sentence_2) in
    if bool_decide (0 < size (Sentence.cells new_sentence))%nat
       && bool_decide (new_sentence ∉ k)
    then [new_sentence] else []
  else [].

(** [for i in range(len(k)): for j in range(i + 1, len(k))]: [rest] is
    [k[i:]], so its head is [k[i]] and its tail is [k[i+1:]]. *)
Fixpoint infer_from (k rest : list (Sentence.t Cell)) : list (Sentence.t Cell) :=
  match rest with
  | [] => []
  | sentence_1 :: later =>
      flat_map (infer_pair k sentence_1) later ++ infer_from k later
  end.

Definition new_inferences (k : list (Sentence.t Cell)) : list (Sentence.t Cell) :=
  infer_from k k.

(** Step 4 with [self.knowledge.extend(new_inferences)]. *)
Definition subset_elimination (kb : t) : t :=
  set_knowledge kb (knowledge kb ++ new_inferences (knowledge kb)).

(** Python fixes no order for [for x in some_set]: the order depends on
    the hashes of the cells and on how the set was built.  Where the
    result of a loop depends on it, the order is a parameter [iter] of the
    model: [iter s] lists what the loop over [s] yields, in the order it
    yields it.  Every call takes its own [iter], so two loops over equal
    sets need not follow the same order.  All that is known of [iter] is
    that the loop yields each element of the set once. *)
Definition enumeration (iter : gset Cell → list Cell) : Prop :=
  ∀ s, iter s ≡ₚ elements s.

(** [make_safe_move]: the first cell that [for safe_cell in self.safes]
    yields and that is neither played nor a known mine, [None] when the
    loop ends without one. *)
Definition make_safe_move (iter : gset Cell → list Cell) (kb : t) : option Cell :=
  head (filter (λ c, (c ∉ moves_made kb) ∧ (c ∉ mines kb)) (iter (safes kb))).
End ai.
Global Arguments t Cell {_ _}.
End MinesweeperAI.

(** ** The board-specific methods: cells are [(row, column)] pairs *)

Abbreviation Cell := (Z * Z)%type.
Abbreviation KB := (MinesweeperAI.t Cell).

(** Python's [range(a, b)]. *)
Definition range (a b : Z) : list Z := seqZ a (b - a).

(** A call either returns a value or raises. *)
Inductive exn := IndexError.
Inductive outcome (A : Type) :=
  | Returns (a : A)
  | Raises (e : exn).
Arguments Returns {A} a.
Arguments Raises {A} e.

(** [random.choice(seq)] with the random draw [r] made explicit: it is
    [seq[randbelow(len(seq))]], and raises [IndexError] on an empty
    sequence. *)
Definition choice {A} (r : nat) (seq : list A) : outcome A :=
  match seq !! (r `mod` length seq)%nat with
  | Some x => Returns x
  | None => Raises IndexError
  end.

Module Board.
Import MinesweeperAI.

(** Step 2 of [add_knowledge]: the in-bounds cells of the 3x3 area
    around [cell], without [cell], in the order the loops append them. *)
Definition neighbor_cells (kb : KB) (cell : Cell) : list Cell :=
  flat_map (λ delta_row,
    flat_map (λ delta_col,
      let neighbor_cell := (cell.1 + delta_row, cell.2 + delta_col) in
      let row_in_bounds := bool_decide (0 ≤ neighbor_cell.1 < height kb) in
      let col_in_bounds := bool_decide (0 ≤ neighbor_cell.2 < width kb) in
      if bool_decide (neighbor_cell ≠ cell) && row_in_bounds && col_in_bounds
      then [neighbor_cell] else [])
      (range (-1) 2))
    (range (-1) 2).

(** Body of [for neighbor in neighbor_cells] on the pair
    [(count_after_ignoring_mines, new_cells)]. *)
Definition neighbor_step (kb : KB) (acc : Z * gset Cell) (neighbor : Cell)
    : Z * gset Cell :=
  if bool_decide (neighbor ∈ mines kb) then (acc.1 - 1, acc.2)
  else if bool_decide (neighbor ∉ safes kb) && bool_decide (neighbor ∉ mines kb)
  then (acc.1, {[neighbor]} ∪ acc.2)
  else acc.

(** Steps 1 and 2 of [add_knowledge]: record the move, mark the cell
    safe, and append the new sentence when it has cells. *)
Definition add_sentence (kb : KB) (cell : Cell) (count : Z) : KB :=
  let kb1 := mark_safe cell (set_moves_made kb ({[cell]} ∪ moves_made kb)) in
  let '(count_after_ignoring_mines, new_cells) :=
    foldl (neighbor_step kb1) (count, ∅) (neighbor_cells kb1 cell) in
  let new_sentence := Sentence.init new_cells count_after_ignoring_mines in
  if bool_decide (0 < size (Sentence.cells new_sentence))%nat
  then set_knowledge kb1 (knowledge kb1 ++ [new_sentence])
  else kb1.

(** [add_knowledge]: steps 1 and 2, the propagation loop, then subset
    elimination once.  [None] when [fuel] scans do not reach the end of
    the loop. *)
Definition add_knowledge (fuel : nat) (kb : KB) (cell : Cell) (count : Z)
    : option KB :=
  kb' ← propagate fuel (add_sentence kb cell count);
  Some (subset_elimination kb').

(** The cells the two [for] loops of [make_random_move] collect. *)
Definition possible_moves (kb : KB) : list Cell :=
  flat_map (λ i,
    flat_map (λ j,
      let cell := (i, j) in
      if bool_decide (cell ∉ moves_made kb) && bool_decide (cell ∉ mines kb)
      then [cell] else [])
      (range 0 (width kb)))
    (range 0 (height kb)).

(** [make_random_move], with the random draw [r] of [random.choice]. *)
Definition make_random_move (r : nat) (kb : KB) : outcome (option Cell) :=
  let total_cells := height kb * width kb in
  if bool_decide (Z.of_nat (size (moves_made kb)) + Z.of_nat (size (mines kb))
                  >= total_cells)
  then Returns None
  else
    match possible_moves kb with
    | [] => Returns None
    | _ :: _ =>
        match choice r (possible_moves kb) with
        | Returns c => Returns (Some c)
        | Raises e => Raises e
        end
    end.
End Board.

(** ** Calls of the driver-facing interface *)

Inductive op :=
  | Observe (cell : Cell) (count : Z)
  | MarkMine (cell : Cell)
  | MarkSafe (cell : Cell)
  | SafeMove (iter : gset Cell → list Cell)
  | RandomMove (r : nat).

(** One call.  The two move selectors only read the knowledge base. *)
Definition exec_op (fuel : nat) (o : op) (kb : KB) : option KB :=
  match o with
  | Observe cell count => Board.add_knowledge fuel kb cell count
  | MarkMine cell => Some (MinesweeperAI.mark_mine cell kb)
  | MarkSafe cell => Some (MinesweeperAI.mark_safe cell kb)
  | SafeMove iter => let _ := MinesweeperAI.make_safe_move iter kb in Some kb
  | RandomMove r => let _ := Board.make_random_move r kb in Some kb
  end.

(** A sequence of calls, oldest first; every [add_knowledge] may use up to
    [fuel] scans. *)
Fixpoint exec (fuel : nat) (ops : list op) (kb : KB) : option KB :=
  match ops with
  | [] => Some kb
  | o :: ops' => kb' ← exec_op fuel o kb; exec fuel ops' kb'
  end.

(** ** Predicates used in the statements *)

Section predicates.
Context `{Countable C}.
Implicit Types (kb : MinesweeperAI.t C) (s : Sentence.t C) (M : gset C).

(** No stored sentence mentions a cell already known as mine or safe. *)
Definition clean kb : Prop :=
  ∀ s, s ∈ MinesweeperAI.knowledge kb →
    Sentence.cells s ## MinesweeperAI.mines kb ∧
    Sentence.cells s ## MinesweeperAI.safes kb.

(** The cells still mentioned by some stored sentence. *)
Definition unresolved kb : gset C :=
  ⋃ (Sentence.cells <$> MinesweeperAI.knowledge kb).

(** A sentence is true of the mine layout [M]. *)
Definition holds M s : Prop :=
  Z.of_nat (size (Sentence.cells s ∩ M)) = Sentence.count s.

(** Everything the knowledge base records is true of the layout [M]. *)
Definition sound M kb : Prop :=
  MinesweeperAI.mines kb ⊆ M ∧
  MinesweeperAI.safes kb ## M ∧
  ∀ s, s ∈ MinesweeperAI.knowledge kb → holds M s.

(** [kb'] records at least what [kb] records, for the same board. *)
Definition grows kb kb' : Prop :=
  MinesweeperAI.height kb' = MinesweeperAI.height kb ∧
  MinesweeperAI.width kb' = MinesweeperAI.width kb ∧
  MinesweeperAI.moves_made kb ⊆ MinesweeperAI.moves_made kb' ∧
  MinesweeperAI.mines kb ⊆ MinesweeperAI.mines kb' ∧
  MinesweeperAI.safes kb ⊆ MinesweeperAI.safes kb'.

(** [k'] holds the sentences of [k], position by position, each with
    the same or fewer cells. *)
Definition narrows (k k' : list (Sentence.t C)) : Prop :=
  Forall2 (λ s s', Sentence.cells s' ⊆ Sentence.cells s) k k'.

(** The sentence subset elimination derives from [sub] inside [sup]:
    the cells of [sup] without those of [sub], with the difference of
    the counts. *)
Definition difference_of (sub sup : Sentence.t C) : Sentence.t C :=
  Sentence.init (Sentence.cells sup ∖ Sentence.cells sub)
                (Sentence.count sup - Sentence.count sub).

(** An order of iteration that yields [c] first when [c] is in the set. *)
Definition first_of (c : C) (s : gset C) : list C :=
  if bool_decide (c ∈ s) then c :: elements (s ∖ {[c]}) else elements s.
End predicates.

(** A call tells the truth about the layout [M] of a [height] x [width]
    board: a marked mine is a mine, a marked safe cell is not, and an
    observed cell is not a mine and comes with the number of mines among
    its in-bounds neighbours. *)
Definition truthful (M : gset Cell) (height width : Z) (o : op) : Prop :=
  match o with
  | Observe cell count =>
      (cell ∉ M) ∧
      count = Z.of_nat (length (filter (λ c, c ∈ M)
                (Board.neighbor_cells (MinesweeperAI.init height width) cell)))
  | MarkMine cell => cell ∈ M
  | MarkSafe cell => cell ∉ M
  | SafeMove _ | RandomMove _ => True
  end.

(** ** class Minesweeper *)

(** An exception raised by the first call stops the second. *)
#[global] Instance outcome_bind : MBind outcome := λ A B f m,
  match m with
  | Returns a => f a
  | Raises e => Raises e
  end.

(** Python's [l[i]]: a negative index counts from the end, an index
    outside [-len(l) .. len(l) - 1] raises [IndexError]. *)
Definition getitem {A} (l : list A) (i : Z) : outcome A :=
  let i' := if bool_decide (i < 0) then i + Z.of_nat (length l) else i in
  if bool_decide (0 ≤ i' < Z.of_nat (length l)) then
    match l !! Z.to_nat i' with
    | Some x => Returns x
    | None => Raises IndexError
    end
  else Raises IndexError.

(** Python's [l[i] = x], with the same index rule. *)
Definition setitem {A} (l : list A) (i : Z) (x : A) : outcome (list A) :=
  let i' := if bool_decide (i < 0) then i + Z.of_nat (length l) else i in
  if bool_decide (0 ≤ i' < Z.of_nat (length l))
  then Returns (<[Z.to_nat i' := x]> l)
  else Raises IndexError.

Module Minesweeper.

Record t := Build {
  height : Z;
  width : Z;
  mines : gset Cell;
  board : list (list bool);
  mines_found : gset Cell
}.

(** The two nested loops that fill [self.board] with [False]. *)
Definition empty_board (height width : Z) : list (list bool) :=
  map (λ _, map (λ _, false) (range 0 width)) (range 0 height).

(** [random.randrange(n)] with the raw random draw [r] made explicit:
    a value of [range(n)], and [ValueError] ([None] here) when the range
    is empty. *)
Definition randrange (n : Z) (r : nat) : option Z :=
  if bool_decide (n ≤ 0) then None else Some (Z.of_nat r `mod` n).

(** How [__init__] ends for a given finite supply of random draws:
    it returns the game, raises, or is still in its [while] loop when the
    draws are used up. *)
Inductive init_result :=
  | Built (g : t)
  | ValueError
  | IndexErr
  | Pending.

Definition set_mines_found (g : t) (found : gset Cell) : t :=
  Build (height g) (width g) (mines g) (board g) found.

(** [while len(self.mines) != mines: ...]; each iteration uses one pair
    of draws, for [i] and for [j]. *)
Fixpoint place_mines (draws : list (nat * nat)) (target : Z) (g : t)
    : init_result :=
  if bool_decide (Z.of_nat (size (mines g)) ≠ target) then
    match draws with
    | [] => Pending
    | (r1, r2) :: draws' =>
        match randrange (height g) r1 with
        | None => ValueError
        | Some i =>
            match randrange (width g) r2 with
            | None => ValueError
            | Some j =>
                match row ← getitem (board g) i; getitem row j with
                | Raises _ => IndexErr
                | Returns true => place_mines draws' target g
                | Returns false =>
                    match row ← getitem (board g) i;
                          row' ← setitem row j true;
                          setitem (board g) i row' with
                    | Raises _ => IndexErr
                    | Returns board' =>
                        place_mines draws' target
                          (Build (height g) (width g) ({[(i, j)]} ∪ mines g)
                                 board' (mines_found g))
                    end
                end
            end
        end
    end
  else Built g.

(** [__init__(height, width, mines)]. *)
Definition init (height width mines : Z) (draws : list (nat * nat))
    : init_result :=
  match place_mines draws mines
          (Build height width ∅ (empty_board height width) ∅) with
  | Built g => Built (set_mines_found g ∅)
  | r => r
  end.

(** [is_mine]: [i, j = cell; return self.board[i][j]]. *)
Definition is_mine (g : t) (cell : Cell) : outcome bool :=
  row ← getitem (board g) cell.1; getitem row cell.2.

(** Body of the two nested loops of [nearby_mines] for the cell
    [(i, j)], on the running count. *)
Definition nearby_step (g : t) (cell : Cell) (acc : outcome Z) (ij : Cell)
    : outcome Z :=
  count ← acc;
  if bool_decide (ij = cell) then Returns count
  else if bool_decide (0 ≤ ij.1 < height g) && bool_decide (0 ≤ ij.2 < width g)
  then
    b ← (row ← getitem (board g) ij.1; getitem row ij.2);
    Returns (if b : bool then count + 1 else count)
  else Returns count.

(** [nearby_mines]. *)
Definition nearby_mines (g : t) (cell : Cell) : outcome Z :=
  foldl (nearby_step g cell) (Returns 0)
    (flat_map (λ i, map (λ j, (i, j)) (range (cell.2 - 1) (cell.2 + 2)))
              (range (cell.1 - 1) (cell.1 + 2))).

(** [won]. *)
Definition won (g : t) : bool := bool_decide (mines_found g = mines g).

(** The board has [height] rows of [width] entries, an entry is [True]
    exactly at the cells of [mines], and all of these are on the board. *)
Definition wf (g : t) : Prop :=
  length (board g) = Z.to_nat (height g) ∧
  Forall (λ row, length row = Z.to_nat (width g)) (board g) ∧
  (∀ i j row, 0 ≤ i < height g → 0 ≤ j < width g →
     board g !! Z.to_nat i = Some row →
     row !! Z.to_nat j = Some (bool_decide ((i, j) ∈ mines g))) ∧
  (∀ c, c ∈ mines g → 0 ≤ c.1 < height g ∧ 0 ≤ c.2 < width g).
End Minesweeper.

(** ** The driver: how [runner.py] chooses and applies a move *)

Module Runner.

(** The variables of the main loop that the move logic reads or writes. *)
Record state := Build {
  game : Minesweeper.t;
  ai : KB;
  revealed : gset Cell;
  flags : gset Cell;
  lost : bool
}.

(** The "AI Move" branch: a safe move if there is one, else a random
    move, else no move and [flags = ai.mines.copy()].  [iter] is the order
    in which the loop of [make_safe_move] goes over [ai.safes] in this
    pass, [r] the draw of [random.choice].  The [print] and [time.sleep]
    calls are left out. *)
Definition ai_move (iter : gset Cell → list Cell) (r : nat) (st : state)
    : outcome (option Cell * state) :=
  match MinesweeperAI.make_safe_move iter (ai st) with
  | Some move => Returns (Some move, st)
  | None =>
      match Board.make_random_move r (ai st) with
      | Raises e => Raises e
      | Returns None =>
          Returns (None, Build (game st) (ai st) (revealed st)
                               (MinesweeperAI.mines (ai st)) (lost st))
      | Returns (Some move) => Returns (Some move, st)
      end
  end.

(** The "Apply chosen move" block: [if move:] is false for [None] and
    true for a cell.  The outer [option] is [None] when [add_knowledge]
    runs out of fuel. *)
Definition apply_move (fuel : nat) (move : option Cell) (st : state)
    : option (outcome state) :=
  match move with
  | None => Some (Returns st)
  | Some m =>
      match Minesweeper.is_mine (game st) m with
      | Raises e => Some (Raises e)
      | Returns true =>
          Some (Returns (Build (game st) (ai st) (revealed st) (flags st) true))
      | Returns false =>
          match Minesweeper.nearby_mines (game st) m with
          | Raises e => Some (Raises e)
          | Returns nearby =>
              kb' ← Board.add_knowledge fuel (ai st) m nearby;
              Some (Returns (Build (game st) kb' ({[m]} ∪ revealed st)
                                   (flags st) (lost st)))
          end
      end
  end.

(** The state after [game = Minesweeper(...)], [ai = MinesweeperAI(...)]
    and the resets of [revealed], [flags] and [lost]. *)
Definition start (g : Minesweeper.t) : state :=
  Build g (MinesweeperAI.init (Minesweeper.height g) (Minesweeper.width g))
        ∅ ∅ false.
(** What the mouse does in one pass of the main loop: a left click on
    the "AI Move" button ([iter] is the order in which [make_safe_move]
    goes over the safe cells in this pass, [r] the draw of
    [random.choice], should the player move at random), a left click on
    the board, a right click on the board.  The cell stands for the mouse position: the one cell
    [(i, j)] with [cells[i][j].collidepoint(mouse)], if any. *)
Inductive action :=
  | AIMove (iter : gset Cell → list Cell) (r : nat)
  | Reveal (cell : Cell)
  | ToggleFlag (cell : Cell).

(** [(i, j)] is reached by [for i in range(HEIGHT): for j in range(WIDTH)],
    where the game was built with [HEIGHT] and [WIDTH]. *)
Definition on_board (g : Minesweeper.t) (c : Cell) : bool :=
  bool_decide (0 ≤ c.1 < Minesweeper.height g)
  && bool_decide (0 ≤ c.2 < Minesweeper.width g).

Definition set_flags (st : state) (f : gset Cell) : state :=
  Build (game st) (ai st) (revealed st) f (lost st).

(** One pass of the main loop after the instructions screen, without the
    drawing: the branch for the mouse button chooses [move], then the
    chosen move is applied. *)
Definition step (fuel : nat) (a : action) (st : state) : option (outcome state) :=
  match a with
  | ToggleFlag c =>
      let st' :=
        if negb (lost st) && on_board (game st) c
           && bool_decide (c ∉ revealed st)
        then if bool_decide (c ∈ flags st)
             then set_flags st (flags st ∖ {[c]})
             else set_flags st ({[c]} ∪ flags st)
        else st in
      apply_move fuel None st'
  | AIMove iter r =>
      if lost st then apply_move fuel None st
      else match ai_move iter r st with
           | Raises e => Some (Raises e)
           | Returns (move, st') => apply_move fuel move st'
           end
  | Reveal c =>
      let move :=
        if negb (lost st) && on_board (game st) c
           && bool_decide (c ∉ flags st) && bool_decide (c ∉ revealed st)
        then Some c else None in
      apply_move fuel move st
  end.

(** Several passes, oldest first; a raised exception ends the program. *)
Fixpoint run (fuel : nat) (acts : list action) (st : state)
    : option (outcome state) :=
  match acts with
  | [] => Some (Returns st)
  | a :: acts' =>
      match step fuel a st with
      | Some (Returns st') => run fuel acts' st'
      | r => r
      end
  end.

(** Every "AI Move" pass of a run goes over the safe cells in some
    order: each cell of the set once.  The order may differ from pass to
    pass. *)
Definition ordered (a : action) : Prop :=
  match a with
  | AIMove iter _ => MinesweeperAI.enumeration iter
  | _ => True
  end.

(** What holds of the loop's variables between passes. *)
Definition inv (st : state) : Prop :=
  Minesweeper.wf (game st) ∧
  MinesweeperAI.height (ai st) = Minesweeper.height (game st) ∧
  MinesweeperAI.width (ai st) = Minesweeper.width (game st) ∧
  clean (ai st) ∧
  sound (Minesweeper.mines (game st)) (ai st) ∧
  revealed st = MinesweeperAI.moves_made (ai st) ∧
  MinesweeperAI.moves_made (ai st) ⊆ MinesweeperAI.safes (ai st) ∧
  ∀ c, c ∈ MinesweeperAI.mines (ai st) ∪ MinesweeperAI.safes (ai st)
           ∪ unresolved (ai st) →
       on_board (game st) c = true.
(** The state a run ends in, or [d] when it does not end in a state. *)
Definition final (d : state) (r : option (outcome state)) : state :=
  match r with
  | Some (Returns st) => st
  | _ => d
  end.
End Runner.

(** * Properties *)

Import MinesweeperAI.

(** ** Sentences *)

Section sentence_facts.
Context `{Countable C}.
Implicit Types (s : Sentence.t C) (c : C) (M : gset C).

Lemma sentence_mark_mine_cells c s :
  Sentence.cells (Sentence.mark_mine c s).1 = Sentence.cells s ∖ {[c]}.
Proof.
  unfold Sentence.mark_mine. case_bool_decide; simpl; [done|set_solver].
Qed.

Lemma sentence_mark_safe_cells c s :
  Sentence.cells (Sentence.mark_safe c s).1 = Sentence.cells s ∖ {[c]}.
Proof.
  unfold Sentence.mark_safe. case_bool_decide; simpl; [done|set_solver].
Qed.

Lemma known_mines_subseteq s : Sentence.known_mines s ⊆ Sentence.cells s.
Proof. unfold Sentence.known_mines. case_match; set_solver. Qed.

Lemma known_safes_subseteq s : Sentence.known_safes s ⊆ Sentence.cells s.
Proof. unfold Sentence.known_safes. case_match; set_solver. Qed.

(** Removing a mine of the layout keeps a sentence true. *)
Lemma holds_mark_mine M c s :
  c ∈ M → holds M s → holds M (Sentence.mark_mine c s).1.
Proof.
  unfold holds, Sentence.mark_mine. intros Hc Hs.
  case_bool_decide as Hin; simpl; [|done].
  assert (Sentence.cells s ∩ M = {[c]} ∪ (Sentence.cells s ∖ {[c]}) ∩ M) as E.
  { apply set_eq. intros x. destruct (decide (x = c)); set_solver. }
  rewrite E, size_union, size_singleton in Hs by set_solver. lia.
Qed.

(** Removing a cell that is no mine keeps a sentence true. *)
Lemma holds_mark_safe M c s :
  c ∉ M → holds M s → holds M (Sentence.mark_safe c s).1.
Proof.
  unfold holds, Sentence.mark_safe. intros Hc Hs.
  case_bool_decide as Hin; simpl; [|done].
  replace ((Sentence.cells s ∖ {[c]}) ∩ M) with (Sentence.cells s ∩ M)
    by set_solver.
  done.
Qed.

(** What a true sentence calls a mine is one. *)
Lemma holds_known_mines M s : holds M s → Sentence.known_mines s ⊆ M.
Proof.
  unfold holds, Sentence.known_mines. intros Hs.
  case_match eqn:E; [|set_solver].
  apply andb_true_iff in E as [E1%bool_decide_eq_true _].
  assert (Sentence.cells s ∩ M = Sentence.cells s) as <-; [|set_solver].
  apply set_subseteq_size_eq; [set_solver|lia].
Qed.

(** What a true sentence calls safe is no mine. *)
Lemma holds_known_safes M s : holds M s → Sentence.known_safes s ## M.
Proof.
  unfold holds, Sentence.known_safes. intros Hs.
  case_bool_decide as E; [|set_solver].
  assert (Sentence.cells s ∩ M = ∅); [|set_solver].
  apply leibniz_equiv, size_empty_iff. lia.
Qed.

(** The difference of two true sentences, one inside the other, is true. *)
Lemma holds_difference M s1 s2 :
  Sentence.cells s1 ⊆ Sentence.cells s2 → holds M s1 → holds M s2 →
  holds M (Sentence.init (Sentence.cells s2 ∖ Sentence.cells s1)
                         (Sentence.count s2 - Sentence.count s1)).
Proof.
  unfold holds. simpl. intros Hsub H1 H2.
  replace ((Sentence.cells s2 ∖ Sentence.cells s1) ∩ M)
    with ((Sentence.cells s2 ∩ M) ∖ (Sentence.cells s1 ∩ M)) by set_solver.
  rewrite size_difference by set_solver.
  assert (size (Sentence.cells s1 ∩ M) ≤ size (Sentence.cells s2 ∩ M))%nat
    by (apply subseteq_size; set_solver).
  lia.
Qed.
End sentence_facts.

(** ** Marking cells in the knowledge base *)

Section kb_facts.
Context `{Countable C}.
Implicit Types (kb : MinesweeperAI.t C) (s : Sentence.t C) (c : C).
Implicit Types (M : gset C) (k : list (Sentence.t C)).

#[global] Instance grows_preorder : PreOrder (@grows C _ _).
Proof.
  split.
  - intros kb. unfold grows. set_solver.
  - intros kb1 kb2 kb3 (?&?&?&?&?) (?&?&?&?&?). unfold grows.
    repeat split; try congruence; set_solver.
Qed.

#[global] Instance narrows_preorder : PreOrder (@narrows C _ _).
Proof.
  split.
  - intros k. apply Forall2_same_length_lookup. split; [done|].
    intros i s s' E1 E2. by simplify_eq.
  - unfold narrows. intros k1 k2 k3 H12. revert k3.
    induction H12 as [|s1 s2 k1 k2 Hs _ IH]; intros k3 H23.
    + inversion H23. constructor.
    + inversion H23; subst. constructor; [set_solver|by apply IH].
Qed.

Lemma narrows_map k (f : Sentence.t C → Sentence.t C) :
  (∀ s, Sentence.cells (f s) ⊆ Sentence.cells s) → narrows k (map f k).
Proof. intros Hf. unfold narrows. induction k; simpl; constructor; auto. Qed.

Lemma narrows_length k k' : narrows k k' → length k = length k'.
Proof. apply Forall2_length. Qed.

Lemma narrows_union_list k k' :
  narrows k k' → ⋃ (Sentence.cells <$> k') ⊆ ⋃ (Sentence.cells <$> k).
Proof. induction 1; simpl; set_solver. Qed.

Lemma mark_mine_mines c kb : mines (mark_mine c kb) = {[c]} ∪ mines kb.
Proof. unfold mark_mine. case_bool_decide; simpl; [set_solver|done]. Qed.

Lemma mark_mine_safes c kb : safes (mark_mine c kb) = safes kb.
Proof. unfold mark_mine. by case_bool_decide. Qed.

Lemma mark_safe_safes c kb : safes (mark_safe c kb) = {[c]} ∪ safes kb.
Proof. unfold mark_safe. case_bool_decide; simpl; [set_solver|done]. Qed.

Lemma mark_safe_mines c kb : mines (mark_safe c kb) = mines kb.
Proof. unfold mark_safe. by case_bool_decide. Qed.

Lemma mark_mine_grows c kb : grows kb (mark_mine c kb).
Proof.
  unfold grows, mark_mine. case_bool_decide; simpl; set_solver.
Qed.

Lemma mark_safe_grows c kb : grows kb (mark_safe c kb).
Proof.
  unfold grows, mark_safe. case_bool_decide; simpl; set_solver.
Qed.

Lemma mark_mine_narrows c kb :
  narrows (knowledge kb) (knowledge (mark_mine c kb)).
Proof.
  unfold mark_mine. case_bool_decide; simpl; [reflexivity|].
  apply narrows_map. intros s. rewrite sentence_mark_mine_cells. set_solver.
Qed.

Lemma mark_safe_narrows c kb :
  narrows (knowledge kb) (knowledge (mark_safe c kb)).
Proof.
  unfold mark_safe. case_bool_decide; simpl; [reflexivity|].
  apply narrows_map. intros s. rewrite sentence_mark_safe_cells. set_solver.
Qed.

Lemma mark_mine_clean c kb : clean kb → clean (mark_mine c kb).
Proof.
  unfold clean, mark_mine. intros Hkb. case_bool_decide; simpl; [done|].
  intros s' (s&->&Hs)%list_elem_of_fmap. rewrite sentence_mark_mine_cells.
  destruct (Hkb s Hs). set_solver.
Qed.

Lemma mark_safe_clean c kb : clean kb → clean (mark_safe c kb).
Proof.
  unfold clean, mark_safe. intros Hkb. case_bool_decide; simpl; [done|].
  intros s' (s&->&Hs)%list_elem_of_fmap. rewrite sentence_mark_safe_cells.
  destruct (Hkb s Hs). set_solver.
Qed.

Lemma mark_mine_sound M c kb : c ∈ M → sound M kb → sound M (mark_mine c kb).
Proof.
  unfold sound, mark_mine. intros Hc (Hm&Hs&Hk).
  case_bool_decide; simpl; [done|]. split_and!; [set_solver|done|].
  intros s' (s&->&Hin)%list_elem_of_fmap. apply holds_mark_mine; auto.
Qed.

Lemma mark_safe_sound M c kb : c ∉ M → sound M kb → sound M (mark_safe c kb).
Proof.
  unfold sound, mark_safe. intros Hc (Hm&Hs&Hk).
  case_bool_decide; simpl; [done|]. split_and!; [done|set_solver|].
  intros s' (s&->&Hin)%list_elem_of_fmap. apply holds_mark_safe; auto.
Qed.

(** A property kept by each call of the loop body holds after the loop. *)
Lemma for_each_ind (P : MinesweeperAI.t C → Prop) (f : C → _ → _) xs kb :
  (∀ x kb', x ∈ xs → P kb' → P (f x kb')) →
  P kb → P (for_each f xs kb).
Proof.
  unfold for_each. revert kb.
  induction xs as [|x xs IH]; intros kb Hf Hkb; simpl; [done|].
  apply IH.
  - intros y kb' Hy. apply Hf. by right.
  - apply Hf; [by left|done].
Qed.

Lemma for_each_mark_mine_mines xs kb :
  mines (for_each mark_mine xs kb) = list_to_set xs ∪ mines kb.
Proof.
  unfold for_each. revert kb. induction xs as [|x xs IH]; intros kb; simpl.
  - set_solver.
  - rewrite IH, mark_mine_mines. set_solver.
Qed.

Lemma for_each_mark_safe_safes xs kb :
  safes (for_each mark_safe xs kb) = list_to_set xs ∪ safes kb.
Proof.
  unfold for_each. revert kb. induction xs as [|x xs IH]; intros kb; simpl.
  - set_solver.
  - rewrite IH, mark_safe_safes. set_solver.
Qed.
End kb_facts.

(** ** Order of iteration over a set

    Python does not fix the order in which [for x in some_set] visits the
    elements.  The marks of distinct cells commute, so the loops give the
    same knowledge base for every order. *)

Section iteration_order.
Context `{Countable C}.
Implicit Types (kb : MinesweeperAI.t C) (s : Sentence.t C) (c : C).

Lemma sentence_mark_mine_closed c s :
  (Sentence.mark_mine c s).1 =
  Sentence.init (Sentence.cells s ∖ {[c]})
    (Sentence.count s - if bool_decide (c ∈ Sentence.cells s) then 1 else 0).
Proof.
  unfold Sentence.mark_mine. case_bool_decide; simpl; [done|].
  destruct s as [X n]. simpl in *. f_equal; [set_solver|lia].
Qed.

Lemma sentence_mark_safe_closed c s :
  (Sentence.mark_safe c s).1 =
  Sentence.init (Sentence.cells s ∖ {[c]}) (Sentence.count s).
Proof.
  unfold Sentence.mark_safe. case_bool_decide; simpl; [done|].
  destruct s as [X n]. simpl in *. f_equal. set_solver.
Qed.

Lemma sentence_mark_mine_comm c1 c2 s :
  (Sentence.mark_mine c1 (Sentence.mark_mine c2 s).1).1 =
  (Sentence.mark_mine c2 (Sentence.mark_mine c1 s).1).1.
Proof.
  destruct (decide (c1 = c2)) as [->|Hne]; [done|].
  rewrite !sentence_mark_mine_closed. simpl. f_equal; [set_solver|].
  rewrite (bool_decide_ext (c1 ∈ Sentence.cells s ∖ {[c2]})
                           (c1 ∈ Sentence.cells s)) by set_solver.
  rewrite (bool_decide_ext (c2 ∈ Sentence.cells s ∖ {[c1]})
                           (c2 ∈ Sentence.cells s)) by set_solver.
  lia.
Qed.

Lemma sentence_mark_safe_comm c1 c2 s :
  (Sentence.mark_safe c1 (Sentence.mark_safe c2 s).1).1 =
  (Sentence.mark_safe c2 (Sentence.mark_safe c1 s).1).1.
Proof. rewrite !sentence_mark_safe_closed. simpl. f_equal. set_solver. Qed.

Lemma mark_mine_comm c1 c2 kb :
  mark_mine c1 (mark_mine c2 kb) = mark_mine c2 (mark_mine c1 kb).
Proof.
  destruct (decide (c1 = c2)) as [->|Hne]; [done|].
  unfold mark_mine.
  destruct (decide (c1 ∈ mines kb)) as [H1|H1];
    destruct (decide (c2 ∈ mines kb)) as [H2|H2].
  - by rewrite !(bool_decide_eq_true_2 _ H1), !(bool_decide_eq_true_2 _ H2),
      !(bool_decide_eq_true_2 _ H1).
  - rewrite !(bool_decide_eq_true_2 _ H1), !(bool_decide_eq_false_2 _ H2).
    simpl. by rewrite bool_decide_eq_true_2 by set_solver.
  - rewrite !(bool_decide_eq_true_2 _ H2), !(bool_decide_eq_false_2 _ H1).
    simpl. by rewrite bool_decide_eq_true_2 by set_solver.
  - rewrite !(bool_decide_eq_false_2 _ H1), !(bool_decide_eq_false_2 _ H2).
    simpl. rewrite !bool_decide_eq_false_2 by set_solver. simpl.
    f_equal; [set_solver|]. rewrite !map_map.
    apply map_ext. intros s. apply sentence_mark_mine_comm.
Qed.

Lemma mark_safe_comm c1 c2 kb :
  mark_safe c1 (mark_safe c2 kb) = mark_safe c2 (mark_safe c1 kb).
Proof.
  destruct (decide (c1 = c2)) as [->|Hne]; [done|].
  unfold mark_safe.
  destruct (decide (c1 ∈ safes kb)) as [H1|H1];
    destruct (decide (c2 ∈ safes kb)) as [H2|H2].
  - by rewrite !(bool_decide_eq_true_2 _ H1), !(bool_decide_eq_true_2 _ H2),
      !(bool_decide_eq_true_2 _ H1).
  - rewrite !(bool_decide_eq_true_2 _ H1), !(bool_decide_eq_false_2 _ H2).
    simpl. by rewrite bool_decide_eq_true_2 by set_solver.
  - rewrite !(bool_decide_eq_true_2 _ H2), !(bool_decide_eq_false_2 _ H1).
    simpl. by rewrite bool_decide_eq_true_2 by set_solver.
  - rewrite !(bool_decide_eq_false_2 _ H1), !(bool_decide_eq_false_2 _ H2).
    simpl. rewrite !bool_decide_eq_false_2 by set_solver. simpl.
    f_equal; [set_solver|]. rewrite !map_map.
    apply map_ext. intros s. apply sentence_mark_safe_comm.
Qed.

(** A loop whose body commutes with itself does not depend on the order
    of the visits. *)
Lemma for_each_permutation (f : C → MinesweeperAI.t C → MinesweeperAI.t C)
    xs ys kb :
  (∀ c1 c2 kb', f c1 (f c2 kb') = f c2 (f c1 kb')) →
  xs ≡ₚ ys → for_each f xs kb = for_each f ys kb.
Proof.
  intros Hcomm Hperm. unfold for_each. revert kb.
  induction Hperm as [|x xs ys _ IH|x y xs|xs ys zs _ IH1 _ IH2];
    intros kb; simpl.
  - done.
  - apply IH.
  - by rewrite Hcomm.
  - by rewrite IH1.
Qed.

Lemma for_each_mark_mine_order xs ys kb :
  xs ≡ₚ ys → for_each mark_mine xs kb = for_each mark_mine ys kb.
Proof. apply for_each_permutation, mark_mine_comm. Qed.

Lemma for_each_mark_safe_order xs ys kb :
  xs ≡ₚ ys → for_each mark_safe xs kb = for_each mark_safe ys kb.
Proof. apply for_each_permutation, mark_safe_comm. Qed.
End iteration_order.

(** ** The propagation loop *)

Section propagation.
Context `{Countable C}.
Implicit Types (kb : MinesweeperAI.t C) (s : Sentence.t C) (c : C).
Implicit Types (st : MinesweeperAI.t C * bool).
Implicit Types (P : MinesweeperAI.t C → Prop).

(** A property kept by the marks a snapshot sentence asks for is kept by
    the body of the scan. *)
Lemma scan_step_ind P st s :
  (∀ c kb, c ∈ Sentence.known_mines s → P kb → P (mark_mine c kb)) →
  (∀ c kb, c ∈ Sentence.known_safes s → P kb → P (mark_safe c kb)) →
  P st.1 → P (scan_step st s).1.
Proof.
  intros Hm Hs Hst. unfold scan_step. cbv zeta.
  destruct (bool_decide (Sentence.known_mines s ≠ ∅));
    destruct (bool_decide (Sentence.known_safes s ≠ ∅)); simpl;
    repeat (apply for_each_ind; [intros x kb' Hx%elem_of_elements; auto|]);
    done.
Qed.

Lemma foldl_scan_step_ind P l st :
  (∀ s c kb, s ∈ l → c ∈ Sentence.known_mines s → P kb → P (mark_mine c kb)) →
  (∀ s c kb, s ∈ l → c ∈ Sentence.known_safes s → P kb → P (mark_safe c kb)) →
  P st.1 → P (foldl scan_step st l).1.
Proof.
  revert st. induction l as [|s l IH]; intros st Hm Hs Hst; simpl; [done|].
  apply IH.
  - intros s' c kb Hs'. apply (Hm s'). by right.
  - intros s' c kb Hs'. apply (Hs s'). by right.
  - apply scan_step_ind; [| |done].
    + intros c kb. apply (Hm s). by left.
    + intros c kb. apply (Hs s). by left.
Qed.

Lemma scan_ind P kb :
  (∀ s c kb', s ∈ knowledge kb → c ∈ Sentence.known_mines s →
     P kb' → P (mark_mine c kb')) →
  (∀ s c kb', s ∈ knowledge kb → c ∈ Sentence.known_safes s →
     P kb' → P (mark_safe c kb')) →
  P kb → P (scan kb).1.
Proof. intros Hm Hs Hkb. unfold scan. by apply foldl_scan_step_ind. Qed.

Lemma foldl_scan_step_grows l st : grows st.1 (foldl scan_step st l).1.
Proof.
  apply (foldl_scan_step_ind (grows st.1)); [| |reflexivity].
  - intros _ c kb _ _ Hkb. etrans; [exact Hkb|apply mark_mine_grows].
  - intros _ c kb _ _ Hkb. etrans; [exact Hkb|apply mark_safe_grows].
Qed.

Lemma scan_grows kb : grows kb (scan kb).1.
Proof. apply (foldl_scan_step_grows (knowledge kb) (kb, false)). Qed.

Lemma scan_narrows kb : narrows (knowledge kb) (knowledge (scan kb).1).
Proof.
  apply (scan_ind (λ kb', narrows (knowledge kb) (knowledge kb')));
    [| |reflexivity].
  - intros _ c kb' _ _ Hkb. etrans; [exact Hkb|apply mark_mine_narrows].
  - intros _ c kb' _ _ Hkb. etrans; [exact Hkb|apply mark_safe_narrows].
Qed.

Lemma scan_clean kb : clean kb → clean (scan kb).1.
Proof.
  intros Hkb. apply (scan_ind clean); [| |done].
  - intros _ c kb' _ _. apply mark_mine_clean.
  - intros _ c kb' _ _. apply mark_safe_clean.
Qed.

Lemma scan_sound M kb : sound M kb → sound M (scan kb).1.
Proof.
  intros Hkb. apply (scan_ind (sound M)); [| |done].
  - intros s c kb' Hs Hc. apply mark_mine_sound.
    destruct Hkb as (_&_&Hk). by apply (holds_known_mines M s); [apply Hk|].
  - intros s c kb' Hs Hc. apply mark_safe_sound.
    destruct Hkb as (_&_&Hk).
    pose proof (holds_known_safes M s (Hk s Hs)). set_solver.
Qed.

(** When the body of the scan leaves the flag down, it did nothing. *)
Lemma scan_step_false st s :
  (scan_step st s).2 = false →
  scan_step st s = st ∧
  Sentence.known_mines s = ∅ ∧ Sentence.known_safes s = ∅.
Proof.
  unfold scan_step. cbv zeta.
  destruct (bool_decide (Sentence.known_mines s ≠ ∅)) eqn:Em;
    destruct (bool_decide (Sentence.known_safes s ≠ ∅)) eqn:Es;
    simpl; try done.
  apply bool_decide_eq_false in Em, Es. intros _.
  split; [done|]. split; [by apply dec_stable|by apply dec_stable].
Qed.

(** When it raises the flag that was down, all cells of the snapshot
    sentence are recorded as mines, or all as safe. *)
Lemma scan_step_true st s :
  (scan_step st s).2 = true →
  st.2 = true ∨
  (Sentence.cells s ≠ ∅ ∧
   (Sentence.cells s ⊆ mines (scan_step st s).1 ∨
    Sentence.cells s ⊆ safes (scan_step st s).1)).
Proof.
  unfold scan_step. cbv zeta.
  destruct (bool_decide (Sentence.known_safes s ≠ ∅)) eqn:Es.
  - apply bool_decide_eq_true in Es. simpl. intros _. right.
    assert (Sentence.known_safes s = Sentence.cells s) as E.
    { revert Es. unfold Sentence.known_safes. by case_match. }
    rewrite E in *. split; [done|]. right.
    rewrite for_each_mark_safe_safes. set_solver.
  - destruct (bool_decide (Sentence.known_mines s ≠ ∅)) eqn:Em;
      simpl; [|by left].
    apply bool_decide_eq_true in Em. intros _. right.
    assert (Sentence.known_mines s = Sentence.cells s) as E.
    { revert Em. unfold Sentence.known_mines. by case_match. }
    rewrite E in *. split; [done|]. left.
    rewrite for_each_mark_mine_mines. set_solver.
Qed.

Lemma foldl_scan_step_false l st :
  (foldl scan_step st l).2 = false →
  foldl scan_step st l = st ∧
  ∀ s, s ∈ l → Sentence.known_mines s = ∅ ∧ Sentence.known_safes s = ∅.
Proof.
  revert st. induction l as [|s l IH]; intros st; simpl.
  - intros _. split; [done|]. intros s Hs. inversion Hs.
  - intros Hf. destruct (IH _ Hf) as [E Hl].
    rewrite E in Hf. destruct (scan_step_false _ _ Hf) as (E'&Hm&Hs).
    split; [congruence|].
    intros s' [->|Hs']%elem_of_cons; auto.
Qed.

Lemma foldl_scan_step_true l st :
  (foldl scan_step st l).2 = true →
  st.2 = true ∨
  ∃ s, s ∈ l ∧ Sentence.cells s ≠ ∅ ∧
       (Sentence.cells s ⊆ mines (foldl scan_step st l).1 ∨
        Sentence.cells s ⊆ safes (foldl scan_step st l).1).
Proof.
  revert st. induction l as [|s l IH]; intros st; simpl; [by left|].
  intros Hf. destruct (IH _ Hf) as [Hst|(s'&Hs'&Hne&Hsub)].
  - destruct (scan_step_true _ _ Hst) as [?|[Hne Hsub]]; [by left|].
    right. exists s. split; [by left|]. split; [done|].
    destruct (foldl_scan_step_grows l (scan_step st s)) as (_&_&_&Hm&Hs).
    destruct Hsub; [left|right]; set_solver.
  - right. exists s'. split; [by right|]. done.
Qed.

(** A scan that reports no change is the identity, and no stored
    sentence yields a known mine or a known safe cell. *)
Lemma scan_false kb :
  (scan kb).2 = false →
  (scan kb).1 = kb ∧
  ∀ s, s ∈ knowledge kb →
    Sentence.known_mines s = ∅ ∧ Sentence.known_safes s = ∅.
Proof.
  unfold scan. intros Hf.
  destruct (foldl_scan_step_false _ _ Hf) as [E Hk]. by rewrite E.
Qed.

(** A scan of a clean knowledge base that reports a change resolves at
    least one unresolved cell. *)
Lemma scan_true_decreases kb :
  clean kb → (scan kb).2 = true → unresolved (scan kb).1 ⊂ unresolved kb.
Proof.
  intros Hkb Hf. pose proof (scan_clean kb Hkb) as Hkb'.
  pose proof (scan_narrows kb) as Hn%narrows_union_list.
  destruct (foldl_scan_step_true _ _ Hf) as [?|(s&Hs&Hne&Hsub)]; [done|].
  fold (scan kb) in Hsub.
  apply set_choose_L in Hne as [x Hx].
  assert (x ∈ unresolved kb) as Hxu.
  { apply elem_of_union_list. exists (Sentence.cells s).
    split; [|done]. apply list_elem_of_fmap. by exists s. }
  assert (x ∉ unresolved (scan kb).1) as Hxn.
  { intros (X&(s'&->&Hs')%list_elem_of_fmap&Hx')%elem_of_union_list.
    destruct (Hkb' s' Hs'). destruct Hsub; set_solver. }
  split; [exact Hn|]. intros Hsup. apply Hxn, Hsup, Hxu.
Qed.

(** The loop ends within one scan more than there are unresolved cells. *)
Lemma propagate_terminates fuel kb :
  clean kb → (size (unresolved kb) < fuel)%nat →
  ∃ kb', propagate fuel kb = Some kb'.
Proof.
  revert kb. induction fuel as [|fuel IH]; intros kb Hkb Hlt; [lia|].
  simpl. destruct (scan kb) as [kb1 ch] eqn:E. destruct ch; [|by eexists].
  apply IH.
  - replace kb1 with (scan kb).1 by (by rewrite E). by apply scan_clean.
  - assert (unresolved kb1 ⊂ unresolved kb) as Hs%subset_size; [|lia].
    replace kb1 with (scan kb).1 by (by rewrite E).
    apply scan_true_decreases; [done|by rewrite E].
Qed.

(** More fuel does not change the result. *)
Lemma propagate_fuel_mono fuel fuel' kb kb' :
  propagate fuel kb = Some kb' → (fuel ≤ fuel')%nat →
  propagate fuel' kb = Some kb'.
Proof.
  revert fuel' kb. induction fuel as [|fuel IH]; intros fuel' kb; [done|].
  destruct fuel' as [|fuel']; [lia|]. simpl.
  destruct (scan kb) as [kb1 ch]. destruct ch; [|done].
  intros Hp Hle. apply (IH fuel'); [done|lia].
Qed.

(** A property kept by every scan holds when the loop ends. *)
Lemma propagate_ind P fuel kb kb' :
  (∀ kb1, P kb1 → P (scan kb1).1) →
  P kb → propagate fuel kb = Some kb' → P kb'.
Proof.
  intros Hscan. revert kb. induction fuel as [|fuel IH]; intros kb Hkb; [done|].
  simpl. destruct (scan kb) as [kb1 ch] eqn:E.
  assert (P kb1) by (replace kb1 with (scan kb).1 by (by rewrite E); auto).
  destruct ch; [by apply IH|congruence].
Qed.

(** The loop ends on a knowledge base that a further scan leaves alone. *)
Lemma propagate_fixpoint fuel kb kb' :
  propagate fuel kb = Some kb' → scan kb' = (kb', false).
Proof.
  revert kb. induction fuel as [|fuel IH]; intros kb; [done|].
  simpl. destruct (scan kb) as [kb1 ch] eqn:E. destruct ch; [apply IH|].
  intros [= <-].
  assert ((scan kb).2 = false) as Hf by (by rewrite E).
  destruct (scan_false kb Hf) as [E1 _]. rewrite E in E1. simpl in E1.
  by rewrite E1 in E |- *.
Qed.
End propagation.

(** Cleanness is what makes the loop end: with a stored sentence that
    still mentions a known mine, every scan raises the flag and marks
    nothing.  No sequence of calls builds such a knowledge base. *)
Lemma propagate_needs_clean (fuel : nat) :
  propagate fuel (Build 1 1 ∅ ({[0]} : gset Z) ∅ [Sentence.init {[0]} 1]) = None.
Proof.
  induction fuel as [|fuel IH]; [done|].
  change (propagate (S fuel) ?kb)
    with (let '(kb', changes_made) := scan kb in
          if changes_made then propagate fuel kb' else Some kb').
  replace (scan (Build 1 1 ∅ ({[0]} : gset Z) ∅ [Sentence.init {[0]} 1]))
    with (Build 1 1 ∅ ({[0]} : gset Z) ∅ [Sentence.init {[0]} 1], true)
    by (vm_compute; reflexivity).
  exact IH.
Qed.

(** ** Subset elimination *)

Section elimination.
Context `{Countable C}.
Implicit Types (kb : MinesweeperAI.t C) (s d : Sentence.t C).
Implicit Types (k rest : list (Sentence.t C)).

Lemma elem_of_infer_pair k s1 s2 d :
  d ∈ infer_pair k s1 s2 ↔
  ((Sentence.cells s1 ⊆ Sentence.cells s2 ∧ d = difference_of s1 s2) ∨
   (Sentence.cells s1 ⊈ Sentence.cells s2 ∧
    Sentence.cells s2 ⊆ Sentence.cells s1 ∧ d = difference_of s2 s1)) ∧
  Sentence.cells d ≠ ∅ ∧ d ∉ k.
Proof.
  assert (∀ X : gset C, (0 < size X)%nat ↔ X ≠ ∅) as Hpos.
  { intros X. rewrite <-(leibniz_equiv_iff X ∅), <-size_non_empty_iff. lia. }
  unfold infer_pair, difference_of. cbv zeta.
  case_bool_decide as H12.
  - destruct (_ && _) eqn:E.
    + apply andb_true_iff in E as [E1%bool_decide_eq_true E2%bool_decide_eq_true].
      apply Hpos in E1. rewrite list_elem_of_singleton. split.
      * intros ->. split; [by left|done].
      * intros [[[_ ->]|[? _]] _]; done.
    + apply andb_false_iff in E. split; [intros []%elem_of_nil|].
      intros [[[_ ->]|[? _]] [Hne Hk]]; [|done].
      destruct E as [E%bool_decide_eq_false|E%bool_decide_eq_false];
        exfalso; [by apply E, Hpos|by apply E].
  - case_bool_decide as H21.
    + destruct (_ && _) eqn:E.
      * apply andb_true_iff in E as [E1%bool_decide_eq_true E2%bool_decide_eq_true].
        apply Hpos in E1. rewrite list_elem_of_singleton. split.
        -- intros ->. split; [by right|done].
        -- intros [[[? _]|(_&_&->)] _]; done.
      * apply andb_false_iff in E. split; [intros []%elem_of_nil|].
        intros [[[? _]|(_&_&->)] [Hne Hk]]; [done|].
        destruct E as [E%bool_decide_eq_false|E%bool_decide_eq_false];
          exfalso; [by apply E, Hpos|by apply E].
    + split; [intros []%elem_of_nil|]. intros [[[? _]|(_&?&_)] _]; done.
Qed.

Lemma elem_of_flat_map {A B} (f : A → list B) (l : list A) (b : B) :
  b ∈ flat_map f l ↔ ∃ a, a ∈ l ∧ b ∈ f a.
Proof.
  rewrite list_elem_of_In, in_flat_map.
  split; intros (a&Ha&Hb); exists a; by rewrite ?list_elem_of_In in *.
Qed.

(** The nested loops visit exactly the index pairs [i < j]. *)
Lemma elem_of_infer_from k rest d :
  d ∈ infer_from k rest ↔
  ∃ i j s1 s2, (i < j)%nat ∧ rest !! i = Some s1 ∧ rest !! j = Some s2 ∧
               d ∈ infer_pair k s1 s2.
Proof.
  induction rest as [|s rest IH]; simpl.
  - split; [intros []%elem_of_nil|]. by intros (i&j&s1&s2&_&?&_).
  - rewrite elem_of_app, elem_of_flat_map, IH. split.
    + intros [(s2&(j&Hj)%list_elem_of_lookup&Hd)|(i&j&s1&s2&Hlt&Hi&Hj&Hd)].
      * exists 0%nat, (S j), s, s2. split_and!; [lia|done|done|done].
      * exists (S i), (S j), s1, s2. split_and!; [lia|done|done|done].
    + intros (i&j&s1&s2&Hlt&Hi&Hj&Hd).
      destruct j as [|j]; [lia|]. simpl in Hj. destruct i as [|i].
      * simpl in Hi. simplify_eq. left. exists s2.
        split; [|done]. apply list_elem_of_lookup. by exists j.
      * right. exists i, j, s1, s2. split_and!; [lia|done|done|done].
Qed.

(** What subset elimination derives from the stored list [k]: for every
    two positions holding a sentence inside another, the difference,
    unless it is empty or equal to a stored sentence. *)
Lemma elem_of_new_inferences k d :
  d ∈ new_inferences k ↔
  ∃ i j sub sup,
    i ≠ j ∧ k !! i = Some sub ∧ k !! j = Some sup ∧
    Sentence.cells sub ⊆ Sentence.cells sup ∧
    d = difference_of sub sup ∧
    Sentence.cells d ≠ ∅ ∧ d ∉ k.
Proof.
  unfold new_inferences. rewrite elem_of_infer_from. split.
  - intros (i&j&s1&s2&Hlt&Hi&Hj&Hd).
    apply elem_of_infer_pair in Hd as [[[Hsub ->]|(_&Hsub&->)] [Hne Hk]].
    + exists i, j, s1, s2. split_and!; try done. lia.
    + exists j, i, s2, s1. split_and!; try done. lia.
  - intros (i&j&sub&sup&Hij&Hi&Hj&Hsub&->&Hne&Hk).
    destruct (decide (i < j)%nat) as [Hlt|Hge].
    + exists i, j, sub, sup. split_and!; try done.
      apply elem_of_infer_pair. split; [by left|done].
    + exists j, i, sup, sub. split_and!; try done; [lia|].
      apply elem_of_infer_pair. split; [|done]. right.
      split_and!; try done. intros Hsup. apply Hne.
      unfold difference_of. simpl. set_solver.
Qed.

Lemma new_inferences_nonempty k d :
  d ∈ new_inferences k → Sentence.cells d ≠ ∅.
Proof. intros (?&?&?&?&?&?&?&?&?&?&?)%elem_of_new_inferences. done. Qed.

Lemma new_inferences_fresh k d : d ∈ new_inferences k → d ∉ k.
Proof. intros (?&?&?&?&?&?&?&?&?&?&?)%elem_of_new_inferences. done. Qed.

Lemma new_inferences_cells k d :
  d ∈ new_inferences k → ∃ s, s ∈ k ∧ Sentence.cells d ⊆ Sentence.cells s.
Proof.
  intros (i&j&sub&sup&_&_&Hj&_&->&_)%elem_of_new_inferences.
  exists sup. split; [by eapply list_elem_of_lookup_2|].
  unfold difference_of. simpl. set_solver.
Qed.

Lemma subset_elimination_grows kb : grows kb (subset_elimination kb).
Proof. unfold grows. simpl. set_solver. Qed.

Lemma subset_elimination_clean kb : clean kb → clean (subset_elimination kb).
Proof.
  unfold clean. simpl. intros Hkb s [Hs|Hs]%elem_of_app; [auto|].
  apply new_inferences_cells in Hs as (s'&Hs'&Hsub).
  destruct (Hkb s' Hs'). set_solver.
Qed.

Lemma subset_elimination_sound M kb :
  sound M kb → sound M (subset_elimination kb).
Proof.
  unfold sound. simpl. intros (Hm&Hs&Hk). split_and!; [done|done|].
  intros d [Hd|Hd]%elem_of_app; [auto|].
  apply elem_of_new_inferences in Hd as (i&j&sub&sup&_&Hi&Hj&Hsub&->&_).
  apply holds_difference; [done| |]; apply Hk; by eapply list_elem_of_lookup_2.
Qed.
End elimination.

(** ** Observing a cell *)

Import Board.

Lemma sublist_flat_map {A B} (f g : A → list B) (l : list A) :
  (∀ a, f a `sublist_of` g a) → flat_map f l `sublist_of` flat_map g l.
Proof.
  intros Hfg. induction l as [|a l IH]; simpl; [done|].
  by apply sublist_app.
Qed.

(** The neighbour list has no repetition. *)
Lemma neighbor_cells_NoDup (kb : KB) cell : NoDup (neighbor_cells kb cell).
Proof.
  destruct cell as [r c].
  eapply (sublist_NoDup _
    (flat_map (λ dr, flat_map (λ dc, [(r + dr, c + dc)]) (range (-1) 2))
              (range (-1) 2))); [|]; cycle 1.
  - unfold neighbor_cells. apply sublist_flat_map. intros dr.
    apply sublist_flat_map. intros dc. simpl.
    destruct (_ && _); [done|]. apply sublist_nil_l.
  - change (range (-1) 2) with [-1; 0; 1]. cbn [flat_map app].
    repeat (apply NoDup_cons; split;
      [rewrite ?elem_of_cons, elem_of_nil; intros Hx;
       repeat (destruct Hx as [Hx|Hx]; [injection Hx; lia|]); done|]).
    apply NoDup_nil_2.
Qed.

(** The neighbours depend on the board size only. *)
Lemma neighbor_cells_dims (kb kb' : KB) cell :
  height kb' = height kb → width kb' = width kb →
  neighbor_cells kb' cell = neighbor_cells kb cell.
Proof. unfold neighbor_cells. by intros -> ->. Qed.

(** The loop over the neighbours in closed form. *)
Lemma foldl_neighbor_step (kb : KB) l n X :
  foldl (neighbor_step kb) (n, X) l =
  (n - Z.of_nat (length (filter (λ c, c ∈ mines kb) l)),
   list_to_set (filter (λ c, (c ∉ safes kb) ∧ (c ∉ mines kb)) l) ∪ X).
Proof.
  revert n X. induction l as [|c l IH]; intros n X; simpl.
  - f_equal; [lia|set_solver].
  - assert (neighbor_step kb (n, X) c =
            (if decide (c ∈ mines kb) then n - 1 else n,
             if decide ((c ∉ safes kb) ∧ (c ∉ mines kb)) then {[c]} ∪ X else X))
      as ->.
    { unfold neighbor_step. simpl.
      destruct (decide (c ∈ mines kb)) as [Hm|Hm].
      - rewrite bool_decide_eq_true_2 by done.
        by rewrite decide_False by tauto.
      - rewrite bool_decide_eq_false_2 by done.
        rewrite (bool_decide_eq_true_2 (c ∉ mines kb)) by done.
        rewrite andb_true_r.
        destruct (decide (c ∉ safes kb)) as [Hs|Hs].
        + rewrite bool_decide_eq_true_2 by done.
          by rewrite decide_True by tauto.
        + rewrite bool_decide_eq_false_2 by done.
          by rewrite decide_False by tauto. }
    rewrite IH, !filter_cons.
    destruct (decide (c ∈ mines kb));
      destruct (decide ((c ∉ safes kb) ∧ (c ∉ mines kb)));
      simpl; f_equal; first [lia|set_solver].
Qed.

(** Steps 1 and 2 of [add_knowledge] with the loop in closed form. *)
Lemma add_sentence_unfold (kb : KB) cell count :
  let kb1 := mark_safe cell (set_moves_made kb ({[cell]} ∪ moves_made kb)) in
  let l := neighbor_cells kb1 cell in
  let new_sentence :=
    Sentence.init
      (list_to_set (filter (λ c, (c ∉ safes kb1) ∧ (c ∉ mines kb1)) l))
      (count - Z.of_nat (length (filter (λ c, c ∈ mines kb1) l))) in
  add_sentence kb cell count =
  if bool_decide (0 < size (Sentence.cells new_sentence))%nat
  then set_knowledge kb1 (knowledge kb1 ++ [new_sentence])
  else kb1.
Proof.
  intros kb1 l new_sentence. unfold add_sentence. fold kb1. fold l.
  rewrite foldl_neighbor_step.
  replace (list_to_set (filter (λ c, (c ∉ safes kb1) ∧ (c ∉ mines kb1)) l) ∪ ∅)
    with (Sentence.cells new_sentence) by (simpl; set_solver).
  done.
Qed.

Lemma add_sentence_grows (kb : KB) cell count :
  grows kb (add_sentence kb cell count).
Proof.
  rewrite add_sentence_unfold. cbv zeta.
  assert (grows kb (mark_safe cell
            (set_moves_made kb ({[cell]} ∪ moves_made kb)))) as Hg.
  { etrans; [|apply mark_safe_grows]. unfold grows. simpl. set_solver. }
  case_bool_decide; [|done]. unfold grows in *. simpl. done.
Qed.

(** Step 2 keeps the stored sentences in place, the observed cell taken
    out of them, and appends at most one sentence, which has cells. *)
Lemma add_sentence_appends (kb : KB) cell count :
  narrows (knowledge kb)
    (take (length (knowledge kb)) (knowledge (add_sentence kb cell count))) ∧
  (length (drop (length (knowledge kb))
             (knowledge (add_sentence kb cell count))) ≤ 1)%nat ∧
  ∀ s, s ∈ drop (length (knowledge kb)) (knowledge (add_sentence kb cell count)) →
       Sentence.cells s ≠ ∅.
Proof.
  rewrite add_sentence_unfold. cbv zeta.
  set (kb1 := mark_safe cell _). set (new_sentence := Sentence.init _ _).
  assert (narrows (knowledge kb) (knowledge kb1)) as Hn1
    by exact (mark_safe_narrows cell (set_moves_made kb _)).
  pose proof (narrows_length _ _ Hn1) as Hlen.
  case_bool_decide as Hpos; simpl.
  - rewrite take_app_length', drop_app_length' by done.
    split_and!; [done|simpl; lia|].
    intros s ->%list_elem_of_singleton E. rewrite E, size_empty in Hpos. lia.
  - rewrite Hlen, firstn_all, drop_all.
    split_and!; [done|simpl; lia|]. by intros s ?%elem_of_nil.
Qed.

(** The observed cell is recorded as played and as safe. *)
Lemma add_sentence_records (kb : KB) cell count :
  moves_made (add_sentence kb cell count) = {[cell]} ∪ moves_made kb ∧
  safes (add_sentence kb cell count) = {[cell]} ∪ safes kb ∧
  mines (add_sentence kb cell count) = mines kb.
Proof.
  rewrite add_sentence_unfold. cbv zeta.
  set (kb1 := mark_safe cell _).
  assert (moves_made kb1 = {[cell]} ∪ moves_made kb) as E1.
  { unfold kb1, mark_safe. by case_bool_decide. }
  assert (safes kb1 = {[cell]} ∪ safes kb) as E2.
  { unfold kb1. by rewrite mark_safe_safes. }
  assert (mines kb1 = mines kb) as E3.
  { unfold kb1. by rewrite mark_safe_mines. }
  by case_bool_decide.
Qed.

Lemma add_sentence_clean (kb : KB) cell count :
  clean kb → clean (add_sentence kb cell count).
Proof.
  intros Hkb. rewrite add_sentence_unfold. cbv zeta.
  set (kb1 := mark_safe cell _).
  assert (clean kb1) as Hkb1 by (by apply mark_safe_clean).
  case_bool_decide; [|done].
  unfold clean. simpl. intros s [Hs|Hs%list_elem_of_singleton]%elem_of_app.
  - by apply Hkb1.
  - subst s. simpl. split; intros x Hx%elem_of_list_to_set%list_elem_of_filter; tauto.
Qed.

Lemma length_filter_difference {A} (P Q : A → Prop)
    `{∀ x, Decision (P x)} `{∀ x, Decision (Q x)} (l : list A) :
  (∀ x, Q x → P x) →
  (length (filter (λ x, P x ∧ ¬ Q x) l) =
   length (filter P l) - length (filter Q l))%nat ∧
  (length (filter Q l) ≤ length (filter P l))%nat.
Proof.
  intros HQP. induction l as [|x l [IH1 IH2]]; simpl; [done|].
  rewrite !filter_cons.
  destruct (decide (Q x)) as [HQ|HQ].
  - rewrite (decide_True (P:=P x)) by auto.
    rewrite decide_False by tauto. simpl. lia.
  - destruct (decide (P x)) as [HP|HP].
    + rewrite decide_True by tauto. simpl. lia.
    + rewrite decide_False by tauto. simpl. lia.
Qed.

(** A truthful observation keeps the knowledge base true of the layout. *)
Lemma add_sentence_sound (M : gset Cell) (kb : KB) cell count :
  sound M kb → cell ∉ M →
  count = Z.of_nat (length (filter (λ c, c ∈ M) (neighbor_cells kb cell))) →
  sound M (add_sentence kb cell count).
Proof.
  intros Hkb Hcell Hcount. rewrite add_sentence_unfold. cbv zeta.
  set (kb1 := mark_safe cell _).
  assert (sound M kb1) as Hkb1.
  { apply mark_safe_sound; [done|]. destruct Hkb as (?&?&?). by split_and!. }
  assert (neighbor_cells kb1 cell = neighbor_cells kb cell) as El.
  { apply neighbor_cells_dims; unfold kb1, mark_safe; by case_bool_decide. }
  rewrite El. case_bool_decide; [|done].
  destruct Hkb1 as (Hm&Hs&Hk). split_and!; [done|done|]. simpl.
  intros s [Hin|Hin%list_elem_of_singleton]%elem_of_app; [by apply Hk|].
  subst s.
  unfold holds. simpl. subst count.
  set (l := neighbor_cells kb cell).
  pose proof (neighbor_cells_NoDup kb cell) as Hnd. fold l in Hnd.
  replace (list_to_set (filter (λ c, (c ∉ safes kb1) ∧ (c ∉ mines kb1)) l) ∩ M)
    with (list_to_set (C:=gset Cell)
            (filter (λ c, c ∈ M ∧ ¬ c ∈ mines kb1) l)).
  - rewrite size_list_to_set by (by apply NoDup_filter).
    destruct (length_filter_difference (λ c, c ∈ M) (λ c, c ∈ mines kb1) l)
      as [E Hle]; [set_solver|].
    rewrite E. lia.
  - apply set_eq. intros x.
    rewrite elem_of_intersection, !elem_of_list_to_set, !list_elem_of_filter.
    set_solver.
Qed.

(** ** [add_knowledge] and sequences of calls *)

Lemma add_knowledge_Some (fuel : nat) (kb : KB) cell count kb' :
  add_knowledge fuel kb cell count = Some kb' ↔
  ∃ kbp, propagate fuel (add_sentence kb cell count) = Some kbp ∧
         kb' = subset_elimination kbp.
Proof.
  unfold add_knowledge.
  destruct (propagate fuel (add_sentence kb cell count)) as [kbp|]; simpl.
  - split; [intros [= <-]; by exists kbp|by intros (?&[= <-]&->)].
  - split; [done|by intros (?&?&_)].
Qed.

Section propagate_facts.
Context `{Countable C}.
Implicit Types (kb : MinesweeperAI.t C).

Lemma propagate_grows fuel kb kb' :
  propagate fuel kb = Some kb' → grows kb kb'.
Proof.
  apply (propagate_ind (grows kb)); [|reflexivity].
  intros kb1 Hkb1. etrans; [exact Hkb1|apply scan_grows].
Qed.

Lemma propagate_narrows fuel kb kb' :
  propagate fuel kb = Some kb' → narrows (knowledge kb) (knowledge kb').
Proof.
  apply (propagate_ind (λ kb1, narrows (knowledge kb) (knowledge kb1)));
    [|reflexivity].
  intros kb1 Hkb1. etrans; [exact Hkb1|apply scan_narrows].
Qed.

Lemma propagate_clean fuel kb kb' :
  clean kb → propagate fuel kb = Some kb' → clean kb'.
Proof. apply propagate_ind, scan_clean. Qed.

Lemma propagate_sound M fuel kb kb' :
  sound M kb → propagate fuel kb = Some kb' → sound M kb'.
Proof. apply propagate_ind, scan_sound. Qed.

Lemma mark_mine_moves_made c kb : moves_made (mark_mine c kb) = moves_made kb.
Proof. unfold mark_mine. by case_bool_decide. Qed.

Lemma mark_safe_moves_made c kb : moves_made (mark_safe c kb) = moves_made kb.
Proof. unfold mark_safe. by case_bool_decide. Qed.

(** The loop does not touch [moves_made]. *)
Lemma propagate_moves_made fuel kb kb' :
  propagate fuel kb = Some kb' → moves_made kb' = moves_made kb.
Proof.
  apply (propagate_ind (λ kb1, moves_made kb1 = moves_made kb)); [|done].
  intros kb1 Hkb1. apply (scan_ind (λ kb2, moves_made kb2 = moves_made kb));
    [| |done].
  - intros _ c kb2 _ _. by rewrite mark_mine_moves_made.
  - intros _ c kb2 _ _. by rewrite mark_safe_moves_made.
Qed.

Lemma init_clean height width : clean (init (Cell:=C) height width).
Proof. intros s Hs. inversion Hs. Qed.
End propagate_facts.

Lemma exec_op_clean (fuel : nat) (o : op) (kb kb' : KB) :
  clean kb → exec_op fuel o kb = Some kb' → clean kb'.
Proof.
  intros Hkb. destruct o as [cell count|cell|cell|iter|r]; simpl.
  - intros (kbp&Hp&->)%add_knowledge_Some.
    apply subset_elimination_clean.
    eapply propagate_clean; [|exact Hp]. by apply add_sentence_clean.
  - intros [= <-]. by apply mark_mine_clean.
  - intros [= <-]. by apply mark_safe_clean.
  - by intros [= <-].
  - by intros [= <-].
Qed.

Lemma exec_clean (fuel : nat) (ops : list op) (kb kb' : KB) :
  clean kb → exec fuel ops kb = Some kb' → clean kb'.
Proof.
  revert kb. induction ops as [|o ops IH]; intros kb Hkb; simpl.
  - by intros [= <-].
  - destruct (exec_op fuel o kb) as [kb1|] eqn:E; simpl; [|done].
    apply IH. by eapply exec_op_clean.
Qed.

Lemma exec_op_grows (fuel : nat) (o : op) (kb kb' : KB) :
  exec_op fuel o kb = Some kb' → grows kb kb'.
Proof.
  destruct o as [cell count|cell|cell|iter|r]; simpl.
  - intros (kbp&Hp&->)%add_knowledge_Some.
    etrans; [apply add_sentence_grows|].
    etrans; [by eapply propagate_grows|apply subset_elimination_grows].
  - intros [= <-]. apply mark_mine_grows.
  - intros [= <-]. apply mark_safe_grows.
  - intros [= <-]. reflexivity.
  - intros [= <-]. reflexivity.
Qed.

Lemma exec_grows (fuel : nat) (ops : list op) (kb kb' : KB) :
  exec fuel ops kb = Some kb' → grows kb kb'.
Proof.
  revert kb. induction ops as [|o ops IH]; intros kb; simpl.
  - intros [= <-]. reflexivity.
  - destruct (exec_op fuel o kb) as [kb1|] eqn:E; simpl; [|done].
    intros Hex. etrans; [by eapply exec_op_grows|by apply IH].
Qed.

Lemma exec_op_sound (M : gset Cell) (fuel : nat) (o : op) (kb kb' : KB) :
  truthful M (height kb) (width kb) o → sound M kb →
  exec_op fuel o kb = Some kb' → sound M kb'.
Proof.
  intros Ho Hkb. destruct o as [cell count|cell|cell|iter|r]; simpl in *.
  - intros (kbp&Hp&->)%add_knowledge_Some. destruct Ho as [Hcell Hcount].
    apply subset_elimination_sound.
    eapply propagate_sound; [|exact Hp].
    apply add_sentence_sound; [done|done|exact Hcount].
  - intros [= <-]. by apply mark_mine_sound.
  - intros [= <-]. by apply mark_safe_sound.
  - by intros [= <-].
  - by intros [= <-].
Qed.

Lemma exec_sound (M : gset Cell) (fuel : nat) (ops : list op) (kb kb' : KB) :
  Forall (truthful M (height kb) (width kb)) ops → sound M kb →
  exec fuel ops kb = Some kb' → sound M kb'.
Proof.
  revert kb. induction ops as [|o ops IH]; intros kb Hops Hkb; simpl.
  - by intros [= <-].
  - destruct (exec_op fuel o kb) as [kb1|] eqn:E; simpl; [|done].
    inversion Hops as [|?? Ho Hops']; subst.
    destruct (exec_op_grows _ _ _ _ E) as (Eh&Ew&_).
    apply IH; [by rewrite Eh, Ew|by eapply exec_op_sound].
Qed.

(** Enough fuel lets any call return on a clean knowledge base, and more
    fuel gives the same result. *)
Lemma exec_op_fuel_mono (fuel fuel' : nat) (o : op) (kb kb' : KB) :
  exec_op fuel o kb = Some kb' → (fuel ≤ fuel')%nat →
  exec_op fuel' o kb = Some kb'.
Proof.
  destruct o as [cell count|cell|cell|iter|r]; simpl; try done.
  intros (kbp&Hp&->)%add_knowledge_Some Hle. apply add_knowledge_Some.
  exists kbp. split; [by eapply propagate_fuel_mono|done].
Qed.

Lemma exec_fuel_mono (fuel fuel' : nat) (ops : list op) (kb kb' : KB) :
  exec fuel ops kb = Some kb' → (fuel ≤ fuel')%nat →
  exec fuel' ops kb = Some kb'.
Proof.
  revert kb. induction ops as [|o ops IH]; intros kb; simpl; [done|].
  destruct (exec_op fuel o kb) as [kb1|] eqn:E; simpl; [|done].
  intros Hex Hle. rewrite (exec_op_fuel_mono _ _ _ _ _ E Hle). simpl.
  by apply IH.
Qed.

Lemma exec_op_total (o : op) (kb : KB) :
  clean kb → ∃ fuel kb', exec_op fuel o kb = Some kb'.
Proof.
  intros Hkb. destruct o as [cell count|cell|cell|iter|r]; simpl;
    try (by exists 0%nat; eexists).
  destruct (propagate_terminates
              (S (size (unresolved (add_sentence kb cell count))))
              (add_sentence kb cell count)) as [kbp Hp];
    [by apply add_sentence_clean|lia|].
  eexists _, _. apply add_knowledge_Some. by exists kbp.
Qed.

Lemma exec_total (ops : list op) (kb : KB) :
  clean kb → ∃ fuel kb', exec fuel ops kb = Some kb'.
Proof.
  revert kb. induction ops as [|o ops IH]; intros kb Hkb; simpl.
  - by exists 0%nat, kb.
  - destruct (exec_op_total o kb Hkb) as (fuel1&kb1&E1).
    destruct (IH kb1) as (fuel2&kb2&E2); [by eapply exec_op_clean|].
    exists (fuel1 `max` fuel2)%nat, kb2.
    rewrite (exec_op_fuel_mono fuel1 _ _ _ _ E1) by lia. simpl.
    apply (exec_fuel_mono fuel2); [done|lia].
Qed.

(** ** The random move *)

Lemma elem_of_range a b x : x ∈ range a b ↔ a ≤ x < b.
Proof. unfold range. rewrite elem_of_seqZ. lia. Qed.

(** The candidates are the board cells that are neither played nor known
    mines. *)
Lemma elem_of_possible_moves (kb : KB) (c : Cell) :
  c ∈ possible_moves kb ↔
  0 ≤ c.1 < height kb ∧ 0 ≤ c.2 < width kb ∧
  (c ∉ moves_made kb) ∧ (c ∉ mines kb).
Proof.
  unfold possible_moves. rewrite elem_of_flat_map. split.
  - intros (i&Hi%elem_of_range&(j&Hj%elem_of_range&Hc)%elem_of_flat_map).
    cbv zeta in Hc. destruct (_ && _) eqn:E; [|by apply elem_of_nil in Hc].
    apply list_elem_of_singleton in Hc as ->.
    apply andb_true_iff in E as [E1%bool_decide_eq_true E2%bool_decide_eq_true].
    done.
  - destruct c as [i j]. simpl. intros (Hi&Hj&Hp&Hm).
    exists i. split; [by apply elem_of_range|].
    apply elem_of_flat_map. exists j. split; [by apply elem_of_range|].
    cbv zeta. rewrite !bool_decide_eq_true_2 by done. simpl. by left.
Qed.

(** The cells of a grid, row by row: no repetition, and as many as rows
    times columns. *)
Lemma grid_NoDup_length (rows cols : list Z) :
  NoDup rows → NoDup cols →
  NoDup (flat_map (λ i, (λ j, (i, j)) <$> cols) rows) ∧
  length (flat_map (λ i, (λ j, (i, j)) <$> cols) rows)
    = (length rows * length cols)%nat.
Proof.
  intros Hrows Hcols. induction Hrows as [|i rows Hi Hrows [IH1 IH2]]; simpl.
  - split; [constructor|done].
  - split.
    + apply NoDup_app. split_and!; [|intros [i' j]|done].
      * assert (Inj (=) (=) (λ j : Z, (i, j))) by (by intros ?? [= ->]).
        by apply (NoDup_fmap_2 _).
      * intros (j'&[= -> ->]&_)%list_elem_of_fmap.
        intros (i'&Hi'&(?&[= -> ->]&_)%list_elem_of_fmap)%elem_of_flat_map.
        done.
    + rewrite length_app, length_fmap, IH2. lia.
Qed.

(** On a board with non-negative sides, when fewer cells are played or
    known mines than the board has, a candidate exists. *)
Lemma possible_moves_nonempty (kb : KB) :
  0 ≤ height kb → 0 ≤ width kb →
  Z.of_nat (size (moves_made kb)) + Z.of_nat (size (mines kb))
    < height kb * width kb →
  possible_moves kb ≠ [].
Proof.
  intros Hh Hw Hlt Hnil.
  destruct (grid_NoDup_length (range 0 (height kb)) (range 0 (width kb)))
    as [Hnd Hlen]; [apply NoDup_seqZ|apply NoDup_seqZ|].
  set (grid := flat_map _ _) in *.
  assert (list_to_set grid ⊆ moves_made kb ∪ mines kb) as Hsub.
  { intros [i j] (i'&Hi&(j'&[= -> ->]&Hj)%list_elem_of_fmap)
      %elem_of_list_to_set%elem_of_flat_map.
    apply elem_of_range in Hi, Hj.
    destruct (decide ((i', j') ∈ moves_made kb)); [set_solver|].
    destruct (decide ((i', j') ∈ mines kb)); [set_solver|].
    assert ((i', j') ∈ possible_moves kb) as Hin
      by (by apply elem_of_possible_moves).
    rewrite Hnil in Hin. by apply elem_of_nil in Hin. }
  apply subseteq_size in Hsub.
  rewrite size_list_to_set in Hsub by done.
  rewrite size_union_alt in Hsub.
  assert (size (mines kb ∖ moves_made kb) ≤ size (mines kb))%nat
    by (apply subseteq_size; set_solver).
  unfold range in Hlen. rewrite !length_seqZ in Hlen. nia.
Qed.

Lemma choice_elem_of {A} (r : nat) (l : list A) :
  l ≠ [] → ∃ x, choice r l = Returns x ∧ x ∈ l.
Proof.
  intros Hl. unfold choice.
  destruct (l !! (r `mod` length l)%nat) as [x|] eqn:E.
  - exists x. split; [done|]. by eapply list_elem_of_lookup_2.
  - apply lookup_ge_None in E.
    assert (length l ≠ 0)%nat by (by destruct l).
    pose proof (Nat.mod_upper_bound r (length l)). lia.
Qed.

(** * The claims *)

(** Proves the first conjunct, a closed equation [run = Some result], by
    evaluating both sides, and keeps it as [H]. *)
Ltac run_first H :=
  lazymatch goal with
  | |- (?run = Some ?result) ∧ _ =>
      assert (run = Some result) as H
        by (vm_compute; reflexivity);
      split; [exact H|]
  end.

(** C1, as stated, fails: [mark_mine] only looks at [mines] and
    [mark_safe] only at [safes], so marking one cell both ways records it
    in both sets. *)
Lemma C1_counterexample :
  ∃ kb : KB,
    exec 0 [MarkMine (0, 0); MarkSafe (0, 0)] (init 1 1) = Some kb ∧
    (0, 0) ∈ safes kb ∩ mines kb.
Proof.
  eexists. split; [reflexivity|].
  rewrite mark_safe_safes, mark_safe_mines, mark_mine_mines. set_solver.
Qed.

(** C1, amended: when every call of the sequence tells the truth about
    one mine layout [M] (marked mines are mines, marked safe cells and
    observed cells are not, observed counts are the number of mines among
    the in-bounds neighbours), [safes] and [mines] are disjoint after the
    sequence, hence after every call of it. *)
Theorem C1_safes_mines_disjoint_when_truthful
    (M : gset Cell) (h w : Z) (fuel : nat) (ops : list op) (kb : KB) :
  Forall (truthful M h w) ops →
  exec fuel ops (init h w) = Some kb →
  safes kb ∩ mines kb = ∅.
Proof.
  intros Hops Hex.
  assert (sound M kb) as (Hm&Hs&_).
  { eapply exec_sound; [exact Hops| |exact Hex].
    split_and!; simpl; [set_solver|set_solver|]. intros s Hs. inversion Hs. }
  set_solver.
Qed.

Lemma C1_witness :
  ∃ kb : KB,
    exec 3 [Observe (0, 0) 1; MarkMine (0, 1); Observe (0, 2) 1] (init 1 3)
      = Some kb ∧
    safes kb ∩ mines kb = ∅.
Proof.
  exists (default (init 1 3)
            (exec 3 [Observe (0, 0) 1; MarkMine (0, 1); Observe (0, 2) 1]
                  (init 1 3))).
  run_first Hex.
  apply (C1_safes_mines_disjoint_when_truthful {[(0, 1)]} 1 3 3
           [Observe (0, 0) 1; MarkMine (0, 1); Observe (0, 2) 1]);
    [|exact Hex].
  repeat constructor; vm_compute; congruence.
Defined.

(** C2: [known_mines] returns the cells when [len(cells) == count] and
    [count > 0] and the empty set otherwise; [known_safes] returns the
    cells when [count == 0] and the empty set otherwise.  (A set is a
    value here, so the result is a copy.) *)
Theorem C2_known_mines_known_safes `{Countable C} (s : Sentence.t C) :
  (Z.of_nat (size (Sentence.cells s)) = Sentence.count s ∧ Sentence.count s > 0 →
     Sentence.known_mines s = Sentence.cells s) ∧
  (¬ (Z.of_nat (size (Sentence.cells s)) = Sentence.count s ∧ Sentence.count s > 0) →
     Sentence.known_mines s = ∅) ∧
  (Sentence.count s = 0 → Sentence.known_safes s = Sentence.cells s) ∧
  (Sentence.count s ≠ 0 → Sentence.known_safes s = ∅).
Proof.
  unfold Sentence.known_mines, Sentence.known_safes. split_and!.
  - intros [E1 E2]. by rewrite !bool_decide_eq_true_2.
  - intros Hn. destruct (_ && _) eqn:E; [|done].
    apply andb_true_iff in E as [?%bool_decide_eq_true ?%bool_decide_eq_true].
    tauto.
  - intros E. by rewrite bool_decide_eq_true_2.
  - intros E. by rewrite bool_decide_eq_false_2.
Qed.

Lemma C2_witness :
  Sentence.known_mines (Sentence.init ({[1; 2]} : gset Z) 2) = {[1; 2]} ∧
  Sentence.known_mines (Sentence.init ({[1; 2]} : gset Z) 1) = ∅ ∧
  Sentence.known_safes (Sentence.init ({[1; 2]} : gset Z) 0) = {[1; 2]} ∧
  Sentence.known_safes (Sentence.init ({[1; 2]} : gset Z) 1) = ∅.
Proof.
  pose proof (C2_known_mines_known_safes (Sentence.init ({[1; 2]} : gset Z) 2))
    as (H2&_&_&_).
  pose proof (C2_known_mines_known_safes (Sentence.init ({[1; 2]} : gset Z) 1))
    as (_&H1&_&H1').
  pose proof (C2_known_mines_known_safes (Sentence.init ({[1; 2]} : gset Z) 0))
    as (_&_&H0&_).
  split_and!.
  - apply H2. vm_compute. split; reflexivity.
  - apply H1. vm_compute. intros [E _]. discriminate E.
  - apply H0. reflexivity.
  - apply H1'. simpl. lia.
Defined.

(** C3: [add_knowledge] ends with one pass of subset elimination over the
    knowledge base left by the propagation loop.  The pass appends, after
    the stored sentences, the derived ones: a sentence is derived exactly
    when it is the difference [sup - sub] (cells and counts) of two stored
    sentences at different positions with the cells of [sub] inside those
    of [sup], its cell set is not empty, and it equals no stored sentence.
    From [{1,2,3} = 1] and [{1,2,3,4} = 2] the pass derives [{4} = 1]. *)
Theorem C3_subset_elimination :
  (∀ (fuel : nat) (kb : KB) cell count,
     add_knowledge fuel kb cell count
       = subset_elimination <$> propagate fuel (add_sentence kb cell count)) ∧
  (∀ kb : KB,
     subset_elimination kb =
       Build (height kb) (width kb) (moves_made kb) (mines kb) (safes kb)
             (knowledge kb ++ new_inferences (knowledge kb)) ∧
     ∀ d, d ∈ new_inferences (knowledge kb) ↔
       ∃ i j sub sup,
         i ≠ j ∧ knowledge kb !! i = Some sub ∧ knowledge kb !! j = Some sup ∧
         Sentence.cells sub ⊆ Sentence.cells sup ∧
         d = Sentence.init (Sentence.cells sup ∖ Sentence.cells sub)
                           (Sentence.count sup - Sentence.count sub) ∧
         Sentence.cells d ≠ ∅ ∧ d ∉ knowledge kb) ∧
  new_inferences [Sentence.init ({[1; 2; 3]} : gset Z) 1;
                  Sentence.init {[1; 2; 3; 4]} 2]
    = [Sentence.init {[4]} 1].
Proof.
  split_and!.
  - intros fuel kb cell count. unfold add_knowledge.
    by destruct (propagate fuel (add_sentence kb cell count)).
  - intros kb. split; [done|]. intros d. apply elem_of_new_inferences.
  - vm_compute. reflexivity.
Qed.

(** C4, as stated, fails: nothing ever removes a stored sentence.  On a
    1x3 board, observing [(0,0)] with count 1 stores [{(0,1)} = 1]; the
    propagation loop marks [(0,1)] as a mine, and the sentence stays in the
    knowledge base as [{} = 0]. *)
Lemma C4_counterexample :
  ∃ kb : KB,
    add_knowledge 3 (init 1 3) (0, 0) 1 = Some kb ∧
    knowledge kb = [Sentence.init ∅ 0].
Proof. eexists. split; vm_compute; reflexivity. Qed.

(** C4, amended: no call removes a stored sentence.  After a call the
    knowledge base holds at its first positions the sentences stored
    before, each with the same or fewer cells (possibly none), so it never
    gets shorter.  Only [add_knowledge] appends: step 2 appends, after the
    stored sentences, at most one sentence, and it has cells when it is
    appended; the propagation loop then narrows the sentences in place; and
    step 4 appends the sentences of [new_inferences], each of which has
    cells when it is appended. *)
Theorem C4_appended_nonempty_never_dropped
    (fuel : nat) (o : op) (kb kb' : KB) :
  exec_op fuel o kb = Some kb' →
  (length (knowledge kb) ≤ length (knowledge kb'))%nat ∧
  narrows (knowledge kb) (take (length (knowledge kb)) (knowledge kb')) ∧
  match o with
  | Observe cell count =>
      ∃ kbp : KB,
        propagate fuel (add_sentence kb cell count) = Some kbp ∧
        narrows (knowledge kb)
          (take (length (knowledge kb))
                (knowledge (add_sentence kb cell count))) ∧
        (length (drop (length (knowledge kb))
                   (knowledge (add_sentence kb cell count))) ≤ 1)%nat ∧
        (∀ s, s ∈ drop (length (knowledge kb))
                    (knowledge (add_sentence kb cell count)) →
              Sentence.cells s ≠ ∅) ∧
        narrows (knowledge (add_sentence kb cell count)) (knowledge kbp) ∧
        knowledge kb' = knowledge kbp ++ new_inferences (knowledge kbp) ∧
        (∀ s, s ∈ new_inferences (knowledge kbp) → Sentence.cells s ≠ ∅)
  | _ => length (knowledge kb') = length (knowledge kb)
  end.
Proof.
  destruct o as [cell count|cell|cell|iter|r]; simpl.
  - intros (kbp&Hp&->)%add_knowledge_Some.
    pose proof (propagate_narrows _ _ _ Hp) as Hn.
    destruct (add_sentence_appends kb cell count) as (Hn1&Hle&Hne).
    pose proof (narrows_length _ _ Hn) as Hlen.
    pose proof (narrows_length _ _ Hn1) as Hlen1.
    rewrite length_take in Hlen1.
    assert (length (knowledge kb) ≤ length (knowledge kbp))%nat by lia.
    simpl. split_and!.
    + rewrite length_app. lia.
    + rewrite take_app_le by done.
      etrans; [exact Hn1|]. by apply Forall2_take.
    + exists kbp. split_and!; try done.
      intros s Hs. by eapply new_inferences_nonempty.
  - intros [= <-].
    pose proof (mark_mine_narrows cell kb) as Hn.
    pose proof (narrows_length _ _ Hn) as Hlen.
    rewrite Hlen, firstn_all. split_and!; [lia|done|done].
  - intros [= <-].
    pose proof (mark_safe_narrows cell kb) as Hn.
    pose proof (narrows_length _ _ Hn) as Hlen.
    rewrite Hlen, firstn_all. split_and!; [lia|done|done].
  - intros [= <-]. rewrite firstn_all. split_and!; [lia|reflexivity|done].
  - intros [= <-]. rewrite firstn_all. split_and!; [lia|reflexivity|done].
Qed.

(** On a 3x3 board, after [(0,0)] was observed with count 1, observing
    [(0,1)] with count 1 narrows the stored sentence to
    [{(1,0),(1,1)} = 1], appends [{(0,2),(1,0),(1,1),(1,2)} = 1] in step 2
    and the derived [{(0,2),(1,2)} = 0] in step 4. *)
Lemma C4_witness :
  ∃ kb kb' kbp : KB,
    exec 3 [Observe (0, 0) 1] (init 3 3) = Some kb ∧
    exec_op 3 (Observe (0, 1) 1) kb = Some kb' ∧
    propagate 3 (add_sentence kb (0, 1) 1) = Some kbp ∧
    knowledge kb = [Sentence.init {[(0, 1); (1, 0); (1, 1)]} 1] ∧
    drop (length (knowledge kb)) (knowledge (add_sentence kb (0, 1) 1))
      = [Sentence.init {[(0, 2); (1, 0); (1, 1); (1, 2)]} 1] ∧
    new_inferences (knowledge kbp) = [Sentence.init {[(0, 2); (1, 2)]} 0] ∧
    (length (knowledge kb) ≤ length (knowledge kb'))%nat ∧
    narrows (knowledge kb) (take (length (knowledge kb)) (knowledge kb')) ∧
    (∀ s, s ∈ drop (length (knowledge kb))
                (knowledge (add_sentence kb (0, 1) 1)) →
          Sentence.cells s ≠ ∅) ∧
    knowledge kb' = knowledge kbp ++ new_inferences (knowledge kbp) ∧
    (∀ s, s ∈ new_inferences (knowledge kbp) → Sentence.cells s ≠ ∅).
Proof.
  pose (kb := default (init 3 3) (exec 3 [Observe (0, 0) 1] (init 3 3))).
  exists kb, (default kb (exec_op 3 (Observe (0, 1) 1) kb)),
         (default kb (propagate 3 (add_sentence kb (0, 1) 1))).
  subst kb.
  match goal with
  | |- ?A ∧ ?B ∧ ?C ∧ ?D ∧ ?E ∧ ?F ∧ _ =>
      assert A as Hkb by (vm_compute; reflexivity);
      assert B as Hex by (vm_compute; reflexivity);
      assert C as Hprop by (vm_compute; reflexivity);
      assert D as Hold by (vm_compute; reflexivity);
      assert E as Hnew by (vm_compute; reflexivity);
      assert F as Hder by (vm_compute; reflexivity)
  end.
  split; [exact Hkb|]. split; [exact Hex|]. split; [exact Hprop|].
  split; [exact Hold|]. split; [exact Hnew|]. split; [exact Hder|].
  destruct (C4_appended_nonempty_never_dropped _ _ _ _ Hex)
    as (Hlen&Hnar&kbp&Hp&_&_&Hne&_&Hk&Hne').
  pose proof (eq_trans (eq_sym Hp) Hprop) as E. apply (inj Some) in E.
  subst kbp.
  split; [exact Hlen|]. split; [exact Hnar|]. split; [exact Hne|].
  split; [exact Hk|exact Hne'].
Defined.

(** C5, as stated, fails: the new sentence of an observation is appended
    without looking for an equal stored sentence.  On a 2x3 board whose
    mine is at [(0,1)], observing [(0,0)] and then [(1,0)], each with
    count 1, stores [{(0,1),(1,1)} = 1] twice. *)
Lemma C5_counterexample :
  ∃ kb : KB,
    exec 3 [Observe (0, 0) 1; Observe (1, 0) 1] (init 2 3) = Some kb ∧
    knowledge kb = [Sentence.init {[(0, 1); (1, 1)]} 1;
                    Sentence.init {[(0, 1); (1, 1)]} 1] ∧
    ¬ NoDup (knowledge kb).
Proof.
  eexists. split; [vm_compute; reflexivity|]. split; [vm_compute; reflexivity|].
  intros Hnd. apply NoDup_cons in Hnd as [Hnotin _]. apply Hnotin. by left.
Qed.

(** C5, amended: the sentences [add_knowledge] appends by subset
    elimination are those of [new_inferences], and none of them is
    structurally equal to a sentence stored when the elimination runs. *)
Theorem C5_derived_not_stored
    (fuel : nat) (kb : KB) (cell : Cell) (count : Z) (kb' : KB) :
  add_knowledge fuel kb cell count = Some kb' →
  ∃ kbp,
    propagate fuel (add_sentence kb cell count) = Some kbp ∧
    knowledge kb' = knowledge kbp ++ new_inferences (knowledge kbp) ∧
    ∀ d, d ∈ new_inferences (knowledge kbp) → d ∉ knowledge kbp.
Proof.
  intros (kbp&Hp&->)%add_knowledge_Some. exists kbp.
  split_and!; [done|done|]. intros d. apply new_inferences_fresh.
Qed.

(** On a 3x3 board with mines at [(1,0)] and [(1,2)], after [(0,0)] and
    [(0,1)] were observed the knowledge base stores
    [{(1,0),(1,1)} = 1], [{(0,2),(1,0),(1,1),(1,2)} = 2] and their
    difference [{(0,2),(1,2)} = 1].  Observing [(2,0)] appends
    [{(1,0),(1,1),(2,1)} = 1]; the elimination derives the stored
    difference again, and the first stored sentence as the difference of
    the other two, and appends neither; it appends [{(2,1)} = 0]. *)
Lemma C5_witness :
  ∃ kb kb' kbp : KB,
    exec 3 [Observe (0, 0) 1; Observe (0, 1) 2] (init 3 3) = Some kb ∧
    add_knowledge 3 kb (2, 0) 1 = Some kb' ∧
    propagate 3 (add_sentence kb (2, 0) 1) = Some kbp ∧
    knowledge kbp = [Sentence.init {[(1, 0); (1, 1)]} 1;
                     Sentence.init {[(0, 2); (1, 0); (1, 1); (1, 2)]} 2;
                     Sentence.init {[(0, 2); (1, 2)]} 1;
                     Sentence.init {[(1, 0); (1, 1); (2, 1)]} 1] ∧
    difference_of (Sentence.init {[(1, 0); (1, 1)]} 1)
                  (Sentence.init {[(0, 2); (1, 0); (1, 1); (1, 2)]} 2)
      = Sentence.init ({[(0, 2); (1, 2)]} : gset Cell) 1 ∧
    new_inferences (knowledge kbp) = [Sentence.init {[(2, 1)]} 0] ∧
    knowledge kb' = knowledge kbp ++ new_inferences (knowledge kbp) ∧
    ∀ d, d ∈ new_inferences (knowledge kbp) → d ∉ knowledge kbp.
Proof.
  pose (kb := default (init 3 3)
                (exec 3 [Observe (0, 0) 1; Observe (0, 1) 2] (init 3 3))).
  exists kb, (default kb (add_knowledge 3 kb (2, 0) 1)),
         (default kb (propagate 3 (add_sentence kb (2, 0) 1))).
  subst kb.
  match goal with
  | |- ?A ∧ ?B ∧ ?C ∧ ?D ∧ ?E ∧ ?F ∧ _ =>
      assert A as Hkb by (vm_compute; reflexivity);
      assert B as Hex by (vm_compute; reflexivity);
      assert C as Hprop by (vm_compute; reflexivity);
      assert D as Hstored by (vm_compute; reflexivity);
      assert E as Hdiff by (vm_compute; reflexivity);
      assert F as Hder by (vm_compute; reflexivity)
  end.
  split; [exact Hkb|]. split; [exact Hex|]. split; [exact Hprop|].
  split; [exact Hstored|]. split; [exact Hdiff|]. split; [exact Hder|].
  destruct (C5_derived_not_stored _ _ _ _ _ Hex) as (kbp&Hp&Hk&Hd).
  pose proof (eq_trans (eq_sym Hp) Hprop) as E. apply (inj Some) in E.
  subst kbp.
  split; [exact Hk|exact Hd].
Defined.

(** C6: the propagation loop ends on every knowledge base in which no
    stored sentence mentions a known mine or a known safe cell: within one
    scan more than there are unresolved cells it reaches a scan that marks
    nothing, after which no stored sentence yields known mines or known
    safes.  Every sequence of calls from a fresh knowledge base runs to
    its end, when each loop may take enough scans, and reaches such a
    knowledge base, in which a further [add_knowledge] starts its loop on
    such a knowledge base again and returns. *)
Theorem C6_propagation_terminates :
  (∀ kb : KB, clean kb →
     ∃ (n : nat) (kb' : KB),
       (n ≤ S (size (unresolved kb)))%nat ∧
       (∀ m, (n ≤ m)%nat → propagate m kb = Some kb') ∧
       scan kb' = (kb', false) ∧
       ∀ s, s ∈ knowledge kb' →
         Sentence.known_mines s = ∅ ∧ Sentence.known_safes s = ∅) ∧
  (∀ (h w : Z) (ops : list op),
     ∃ (fuel : nat) (kb : KB),
       (∀ fuel', (fuel ≤ fuel')%nat → exec fuel' ops (init h w) = Some kb) ∧
       clean kb ∧
       ∀ (cell : Cell) (count : Z),
         clean (add_sentence kb cell count) ∧
         ∃ (n : nat) (kb' : KB),
           (n ≤ S (size (unresolved (add_sentence kb cell count))))%nat ∧
           ∀ m, (n ≤ m)%nat →
             propagate m (add_sentence kb cell count) = Some kb' ∧
             add_knowledge m kb cell count = Some (subset_elimination kb')).
Proof.
  assert (∀ kb : KB, clean kb →
     ∃ (n : nat) (kb' : KB),
       (n ≤ S (size (unresolved kb)))%nat ∧
       (∀ m, (n ≤ m)%nat → propagate m kb = Some kb') ∧
       scan kb' = (kb', false) ∧
       ∀ s, s ∈ knowledge kb' →
         Sentence.known_mines s = ∅ ∧ Sentence.known_safes s = ∅) as Hloop.
  { intros kb Hkb.
    destruct (propagate_terminates (S (size (unresolved kb))) kb)
      as [kb' Hp]; [done|lia|].
    exists (S (size (unresolved kb))), kb'.
    pose proof (propagate_fixpoint _ _ _ Hp) as Hfix.
    split_and!; [done| |done|].
    - intros m Hm. by apply (propagate_fuel_mono _ m _ _ Hp).
    - apply scan_false. by rewrite Hfix. }
  split; [exact Hloop|]. intros h w ops.
  destruct (exec_total ops (init h w)) as (fuel&kb&Hex); [apply init_clean|].
  exists fuel, kb. split; [intros fuel'; by apply exec_fuel_mono|].
  assert (clean kb) as Hkb by (eapply exec_clean; [apply init_clean|exact Hex]).
  split; [done|]. intros cell count.
  pose proof (add_sentence_clean kb cell count Hkb) as Hkb1.
  split; [done|].
  destruct (Hloop _ Hkb1) as (n&kb'&Hn&Hm&_). exists n, kb'.
  split; [done|]. intros m Hle. split; [by apply Hm|].
  apply add_knowledge_Some. exists kb'. split; [by apply Hm|done].
Qed.

(** C7, as stated, fails: when the size check passes and the loops find
    no candidate, [make_random_move] returns [None]; it does not raise.
    A knowledge base built with [height = -1] and [width = -1] has
    [total_cells = 1] and empty ranges. *)
Lemma C7_counterexample :
  ¬ (Z.of_nat (size (moves_made (init (Cell:=Cell) (-1) (-1))))
     + Z.of_nat (size (mines (init (Cell:=Cell) (-1) (-1))))
     >= height (init (Cell:=Cell) (-1) (-1)) * width (init (Cell:=Cell) (-1) (-1))) ∧
  possible_moves (init (-1) (-1)) = [] ∧
  make_random_move 0 (init (-1) (-1)) = Returns None ∧
  ¬ ∃ e, make_random_move 0 (init (-1) (-1)) = Raises e.
Proof.
  split_and!; [by vm_compute|reflexivity|reflexivity|].
  intros [e He]. vm_compute in He. discriminate He.
Qed.

(** C7, amended: [make_random_move] returns [None] when
    [len(moves_made) + len(mines) >= height * width]; when that check
    passes and no board cell outside [moves_made] and [mines] exists it
    returns [None] as well; otherwise it returns a board cell that is
    neither played nor a known mine.  It never raises.  On a board with
    non-negative sides the middle case does not arise. *)
Theorem C7_make_random_move (r : nat) (kb : KB) :
  (Z.of_nat (size (moves_made kb)) + Z.of_nat (size (mines kb))
     >= height kb * width kb →
   make_random_move r kb = Returns None) ∧
  (¬ (Z.of_nat (size (moves_made kb)) + Z.of_nat (size (mines kb))
        >= height kb * width kb) →
   (possible_moves kb = [] → make_random_move r kb = Returns None) ∧
   (possible_moves kb ≠ [] →
      ∃ c, make_random_move r kb = Returns (Some c) ∧
           0 ≤ c.1 < height kb ∧ 0 ≤ c.2 < width kb ∧
           (c ∉ moves_made kb) ∧ (c ∉ mines kb)) ∧
   (0 ≤ height kb → 0 ≤ width kb → possible_moves kb ≠ [])) ∧
  (∀ e, make_random_move r kb ≠ Raises e).
Proof.
  unfold make_random_move. cbv zeta. split_and!.
  - intros Hge. by rewrite bool_decide_eq_true_2.
  - intros Hlt. rewrite bool_decide_eq_false_2 by done. split_and!.
    + by intros ->.
    + intros Hne. destruct (choice_elem_of r _ Hne) as (c&Hc&Hin).
      exists c. rewrite Hc. split; [by destruct (possible_moves kb)|].
      by apply elem_of_possible_moves.
    + intros Hh Hw. apply possible_moves_nonempty; [done|done|lia].
  - intros e. case_bool_decide; [done|].
    destruct (possible_moves kb) as [|c l] eqn:E; [done|].
    destruct (choice_elem_of r (c :: l)) as (x&Hx&_); [done|].
    by rewrite Hx.
Qed.

Lemma C7_witness :
  make_random_move 0 (init 0 3) = Returns None ∧
  ∃ c : Cell,
    make_random_move 4 (init 2 3) = Returns (Some c) ∧
    0 ≤ c.1 < 2 ∧ 0 ≤ c.2 < 3 ∧
    (c ∉ moves_made (init (Cell:=Cell) 2 3)) ∧ (c ∉ mines (init (Cell:=Cell) 2 3)).
Proof.
  destruct (C7_make_random_move 0 (init 0 3)) as (Hfull&_&_).
  destruct (C7_make_random_move 4 (init 2 3)) as (_&Hpass&_).
  split.
  - apply Hfull. by vm_compute.
  - destruct Hpass as (_&Hsome&_); [by vm_compute|].
    apply Hsome. vm_compute. discriminate.
Defined.

(** C8: in a knowledge base reached from a fresh one by any sequence of
    calls, the cells of every stored sentence are disjoint from [safes]
    and from [mines]; and when the propagation loop of a further
    [add_knowledge] has ended, this holds of the knowledge base the loop
    leaves. *)
Theorem C8_sentences_disjoint_after_propagation
    (h w : Z) (fuel : nat) (ops : list op) (kb : KB) :
  exec fuel ops (init h w) = Some kb →
  (∀ s, s ∈ knowledge kb →
     Sentence.cells s ## safes kb ∧ Sentence.cells s ## mines kb) ∧
  ∀ (cell : Cell) (count : Z) (fuel' : nat) (kbp : KB),
    propagate fuel' (add_sentence kb cell count) = Some kbp →
    ∀ s, s ∈ knowledge kbp →
      Sentence.cells s ## safes kbp ∧ Sentence.cells s ## mines kbp.
Proof.
  intros Hex.
  assert (clean kb) as Hkb by (eapply exec_clean; [apply init_clean|exact Hex]).
  split.
  - intros s Hs. destruct (Hkb s Hs). done.
  - intros cell count fuel' kbp Hp s Hs.
    assert (clean kbp) as Hkbp.
    { eapply propagate_clean; [|exact Hp]. by apply add_sentence_clean. }
    destruct (Hkbp s Hs). done.
Qed.

Lemma C8_witness :
  ∃ kb kbp : KB,
    exec 3 [Observe (0, 0) 1; MarkMine (1, 1)] (init 2 3) = Some kb ∧
    propagate 3 (add_sentence kb (1, 0) 1) = Some kbp ∧
    ∀ s, s ∈ knowledge kbp →
      Sentence.cells s ## safes kbp ∧ Sentence.cells s ## mines kbp.
Proof.
  pose (kb := default (init 2 3)
                (exec 3 [Observe (0, 0) 1; MarkMine (1, 1)] (init 2 3))).
  exists kb, (default kb (propagate 3 (add_sentence kb (1, 0) 1))).
  subst kb. run_first Hex. run_first Hp.
  destruct (C8_sentences_disjoint_after_propagation 2 3 3 _ _ Hex) as [_ Hafter].
  exact (Hafter (1, 0) 1 3%nat _ Hp).
Defined.

(** C9: across any sequence of calls (observations, marks, move
    selections), [mines], [safes] and [moves_made] only grow: every cell
    recorded before is recorded after, and the three sizes do not
    decrease. *)
Theorem C9_sets_only_grow (fuel : nat) (ops : list op) (kb kb' : KB) :
  exec fuel ops kb = Some kb' →
  mines kb ⊆ mines kb' ∧ safes kb ⊆ safes kb' ∧
  moves_made kb ⊆ moves_made kb' ∧
  (size (mines kb) ≤ size (mines kb'))%nat ∧
  (size (safes kb) ≤ size (safes kb'))%nat ∧
  (size (moves_made kb) ≤ size (moves_made kb'))%nat.
Proof.
  intros (_&_&Hmv&Hm&Hs)%exec_grows.
  split_and!; try done; by apply subseteq_size.
Qed.

Lemma C9_witness :
  ∃ kb kb' : KB,
    exec 3 [Observe (0, 0) 1] (init 1 3) = Some kb ∧
    exec 3 [SafeMove elements; MarkSafe (0, 1); RandomMove 0; Observe (0, 2) 1] kb
      = Some kb' ∧
    mines kb ⊆ mines kb' ∧ safes kb ⊆ safes kb' ∧
    moves_made kb ⊆ moves_made kb' ∧
    (size (mines kb) ≤ size (mines kb'))%nat ∧
    (size (safes kb) ≤ size (safes kb'))%nat ∧
    (size (moves_made kb) ≤ size (moves_made kb'))%nat.
Proof.
  pose (kb := default (init 1 3) (exec 3 [Observe (0, 0) 1] (init 1 3))).
  exists kb, (default kb
    (exec 3 [SafeMove elements; MarkSafe (0, 1); RandomMove 0; Observe (0, 2) 1] kb)).
  subst kb. run_first Hex0. run_first Hex.
  exact (C9_sets_only_grow _ _ _ _ Hex).
Defined.

(** C10: after any sequence of calls from a fresh knowledge base,
    [moves_made] is inside [safes]; and [add_knowledge] records the
    observed cell in both, whatever was known about it before, also when
    it was marked as a mine. *)
Theorem C10_moves_made_subset_safes
    (h w : Z) (fuel : nat) (ops : list op) (kb : KB) :
  exec fuel ops (init h w) = Some kb →
  moves_made kb ⊆ safes kb ∧
  ∀ (fuel' : nat) (cell : Cell) (count : Z) (kb' : KB),
    add_knowledge fuel' kb cell count = Some kb' →
    cell ∈ moves_made kb' ∧ cell ∈ safes kb' ∧ moves_made kb' ⊆ safes kb'.
Proof.
  assert (∀ (f : nat) (o : op) (kb1 kb2 : KB),
            exec_op f o kb1 = Some kb2 →
            moves_made kb1 ⊆ safes kb1 → moves_made kb2 ⊆ safes kb2) as Hop.
  { intros f o kb1 kb2. destruct o as [cell count|cell|cell|iter|r]; simpl.
    - intros (kbp&Hp&->)%add_knowledge_Some Hsub. simpl.
      rewrite (propagate_moves_made _ _ _ Hp).
      destruct (propagate_grows _ _ _ Hp) as (_&_&_&_&Hs).
      destruct (add_sentence_records kb1 cell count) as (Em&Es&_).
      rewrite Em. rewrite Es in Hs. set_solver.
    - intros [= <-]. by rewrite mark_mine_moves_made, mark_mine_safes.
    - intros [= <-]. rewrite mark_safe_moves_made, mark_safe_safes. set_solver.
    - by intros [= <-].
    - by intros [= <-]. }
  assert (∀ (f : nat) (l : list op) (kb1 kb2 : KB),
            exec f l kb1 = Some kb2 →
            moves_made kb1 ⊆ safes kb1 → moves_made kb2 ⊆ safes kb2) as Hops.
  { intros f l. induction l as [|o l IH]; intros kb1 kb2; simpl.
    - by intros [= <-].
    - destruct (exec_op f o kb1) as [kb3|] eqn:E; simpl; [|done].
      intros Hex Hsub. apply (IH kb3); [done|]. by eapply Hop. }
  intros Hex.
  assert (moves_made kb ⊆ safes kb) as Hkb.
  { apply (Hops _ _ _ _ Hex). simpl. set_solver. }
  split; [done|]. intros fuel' cell count kb' Hadd.
  pose proof (Hop fuel' (Observe cell count) kb kb' Hadd Hkb) as Hkb'.
  apply add_knowledge_Some in Hadd as (kbp&Hp&->). simpl.
  rewrite (propagate_moves_made _ _ _ Hp).
  destruct (propagate_grows _ _ _ Hp) as (_&_&_&_&Hs).
  destruct (add_sentence_records kb cell count) as (Em&Es&_).
  simpl in Hkb'. rewrite (propagate_moves_made _ _ _ Hp) in Hkb'.
  rewrite Em in *. rewrite Es in Hs. set_solver.
Qed.

Lemma C10_witness :
  ∃ kb kb' : KB,
    exec 3 [MarkMine (0, 0); Observe (0, 1) 1] (init 1 3) = Some kb ∧
    add_knowledge 3 kb (0, 0) 0 = Some kb' ∧
    (0, 0) ∈ mines kb ∧
    moves_made kb ⊆ safes kb ∧
    (0, 0) ∈ moves_made kb' ∧ (0, 0) ∈ safes kb' ∧ moves_made kb' ⊆ safes kb'.
Proof.
  pose (kb := default (init 1 3)
                (exec 3 [MarkMine (0, 0); Observe (0, 1) 1] (init 1 3))).
  exists kb, (default kb (add_knowledge 3 kb (0, 0) 0)).
  subst kb. run_first Hex. run_first Hadd.
  destruct (C10_moves_made_subset_safes 1 3 3 _ _ Hex) as [Hsub Hobs].
  split; [by vm_compute|]. split; [exact Hsub|].
  exact (Hobs 3%nat (0, 0) 0 _ Hadd).
Defined.

(** * Further properties of the code *)

(** ** Python list indexing *)

Lemma getitem_nonneg {A} (l : list A) (i : Z) :
  0 ≤ i →
  getitem l i = match l !! Z.to_nat i with
                | Some x => Returns x
                | None => Raises IndexError
                end.
Proof.
  intros Hi. unfold getitem. cbv zeta.
  rewrite (bool_decide_eq_false_2 (i < 0)) by lia.
  case_bool_decide as Hlt; [done|].
  rewrite lookup_ge_None_2 by lia. done.
Qed.

Lemma getitem_lookup {A} (l : list A) (i : Z) (x : A) :
  0 ≤ i → l !! Z.to_nat i = Some x → getitem l i = Returns x.
Proof. intros Hi Hx. by rewrite getitem_nonneg, Hx. Qed.

Lemma getitem_negative {A} (l : list A) (i : Z) :
  i < 0 →
  getitem l i = if bool_decide (- Z.of_nat (length l) ≤ i)
                then getitem l (i + Z.of_nat (length l))
                else Raises IndexError.
Proof.
  intros Hi. unfold getitem. cbv zeta.
  rewrite (bool_decide_eq_true_2 (i < 0)) by done.
  destruct (decide (- Z.of_nat (length l) ≤ i)) as [Hge|Hlt].
  - rewrite (bool_decide_eq_true_2 (- _ ≤ i)) by done.
    by rewrite (bool_decide_eq_false_2 (i + _ < 0)) by lia.
  - rewrite (bool_decide_eq_false_2 (- _ ≤ i)) by done.
    by rewrite (bool_decide_eq_false_2 (0 ≤ _ < _)) by lia.
Qed.

Lemma getitem_out_of_range {A} (l : list A) (i : Z) :
  i < - Z.of_nat (length l) ∨ Z.of_nat (length l) ≤ i →
  getitem l i = Raises IndexError.
Proof.
  intros Hi. unfold getitem. cbv zeta.
  destruct (bool_decide (i < 0)) eqn:E;
    [apply bool_decide_eq_true in E|apply bool_decide_eq_false in E];
    by rewrite (bool_decide_eq_false_2 (0 ≤ _ < _)) by lia.
Qed.

Lemma setitem_in_range {A} (l : list A) (i : Z) (x : A) :
  0 ≤ i < Z.of_nat (length l) →
  setitem l i x = Returns (<[Z.to_nat i := x]> l).
Proof.
  intros Hi. unfold setitem. cbv zeta.
  rewrite (bool_decide_eq_false_2 (i < 0)) by lia.
  by rewrite bool_decide_eq_true_2 by lia.
Qed.

(** ** The game board *)

Section game_facts.
Implicit Types (g : Minesweeper.t) (cell ij : Cell).

Lemma length_range a b : length (range a b) = Z.to_nat (b - a).
Proof. unfold range. apply length_seqZ. Qed.

Lemma empty_board_wf (h w : Z) :
  Minesweeper.wf (Minesweeper.Build h w ∅ (Minesweeper.empty_board h w) ∅).
Proof.
  unfold Minesweeper.wf, Minesweeper.empty_board. simpl. split_and!.
  - rewrite length_map, length_range. f_equal. lia.
  - apply Forall_forall. intros row (i&->&_)%list_elem_of_fmap.
    rewrite length_map, length_range. f_equal. lia.
  - intros i j row Hi Hj Hrow.
    apply list_elem_of_lookup_2 in Hrow as (?&->&_)%list_elem_of_fmap.
    rewrite bool_decide_eq_false_2 by set_solver.
    apply list_lookup_fmap_Some. exists j. split; [done|].
    unfold range. apply lookup_seqZ. lia.
  - set_solver.
Qed.

(** Reading an entry of a well-formed board at a cell of the board. *)
Lemma wf_entry g ij :
  Minesweeper.wf g →
  0 ≤ ij.1 < Minesweeper.height g → 0 ≤ ij.2 < Minesweeper.width g →
  ∃ row, Minesweeper.board g !! Z.to_nat ij.1 = Some row ∧
         length row = Z.to_nat (Minesweeper.width g) ∧
         row !! Z.to_nat ij.2 = Some (bool_decide (ij ∈ Minesweeper.mines g)).
Proof.
  intros (Hlen&Hrows&Hentry&_) Hi Hj. destruct ij as [i j]. simpl in *.
  destruct (lookup_lt_is_Some_2 (Minesweeper.board g) (Z.to_nat i))
    as [row Hrow]; [lia|].
  exists row. split; [done|]. split.
  - eapply Forall_forall in Hrows; [exact Hrows|].
    by eapply list_elem_of_lookup_2.
  - by apply Hentry.
Qed.

Lemma wf_read g ij :
  Minesweeper.wf g →
  0 ≤ ij.1 < Minesweeper.height g → 0 ≤ ij.2 < Minesweeper.width g →
  (row ← getitem (Minesweeper.board g) ij.1; getitem row ij.2)
  = Returns (bool_decide (ij ∈ Minesweeper.mines g)).
Proof.
  intros Hg Hi Hj. destruct (wf_entry g ij Hg Hi Hj) as (row&Hrow&_&Hb).
  rewrite (getitem_lookup _ _ _ (proj1 Hi) Hrow). simpl.
  by rewrite (getitem_lookup _ _ _ (proj1 Hj) Hb).
Qed.
End game_facts.

(** ** Building the game *)

Section init_facts.
Implicit Types (g : Minesweeper.t) (cell ij : Cell).

Lemma randrange_Some n r i :
  Minesweeper.randrange n r = Some i → 0 ≤ i < n.
Proof.
  unfold Minesweeper.randrange. case_bool_decide; [done|].
  intros [= <-]. apply Z.mod_pos_bound. lia.
Qed.

(** Setting the entry of a free board cell keeps the game well formed. *)
Lemma place_step_wf g i j :
  Minesweeper.wf g →
  0 ≤ i < Minesweeper.height g → 0 ≤ j < Minesweeper.width g →
  (i, j) ∉ Minesweeper.mines g →
  ∃ board',
    (row ← getitem (Minesweeper.board g) i;
     row' ← setitem row j true;
     setitem (Minesweeper.board g) i row') = Returns board' ∧
    Minesweeper.wf
      (Minesweeper.Build (Minesweeper.height g) (Minesweeper.width g)
         ({[(i, j)]} ∪ Minesweeper.mines g) board' (Minesweeper.mines_found g)).
Proof.
  intros Hg Hi Hj Hfree.
  destruct (wf_entry g (i, j) Hg Hi Hj) as (row&Hrow&Hlenrow&_).
  destruct Hg as (Hlen&Hrows&Hentry&Hmines). simpl in *.
  exists (<[Z.to_nat i := <[Z.to_nat j := true]> row]> (Minesweeper.board g)).
  split.
  - rewrite (getitem_lookup _ _ _ (proj1 Hi) Hrow). simpl.
    rewrite setitem_in_range by lia. simpl.
    by rewrite setitem_in_range by lia.
  - unfold Minesweeper.wf. simpl. split_and!.
    + by rewrite length_insert.
    + apply Forall_insert; [done|]. by rewrite length_insert.
    + intros i2 j2 row2 Hi2 Hj2 Hrow2.
      destruct (decide (i2 = i)) as [->|Hne].
      * rewrite list_lookup_insert_eq in Hrow2 by lia.
        injection Hrow2 as <-.
        destruct (decide (j2 = j)) as [->|Hnej].
        -- rewrite list_lookup_insert_eq by lia.
           by rewrite bool_decide_eq_true_2 by set_solver.
        -- rewrite list_lookup_insert_ne by lia.
           rewrite (Hentry i j2 row Hi2 Hj2 Hrow). f_equal.
           apply bool_decide_ext. set_solver.
      * rewrite list_lookup_insert_ne in Hrow2 by lia.
        rewrite (Hentry i2 j2 row2 Hi2 Hj2 Hrow2). f_equal.
        apply bool_decide_ext. set_solver.
    + intros c [->%elem_of_singleton|Hc]%elem_of_union; [done|by apply Hmines].
Qed.

(** What the placement loop can end with. *)
Lemma place_mines_spec draws target g :
  Minesweeper.wf g →
  match Minesweeper.place_mines draws target g with
  | Minesweeper.Built g' =>
      Minesweeper.wf g' ∧
      Z.of_nat (size (Minesweeper.mines g')) = target ∧
      Minesweeper.height g' = Minesweeper.height g ∧
      Minesweeper.width g' = Minesweeper.width g ∧
      Minesweeper.mines_found g' = Minesweeper.mines_found g
  | Minesweeper.ValueError =>
      Z.of_nat (size (Minesweeper.mines g)) ≠ target ∧
      (Minesweeper.height g ≤ 0 ∨ Minesweeper.width g ≤ 0)
  | Minesweeper.IndexErr => False
  | Minesweeper.Pending => True
  end.
Proof.
  revert g. induction draws as [|[r1 r2] draws IH]; intros g Hg; simpl.
  - case_bool_decide as Hm; [done|]. by split_and!.
  - case_bool_decide as Hm; [|by split_and!].
    unfold Minesweeper.randrange at 1.
    case_bool_decide as Hh; [by split; [|left]|].
    unfold Minesweeper.randrange at 1.
    case_bool_decide as Hw; [by split; [|right]|].
    set (i := Z.of_nat r1 `mod` Minesweeper.height g).
    set (j := Z.of_nat r2 `mod` Minesweeper.width g).
    assert (0 ≤ i < Minesweeper.height g) as Hi
      by (apply Z.mod_pos_bound; lia).
    assert (0 ≤ j < Minesweeper.width g) as Hj
      by (apply Z.mod_pos_bound; lia).
    pose proof (wf_read g (i, j) Hg Hi Hj) as Hread. simpl in Hread.
    rewrite Hread. clear Hread.
    case_bool_decide as Hin.
    + specialize (IH g Hg).
      destruct (Minesweeper.place_mines draws target g); try done;
        destruct IH as [_ [?|?]]; lia.
    + destruct (place_step_wf g i j Hg Hi Hj Hin) as (board'&->&Hg').
      specialize (IH _ Hg'). simpl in IH.
      destruct (Minesweeper.place_mines draws target _); try done;
        destruct IH as [_ [?|?]]; lia.
Qed.

(** The mines of a well-formed game are cells of the board, so there are
    at most as many as the board has cells. *)
Lemma wf_size_mines g :
  Minesweeper.wf g →
  (size (Minesweeper.mines g)
   ≤ Z.to_nat (Minesweeper.height g) * Z.to_nat (Minesweeper.width g))%nat.
Proof.
  intros (_&_&_&Hmines).
  destruct (grid_NoDup_length (range 0 (Minesweeper.height g))
                              (range 0 (Minesweeper.width g)))
    as [Hnd Hlen]; [apply NoDup_seqZ|apply NoDup_seqZ|].
  rewrite !length_range, !Z.sub_0_r in Hlen. rewrite <-Hlen.
  rewrite <-(size_list_to_set (C:=gset Cell)) by done.
  apply subseteq_size. intros [i j] [Hi Hj]%Hmines. simpl in *.
  apply elem_of_list_to_set, elem_of_flat_map. exists i.
  split; [by apply elem_of_range|].
  apply list_elem_of_fmap. exists j. split; [done|by apply elem_of_range].
Qed.
End init_facts.

(** With the requested number of mines in place the loop ends at once. *)
Lemma place_mines_done draws target g :
  Z.of_nat (size (Minesweeper.mines g)) = target →
  Minesweeper.place_mines draws target g = Minesweeper.Built g.
Proof.
  intros Hm. destruct draws as [|[r1 r2] draws]; simpl;
    by rewrite bool_decide_eq_false_2 by (intros Hne; by apply Hne).
Qed.

(** With a non-positive height or width, and mines still to place, the
    first draw raises. *)
Lemma place_mines_value_error r1 r2 draws target g :
  Z.of_nat (size (Minesweeper.mines g)) ≠ target →
  Minesweeper.height g ≤ 0 ∨ Minesweeper.width g ≤ 0 →
  Minesweeper.place_mines ((r1, r2) :: draws) target g = Minesweeper.ValueError.
Proof.
  intros Hm Hdims. simpl. rewrite bool_decide_eq_true_2 by done.
  unfold Minesweeper.randrange.
  destruct (decide (Minesweeper.height g ≤ 0)) as [Hh|Hh].
  - by rewrite (bool_decide_eq_true_2 _ Hh).
  - rewrite (bool_decide_eq_false_2 _ Hh).
    by rewrite bool_decide_eq_true_2 by lia.
Qed.

(** A returned game is well formed. *)
Lemma game_init_wf (h w m : Z) (draws : list (nat * nat)) (g : Minesweeper.t) :
  Minesweeper.init h w m draws = Minesweeper.Built g → Minesweeper.wf g.
Proof.
  unfold Minesweeper.init.
  pose proof (place_mines_spec draws m _ (empty_board_wf h w)) as Hspec.
  destruct (Minesweeper.place_mines draws m _) as [g'| | |]; try done.
  intros [= <-]. by destruct Hspec as (Hg&_).
Qed.

(** A returned game was asked for a number of mines that fits the board. *)
Lemma game_init_built_bounds (h w m : Z) (draws : list (nat * nat)) (g : Minesweeper.t) :
  Minesweeper.init h w m draws = Minesweeper.Built g →
  0 ≤ m ≤ Z.of_nat (Z.to_nat h * Z.to_nat w).
Proof.
  unfold Minesweeper.init.
  pose proof (place_mines_spec draws m _ (empty_board_wf h w)) as Hspec.
  destruct (Minesweeper.place_mines draws m _) as [g'| | |]; try done.
  intros _. destruct Hspec as (Hg&Hm&Hh&Hw&_). simpl in *.
  pose proof (wf_size_mines _ Hg) as Hsize. rewrite Hh, Hw in Hsize. lia.
Qed.

(** X12: [Minesweeper.__init__], when it returns: the game has the requested
    size and exactly the requested number of mines, all on the board; the
    board is [True] exactly at the mines; no mine is found yet, so the
    game counts as won only when it was built without mines.  The request
    was for between zero and rows times columns mines. *)
Theorem game_init_built (h w m : Z) (draws : list (nat * nat)) (g : Minesweeper.t) :
  Minesweeper.init h w m draws = Minesweeper.Built g →
  Minesweeper.height g = h ∧ Minesweeper.width g = w ∧
  Z.of_nat (size (Minesweeper.mines g)) = m ∧
  0 ≤ m ≤ Z.of_nat (Z.to_nat h * Z.to_nat w) ∧
  Minesweeper.wf g ∧
  Minesweeper.mines_found g = ∅ ∧
  Minesweeper.won g = bool_decide (m = 0).
Proof.
  unfold Minesweeper.init.
  pose proof (place_mines_spec draws m _ (empty_board_wf h w)) as Hspec.
  destruct (Minesweeper.place_mines draws m _) as [g'| | |]; try done.
  intros [= <-]. destruct Hspec as (Hg&Hm&Hh&Hw&_). simpl in *.
  assert (Minesweeper.wf (Minesweeper.set_mines_found g' ∅)) as Hg'
    by exact Hg.
  pose proof (wf_size_mines _ Hg) as Hsize. rewrite Hh, Hw in Hsize.
  split_and!; try done; [lia|lia|].
  unfold Minesweeper.won. simpl. apply bool_decide_ext.
  rewrite <-Hm. split.
  - intros <-. by rewrite size_empty.
  - intros Hz. symmetry. apply leibniz_equiv, size_empty_iff. lia.
Qed.

Lemma game_init_built_witness :
  ∃ g : Minesweeper.t,
    Minesweeper.init 2 3 2 [(0, 1); (4, 4); (1, 2)]%nat = Minesweeper.Built g ∧
    Minesweeper.board g = [[false; true; false]; [false; false; true]] ∧
    Z.of_nat (size (Minesweeper.mines g)) = 2 ∧
    Minesweeper.wf g.
Proof.
  exists (Minesweeper.Build 2 3 {[(0, 1); (1, 2)]}
            [[false; true; false]; [false; false; true]] ∅).
  assert (Minesweeper.init 2 3 2 [(0, 1); (4, 4); (1, 2)]%nat
          = Minesweeper.Built
              (Minesweeper.Build 2 3 {[(0, 1); (1, 2)]}
                 [[false; true; false]; [false; false; true]] ∅)) as Hinit
    by (vm_compute; reflexivity).
  destruct (game_init_built 2 3 2 _ _ Hinit) as (_&_&Hm&_&Hg&_).
  split; [exact Hinit|]. split; [reflexivity|]. split; [exact Hm|exact Hg].
Defined.

(** X13: [Minesweeper.__init__], edge cases: with [mines = 0] it returns at
    once, for any size, also a non-positive one, and uses no random draw;
    with [mines != 0] and a non-positive height or width the first
    [random.randrange] call raises [ValueError]; reading or writing the
    board never raises [IndexError]; and when [mines] is negative or
    exceeds the number of cells the loop never ends, whatever is drawn. *)
Theorem game_init_edge_cases (h w m : Z) (draws : list (nat * nat)) :
  Minesweeper.init h w 0 draws
    = Minesweeper.Built
        (Minesweeper.Build h w ∅ (Minesweeper.empty_board h w) ∅) ∧
  (∀ d, m ≠ 0 → h ≤ 0 ∨ w ≤ 0 →
     Minesweeper.init h w m (d :: draws) = Minesweeper.ValueError) ∧
  Minesweeper.init h w m draws ≠ Minesweeper.IndexErr ∧
  (m < 0 ∨ Z.of_nat (Z.to_nat h * Z.to_nat w) < m →
     0 < h → 0 < w → Minesweeper.init h w m draws = Minesweeper.Pending).
Proof.
  split_and!.
  - unfold Minesweeper.init.
    rewrite place_mines_done; [done|].
    change (Z.of_nat (size (∅ : gset Cell)) = 0). by rewrite size_empty.
  - intros [r1 r2] Hm Hdims. unfold Minesweeper.init.
    rewrite place_mines_value_error; [done| |done].
    change (Z.of_nat (size (∅ : gset Cell)) ≠ m). rewrite size_empty. lia.
  - unfold Minesweeper.init.
    pose proof (place_mines_spec draws m _ (empty_board_wf h w)) as Hspec.
    by destruct (Minesweeper.place_mines draws m _).
  - intros Hm Hh Hw.
    destruct (Minesweeper.init h w m draws) as [g| | |] eqn:E; [| | |done].
    + apply game_init_built_bounds in E. lia.
    + unfold Minesweeper.init in E.
      pose proof (place_mines_spec draws m _ (empty_board_wf h w)) as Hspec.
      destruct (Minesweeper.place_mines draws m _); try done.
      simpl in Hspec. lia.
    + unfold Minesweeper.init in E.
      pose proof (place_mines_spec draws m _ (empty_board_wf h w)) as Hspec.
      by destruct (Minesweeper.place_mines draws m _).
Qed.

(** Drawing free board cells one after the other places them all. *)
Lemma place_mines_cells (cs : list Cell) (target : Z) (g : Minesweeper.t) :
  Minesweeper.wf g → NoDup cs →
  (∀ c, c ∈ cs →
     0 ≤ c.1 < Minesweeper.height g ∧ 0 ≤ c.2 < Minesweeper.width g ∧
     c ∉ Minesweeper.mines g) →
  target = Z.of_nat (size (Minesweeper.mines g)) + Z.of_nat (length cs) →
  ∃ g', Minesweeper.place_mines
          (map (λ c, (Z.to_nat c.1, Z.to_nat c.2)) cs) target g
        = Minesweeper.Built g'.
Proof.
  revert g. induction cs as [|[i j] cs IH]; intros g Hg Hnd Hcs Htarget.
  - exists g. apply place_mines_done. simpl in Htarget. lia.
  - apply NoDup_cons in Hnd as [Hnotin Hnd].
    destruct (Hcs (i, j)) as (Hi&Hj&Hfree); [by left|]. simpl in Hi, Hj.
    destruct (place_step_wf g i j Hg Hi Hj Hfree) as (board'&Hboard'&Hg').
    pose proof (wf_read g (i, j) Hg Hi Hj) as Hread. simpl in Hread.
    destruct (IH _ Hg' Hnd) as [g' Hplace].
    + intros c Hc. destruct (Hcs c) as (?&?&?); [by right|]. simpl.
      split; [lia|]. split; [lia|]. set_solver.
    + simpl. rewrite size_union, size_singleton by set_solver.
      simpl in Htarget. lia.
    + exists g'. simpl in Htarget |- *.
      rewrite bool_decide_eq_true_2 by lia.
      unfold Minesweeper.randrange.
      rewrite !bool_decide_eq_false_2 by lia.
      rewrite !Z2Nat.id, !Z.mod_small by lia.
      rewrite Hread, bool_decide_eq_false_2 by done.
      by rewrite Hboard'.
Qed.

(** X14: [Minesweeper.__init__] can return for every request that fits the
    board: for between zero and [height * width] mines there are random
    draws with which it returns a game. *)
Theorem game_init_can_return (h w m : Z) :
  0 ≤ h → 0 ≤ w → 0 ≤ m ≤ h * w →
  ∃ (draws : list (nat * nat)) (g : Minesweeper.t),
    Minesweeper.init h w m draws = Minesweeper.Built g.
Proof.
  intros Hh Hw Hm.
  destruct (grid_NoDup_length (range 0 h) (range 0 w))
    as [Hnd Hlen]; [apply NoDup_seqZ|apply NoDup_seqZ|].
  rewrite !length_range, !Z.sub_0_r in Hlen.
  set (grid := flat_map _ _) in *.
  destruct (place_mines_cells (take (Z.to_nat m) grid) m
              (Minesweeper.Build h w ∅ (Minesweeper.empty_board h w) ∅))
    as [g Hg].
  - apply empty_board_wf.
  - eapply sublist_NoDup; [exact Hnd|apply sublist_take].
  - intros [i j] (k&Hc%list_elem_of_lookup_2&_)%elem_of_take.
    apply elem_of_flat_map in Hc.
    destruct Hc as (i'&Hi&(j'&[= -> ->]&Hj)%list_elem_of_fmap).
    apply elem_of_range in Hi, Hj. simpl.
    split; [lia|]. split; [lia|]. set_solver.
  - change (m = Z.of_nat (size (∅ : gset Cell))
                + Z.of_nat (length (take (Z.to_nat m) grid))).
    rewrite size_empty, length_take. nia.
  - eexists _, (Minesweeper.set_mines_found g ∅).
    unfold Minesweeper.init. by rewrite Hg.
Qed.

Lemma game_init_can_return_witness :
  ∃ (draws : list (nat * nat)) (g : Minesweeper.t),
    Minesweeper.init 8 8 8 draws = Minesweeper.Built g.
Proof. apply game_init_can_return; lia. Defined.

(** ** Reading the board *)

(** X15: [is_mine] on a game whose board matches its mine set: for a cell of
    the board it tells whether the cell is a mine; a negative row or
    column index down to [-height] or [-width] reads the cell counted
    from the other end; any other index raises [IndexError]. *)
Theorem game_is_mine (g : Minesweeper.t) (i j : Z) :
  Minesweeper.wf g →
  (0 ≤ i < Minesweeper.height g → 0 ≤ j < Minesweeper.width g →
     Minesweeper.is_mine g (i, j)
       = Returns (bool_decide ((i, j) ∈ Minesweeper.mines g))) ∧
  (- Minesweeper.height g ≤ i < 0 →
     Minesweeper.is_mine g (i, j)
       = Minesweeper.is_mine g (i + Minesweeper.height g, j)) ∧
  (0 ≤ i < Minesweeper.height g → - Minesweeper.width g ≤ j < 0 →
     Minesweeper.is_mine g (i, j)
       = Minesweeper.is_mine g (i, j + Minesweeper.width g)) ∧
  (i < - Minesweeper.height g ∨ Minesweeper.height g ≤ i →
     Minesweeper.is_mine g (i, j) = Raises IndexError) ∧
  (0 ≤ i < Minesweeper.height g →
   j < - Minesweeper.width g ∨ Minesweeper.width g ≤ j →
     Minesweeper.is_mine g (i, j) = Raises IndexError).
Proof.
  intros Hg. pose proof Hg as (Hlen&Hrows&_&_).
  unfold Minesweeper.is_mine. simpl. split_and!.
  - intros Hi Hj. apply (wf_read g (i, j)); done.
  - intros Hi. rewrite getitem_negative by lia.
    rewrite bool_decide_eq_true_2 by lia. do 3 f_equal. lia.
  - intros Hi Hj.
    destruct (wf_entry g (i, 0) Hg) as (row&Hrow&Hlenrow&_); [done|simpl; lia|].
    simpl in Hrow. rewrite (getitem_lookup _ _ _ (proj1 Hi) Hrow). simpl.
    rewrite getitem_negative by lia.
    rewrite bool_decide_eq_true_2 by lia. do 2 f_equal. lia.
  - intros Hi. rewrite getitem_out_of_range; [done|lia].
  - intros Hi Hj.
    destruct (lookup_lt_is_Some_2 (Minesweeper.board g) (Z.to_nat i))
      as [row Hrow]; [lia|].
    rewrite (getitem_lookup _ _ _ (proj1 Hi) Hrow). simpl.
    eapply Forall_forall in Hrows; [|by eapply list_elem_of_lookup_2].
    rewrite getitem_out_of_range; [done|lia].
Qed.

Lemma game_is_mine_witness :
  Minesweeper.is_mine
    (Minesweeper.Build 2 3 {[(0, 1); (1, 2)]}
       [[false; true; false]; [false; false; true]] ∅) (1, 2)
  = Returns true.
Proof.
  assert (Minesweeper.init 2 3 2 [(0, 1); (4, 4); (1, 2)]%nat
          = Minesweeper.Built
              (Minesweeper.Build 2 3 {[(0, 1); (1, 2)]}
                 [[false; true; false]; [false; false; true]] ∅)) as Hinit
    by (vm_compute; reflexivity).
  apply game_init_wf in Hinit.
  destruct (game_is_mine _ 1 2 Hinit) as (Hin&_).
  rewrite Hin by (simpl; lia). vm_compute. reflexivity.
Defined.

(** ** Neighbours *)

(** A cell is a neighbour exactly when it is another cell of the board at
    most one row and one column away. *)
Lemma elem_of_neighbor_cells (kb : KB) (cell c : Cell) :
  c ∈ neighbor_cells kb cell ↔
  c ≠ cell ∧
  cell.1 - 1 ≤ c.1 ≤ cell.1 + 1 ∧ cell.2 - 1 ≤ c.2 ≤ cell.2 + 1 ∧
  0 ≤ c.1 < height kb ∧ 0 ≤ c.2 < width kb.
Proof.
  unfold neighbor_cells. rewrite elem_of_flat_map. split.
  - intros (dr&Hdr%elem_of_range&(dc&Hdc%elem_of_range&Hc)%elem_of_flat_map).
    cbv zeta in Hc. destruct (_ && _) eqn:E; [|by apply elem_of_nil in Hc].
    apply list_elem_of_singleton in Hc as ->.
    apply andb_true_iff in E as [E Hcol%bool_decide_eq_true].
    apply andb_true_iff in E as [Hne%bool_decide_eq_true Hrow%bool_decide_eq_true].
    simpl in *. split; [done|]. lia.
  - destruct c as [i j], cell as [r k]. cbn [fst snd].
    intros (Hne&Hi&Hj&Hrow&Hcol).
    exists (i - r). split; [apply elem_of_range; lia|].
    apply elem_of_flat_map. exists (j - k).
    split; [apply elem_of_range; lia|]. cbv zeta. cbn [fst snd].
    replace (r + (i - r)) with i by lia. replace (k + (j - k)) with j by lia.
    rewrite !bool_decide_eq_true_2 by done. cbn [andb]. by left.
Qed.

Lemma neighbor_cells_length (kb : KB) (cell : Cell) :
  (length (neighbor_cells kb cell) ≤ 8)%nat.
Proof.
  destruct cell as [r c]. unfold neighbor_cells.
  change (range (-1) 2) with [-1; 0; 1]. cbn [flat_map app fst snd].
  rewrite !Z.add_0_r.
  rewrite (bool_decide_eq_false_2 ((r, c) ≠ (r, c))) by (intros Hne; by apply Hne).
  cbn [andb]. rewrite !length_app.
  assert (∀ (b : bool) (x : Cell), (length (if b then [x] else []) ≤ 1)%nat)
    as Hone by (intros [] x; simpl; lia).
  repeat match goal with
         | |- context [length (if ?b then [?x] else [])] =>
             let H := fresh in
             pose proof (Hone b x) as H;
             generalize dependent (length (if b then [x] else []));
             intros ? H
         end.
  simpl. lia.
Qed.

(** X5: [add_knowledge]'s neighbours: the other board cells within one row and
    one column of the cell, each listed once, so at most eight. *)
Theorem neighbor_cells_spec (kb : KB) (cell : Cell) :
  (∀ c, c ∈ neighbor_cells kb cell ↔
        c ≠ cell ∧
        cell.1 - 1 ≤ c.1 ≤ cell.1 + 1 ∧ cell.2 - 1 ≤ c.2 ≤ cell.2 + 1 ∧
        0 ≤ c.1 < height kb ∧ 0 ≤ c.2 < width kb) ∧
  NoDup (neighbor_cells kb cell) ∧
  (length (neighbor_cells kb cell) ≤ 8)%nat.
Proof.
  split_and!.
  - intros c. apply elem_of_neighbor_cells.
  - apply neighbor_cells_NoDup.
  - apply neighbor_cells_length.
Qed.

(** ** Counting nearby mines *)

Lemma range_3 (c : Z) : range (c - 1) (c + 2) = [c - 1; c; c + 1].
Proof.
  unfold range. replace (c + 2 - (c - 1)) with 3 by lia.
  rewrite !seqZ_cons by lia. rewrite seqZ_nil by lia.
  replace (Z.succ (c - 1)) with c by lia.
  by replace (Z.succ c) with (c + 1) by lia.
Qed.

(** The loops of [nearby_mines] in closed form. *)
Lemma foldl_nearby_step (g : Minesweeper.t) (cell : Cell) (l : list Cell) (n : Z) :
  Minesweeper.wf g →
  foldl (Minesweeper.nearby_step g cell) (Returns n) l =
  Returns (n + Z.of_nat (length (filter (λ c, c ∈ Minesweeper.mines g)
    (flat_map (λ ij : Cell,
       if bool_decide (ij ≠ cell)
          && bool_decide (0 ≤ ij.1 < Minesweeper.height g)
          && bool_decide (0 ≤ ij.2 < Minesweeper.width g)
       then [ij] else []) l)))).
Proof.
  intros Hg. revert n. induction l as [|ij l IH]; intros n; cbn [foldl flat_map].
  - simpl. f_equal. lia.
  - assert (Minesweeper.nearby_step g cell (Returns n) ij =
            Returns (n + Z.of_nat (length (filter (λ c, c ∈ Minesweeper.mines g)
              (if bool_decide (ij ≠ cell)
                  && bool_decide (0 ≤ ij.1 < Minesweeper.height g)
                  && bool_decide (0 ≤ ij.2 < Minesweeper.width g)
               then [ij] else []))))) as ->.
    { unfold Minesweeper.nearby_step, mbind, outcome_bind.
      destruct (decide (ij = cell)) as [->|Hne].
      - rewrite bool_decide_eq_true_2 by done.
        rewrite (bool_decide_eq_false_2 (cell ≠ cell)) by (intros H; by apply H).
        simpl. f_equal. lia.
      - rewrite (bool_decide_eq_false_2 (ij = cell)) by done.
        rewrite (bool_decide_eq_true_2 (ij ≠ cell)) by done. cbn [andb].
        destruct (bool_decide (0 ≤ ij.1 < _)) eqn:Hi;
          destruct (bool_decide (0 ≤ ij.2 < _)) eqn:Hj; simpl;
          try (f_equal; lia).
        apply bool_decide_eq_true in Hi, Hj.
        pose proof (wf_read g ij Hg Hi Hj) as Hread.
        unfold mbind, outcome_bind in Hread. rewrite Hread.
        rewrite filter_cons, filter_nil.
        destruct (decide (ij ∈ Minesweeper.mines g)) as [Hin|Hin].
        + rewrite bool_decide_eq_true_2 by done. simpl. f_equal; lia.
        + rewrite bool_decide_eq_false_2 by done. simpl. f_equal; lia. }
    rewrite IH. f_equal. rewrite filter_app, length_app. lia.
Qed.

(** The game and the player look at the same neighbours. *)
Lemma neighbor_cells_as_filter (h w : Z) (cell : Cell) :
  neighbor_cells (MinesweeperAI.init h w) cell =
  flat_map (λ ij : Cell,
      if bool_decide (ij ≠ cell)
         && bool_decide (0 ≤ ij.1 < h) && bool_decide (0 ≤ ij.2 < w)
      then [ij] else [])
    (flat_map (λ i, map (λ j, (i, j)) (range (cell.2 - 1) (cell.2 + 2)))
              (range (cell.1 - 1) (cell.1 + 2))).
Proof.
  destruct cell as [r c]. simpl. rewrite !range_3.
  unfold neighbor_cells. change (range (-1) 2) with [-1; 0; 1].
  cbn [flat_map map app fst snd MinesweeperAI.height MinesweeperAI.width
       MinesweeperAI.init].
  rewrite !Z.add_0_r, !app_nil_r, <-!app_assoc. reflexivity.
Qed.

Lemma game_nearby_mines_count (g : Minesweeper.t) (cell : Cell) :
  Minesweeper.wf g →
  Minesweeper.nearby_mines g cell =
  Returns (Z.of_nat (length (filter (λ c, c ∈ Minesweeper.mines g)
    (neighbor_cells
       (MinesweeperAI.init (Minesweeper.height g) (Minesweeper.width g))
       cell)))).
Proof.
  intros Hg. unfold Minesweeper.nearby_mines.
  rewrite foldl_nearby_step by done. rewrite neighbor_cells_as_filter.
  f_equal.
Qed.

(** X16: [nearby_mines] on a game whose board matches its mine set: it returns
    the number of mines among the neighbours of the cell, which is between
    0 and 8, and raises nothing; the cell itself is not counted.  For a
    cell that is no mine this is the count that makes an observation
    truthful. *)
Theorem game_nearby_mines (g : Minesweeper.t) (cell : Cell) :
  Minesweeper.wf g →
  ∃ n : Z,
    Minesweeper.nearby_mines g cell = Returns n ∧
    n = Z.of_nat (size (list_to_set (C:=gset Cell)
          (neighbor_cells
             (MinesweeperAI.init (Minesweeper.height g) (Minesweeper.width g))
             cell) ∩ Minesweeper.mines g)) ∧
    0 ≤ n ≤ 8 ∧
    (cell ∉ Minesweeper.mines g →
     truthful (Minesweeper.mines g) (Minesweeper.height g) (Minesweeper.width g)
              (Observe cell n)).
Proof.
  intros Hg. eexists. split; [by apply game_nearby_mines_count|].
  set (l := neighbor_cells _ cell).
  pose proof (neighbor_cells_NoDup
    (MinesweeperAI.init (Minesweeper.height g) (Minesweeper.width g)) cell)
    as Hnd. fold l in Hnd.
  pose proof (neighbor_cells_length
    (MinesweeperAI.init (Minesweeper.height g) (Minesweeper.width g)) cell)
    as Hlen. fold l in Hlen.
  split_and!.
  - f_equal.
    replace (list_to_set l ∩ Minesweeper.mines g)
      with (list_to_set (C:=gset Cell)
              (filter (λ c, c ∈ Minesweeper.mines g) l)).
    + by rewrite size_list_to_set by (by apply NoDup_filter).
    + apply set_eq. intros x.
      rewrite elem_of_intersection, !elem_of_list_to_set, list_elem_of_filter.
      tauto.
  - lia.
  - pose proof (length_filter (λ c, c ∈ Minesweeper.mines g) l). lia.
  - intros Hcell. split; done.
Qed.

Lemma game_nearby_mines_witness :
  ∃ n : Z,
    Minesweeper.nearby_mines
      (Minesweeper.Build 2 3 {[(0, 1); (1, 2)]}
         [[false; true; false]; [false; false; true]] ∅) (1, 1)
    = Returns n ∧ 0 ≤ n ≤ 8.
Proof.
  assert (Minesweeper.init 2 3 2 [(0, 1); (4, 4); (1, 2)]%nat
          = Minesweeper.Built
              (Minesweeper.Build 2 3 {[(0, 1); (1, 2)]}
                 [[false; true; false]; [false; false; true]] ∅)) as Hinit
    by (vm_compute; reflexivity).
  apply game_init_wf in Hinit.
  destruct (game_nearby_mines _ (1, 1) Hinit) as (n&Hn&_&Hbound&_).
  exists n. split; [exact Hn|exact Hbound].
Defined.

(** ** Sentences: marking and what is known *)

(** X1: [Sentence.mark_mine] and [Sentence.mark_safe]: the returned flag says
    whether the cell was among the cells; afterwards the cell is not among
    them and no other cell has left; [mark_mine] lowers the count by one
    exactly when the flag is [True], [mark_safe] never changes it; a
    second call with the same cell returns [False] and changes nothing. *)
Theorem sentence_marks `{Countable C} (c : C) (s : Sentence.t C) :
  let m := (Sentence.mark_mine c s).1 in
  let f := (Sentence.mark_safe c s).1 in
  (Sentence.mark_mine c s).2 = bool_decide (c ∈ Sentence.cells s) ∧
  (Sentence.mark_safe c s).2 = bool_decide (c ∈ Sentence.cells s) ∧
  Sentence.cells m = Sentence.cells s ∖ {[c]} ∧
  Sentence.cells f = Sentence.cells s ∖ {[c]} ∧
  Sentence.count m
    = Sentence.count s - (if bool_decide (c ∈ Sentence.cells s) then 1 else 0) ∧
  Sentence.count f = Sentence.count s ∧
  Sentence.mark_mine c m = (m, false) ∧
  Sentence.mark_safe c f = (f, false) ∧
  (c ∉ Sentence.cells s → m = s ∧ f = s).
Proof.
  intros m f. subst m f. split_and!.
  - unfold Sentence.mark_mine. by case_bool_decide.
  - unfold Sentence.mark_safe. by case_bool_decide.
  - apply sentence_mark_mine_cells.
  - apply sentence_mark_safe_cells.
  - by rewrite sentence_mark_mine_closed.
  - by rewrite sentence_mark_safe_closed.
  - unfold Sentence.mark_mine at 1.
    rewrite bool_decide_eq_false_2; [done|].
    rewrite sentence_mark_mine_cells. set_solver.
  - unfold Sentence.mark_safe at 1.
    rewrite bool_decide_eq_false_2; [done|].
    rewrite sentence_mark_safe_cells. set_solver.
  - intros Hc. unfold Sentence.mark_mine, Sentence.mark_safe.
    by rewrite !bool_decide_eq_false_2.
Qed.

(** X2: A sentence that is true of a mine layout: what [known_mines] returns
    are mines and what [known_safes] returns are not; the two are never
    both non-empty; the count lies between 0 and the number of cells; and
    the sentence stays true when a mine of the layout is marked as a mine
    or another cell is marked as safe. *)
Theorem sentence_truth `{Countable C} (M : gset C) (s : Sentence.t C) :
  holds M s →
  Sentence.known_mines s ⊆ M ∧
  Sentence.known_safes s ## M ∧
  (Sentence.known_mines s = ∅ ∨ Sentence.known_safes s = ∅) ∧
  0 ≤ Sentence.count s ≤ Z.of_nat (size (Sentence.cells s)) ∧
  (∀ c, c ∈ M → holds M (Sentence.mark_mine c s).1) ∧
  (∀ c, c ∉ M → holds M (Sentence.mark_safe c s).1).
Proof.
  intros Hs. split_and!.
  - by apply holds_known_mines.
  - by apply holds_known_safes.
  - unfold Sentence.known_mines, Sentence.known_safes.
    destruct (decide (Sentence.count s = 0)) as [E|E].
    + left. rewrite (bool_decide_eq_false_2 (Sentence.count s > 0)) by lia.
      by rewrite andb_false_r.
    + right. by rewrite bool_decide_eq_false_2.
  - unfold holds in Hs. lia.
  - unfold holds in Hs.
    assert (size (Sentence.cells s ∩ M) ≤ size (Sentence.cells s))%nat
      by (apply subseteq_size; set_solver).
    lia.
  - intros c Hc. by apply holds_mark_mine.
  - intros c Hc. by apply holds_mark_safe.
Qed.

Lemma sentence_truth_witness :
  Sentence.known_mines (Sentence.init ({[1; 2]} : gset Z) 2) ⊆ {[1; 2; 5]} ∧
  0 ≤ Sentence.count (Sentence.init ({[1; 2]} : gset Z) 2) ≤ 2.
Proof.
  destruct (sentence_truth ({[1; 2; 5]} : gset Z) (Sentence.init {[1; 2]} 2))
    as (Hm&_&_&Hc&_).
  - vm_compute. reflexivity.
  - split; [exact Hm|]. simpl. lia.
Defined.

(** ** The knowledge base: marking cells *)

(** X3: [MinesweeperAI.mark_mine] and [mark_safe]: a cell already recorded
    changes nothing, also when a stored sentence still mentions it;
    otherwise the cell joins its set, the other sets and the number of
    stored sentences stay as they are, and no stored sentence mentions the
    cell afterwards.  Marking twice is marking once. *)
Theorem kb_marks `{Countable C} (c : C) (kb : MinesweeperAI.t C) :
  (c ∈ mines kb → mark_mine c kb = kb) ∧
  (c ∈ safes kb → mark_safe c kb = kb) ∧
  mines (mark_mine c kb) = {[c]} ∪ mines kb ∧
  safes (mark_safe c kb) = {[c]} ∪ safes kb ∧
  safes (mark_mine c kb) = safes kb ∧ mines (mark_safe c kb) = mines kb ∧
  moves_made (mark_mine c kb) = moves_made kb ∧
  moves_made (mark_safe c kb) = moves_made kb ∧
  length (knowledge (mark_mine c kb)) = length (knowledge kb) ∧
  length (knowledge (mark_safe c kb)) = length (knowledge kb) ∧
  (c ∉ mines kb →
     ∀ s, s ∈ knowledge (mark_mine c kb) → c ∉ Sentence.cells s) ∧
  (c ∉ safes kb →
     ∀ s, s ∈ knowledge (mark_safe c kb) → c ∉ Sentence.cells s) ∧
  mark_mine c (mark_mine c kb) = mark_mine c kb ∧
  mark_safe c (mark_safe c kb) = mark_safe c kb.
Proof.
  split_and!.
  - intros Hc. unfold mark_mine. by rewrite bool_decide_eq_true_2.
  - intros Hc. unfold mark_safe. by rewrite bool_decide_eq_true_2.
  - apply mark_mine_mines.
  - apply mark_safe_safes.
  - apply mark_mine_safes.
  - apply mark_safe_mines.
  - apply mark_mine_moves_made.
  - apply mark_safe_moves_made.
  - symmetry. apply narrows_length, mark_mine_narrows.
  - symmetry. apply narrows_length, mark_safe_narrows.
  - intros Hc s. unfold mark_mine. rewrite bool_decide_eq_false_2 by done.
    simpl. intros (s0&->&_)%list_elem_of_fmap.
    rewrite sentence_mark_mine_cells. set_solver.
  - intros Hc s. unfold mark_safe. rewrite bool_decide_eq_false_2 by done.
    simpl. intros (s0&->&_)%list_elem_of_fmap.
    rewrite sentence_mark_safe_cells. set_solver.
  - unfold mark_mine at 1. rewrite bool_decide_eq_true_2; [done|].
    rewrite mark_mine_mines. set_solver.
  - unfold mark_safe at 1. rewrite bool_decide_eq_true_2; [done|].
    rewrite mark_safe_safes. set_solver.
Qed.

Lemma kb_marks_witness :
  mark_mine 1 (Build 1 1 ∅ ({[1]} : gset Z) ∅ [Sentence.init {[1]} 1])
    = Build 1 1 ∅ ({[1]} : gset Z) ∅ [Sentence.init {[1]} 1] ∧
  ∀ s, s ∈ knowledge (mark_mine 1 (Build 1 1 ∅ (∅ : gset Z) ∅ [Sentence.init {[1]} 1])) →
       1 ∉ Sentence.cells s.
Proof.
  split.
  - apply (kb_marks 1 (Build 1 1 ∅ ({[1]} : gset Z) ∅ [Sentence.init {[1]} 1])).
    by vm_compute.
  - apply (kb_marks 1 (Build 1 1 ∅ (∅ : gset Z) ∅ [Sentence.init {[1]} 1])).
    vm_compute. discriminate.
Defined.

(** X4: The loops [for mine in new_mines: self.mark_mine(mine)] and
    [for safe in new_safes: self.mark_safe(safe)] run over a Python set,
    whose order is not fixed: marks of two cells commute, so every order
    of visiting the cells leaves the same knowledge base. *)
Theorem marking_order_irrelevant `{Countable C} (kb : MinesweeperAI.t C) :
  (∀ c1 c2, mark_mine c1 (mark_mine c2 kb) = mark_mine c2 (mark_mine c1 kb)) ∧
  (∀ c1 c2, mark_safe c1 (mark_safe c2 kb) = mark_safe c2 (mark_safe c1 kb)) ∧
  (∀ xs ys, xs ≡ₚ ys → for_each mark_mine xs kb = for_each mark_mine ys kb) ∧
  (∀ xs ys, xs ≡ₚ ys → for_each mark_safe xs kb = for_each mark_safe ys kb).
Proof.
  split_and!.
  - intros c1 c2. apply mark_mine_comm.
  - intros c1 c2. apply mark_safe_comm.
  - intros xs ys. apply for_each_mark_mine_order.
  - intros xs ys. apply for_each_mark_safe_order.
Qed.

(** ** Choosing a safe move *)

Section safe_move_facts.
Context `{Countable C}.
Implicit Types (kb : MinesweeperAI.t C) (c : C) (iter : gset C → list C).

Lemma enumeration_elem_of iter (s : gset C) c :
  enumeration iter → c ∈ iter s ↔ c ∈ s.
Proof. intros Hiter. by rewrite (Hiter s), elem_of_elements. Qed.

Lemma enumeration_elements : enumeration (elements (C:=gset C)).
Proof. by intros s. Qed.

Lemma enumeration_reverse : enumeration (λ s : gset C, reverse (elements s)).
Proof. intros s. apply reverse_Permutation. Qed.

(** The cell returned is one the loop yields, and passes the test. *)
Lemma make_safe_move_Some iter kb c :
  make_safe_move iter kb = Some c →
  c ∈ iter (safes kb) ∧ (c ∉ moves_made kb) ∧ (c ∉ mines kb).
Proof.
  unfold make_safe_move.
  intros Hc%head_Some_elem_of%list_elem_of_filter. tauto.
Qed.

(** [None] is returned when no cell the loop yields passes the test. *)
Lemma make_safe_move_None iter kb :
  make_safe_move iter kb = None ↔
  ∀ c, c ∈ iter (safes kb) → c ∈ moves_made kb ∨ c ∈ mines kb.
Proof.
  unfold make_safe_move. rewrite head_None. split.
  - intros Hnil c Hc.
    destruct (decide (c ∈ moves_made kb)) as [|Hmv]; [by left|].
    destruct (decide (c ∈ mines kb)) as [|Hm]; [by right|].
    exfalso. by eapply (filter_nil_not_elem_of _ _ c Hnil).
  - intros Hall.
    destruct (filter _ (iter (safes kb))) as [|c l] eqn:E; [done|].
    assert (c ∈ filter (λ c, (c ∉ moves_made kb) ∧ (c ∉ mines kb))
                  (iter (safes kb))) as Hc by (rewrite E; by left).
    apply list_elem_of_filter in Hc as [[??] ?].
    destruct (Hall c); done.
Qed.

Lemma enumeration_first_of c : enumeration (first_of c).
Proof.
  intros s. unfold first_of. case_bool_decide as Hc; [|done].
  rewrite <-elements_union_singleton by set_solver.
  apply elements_proper. intros x.
  destruct (decide (x = c)); set_solver.
Qed.
End safe_move_facts.

(** X11: Whatever the order in which the loop goes over [safes],
    [make_safe_move] returns a cell of [safes] that is neither played nor
    a known mine, and returns [None] exactly when [safes] has no such
    cell.  Which of these cells it returns is up to the order: each of
    them is the one returned under some order. *)
Theorem make_safe_move_spec `{Countable C} (kb : MinesweeperAI.t C) :
  (∀ iter, enumeration iter →
     (∀ c, make_safe_move iter kb = Some c →
           c ∈ safes kb ∧ (c ∉ moves_made kb) ∧ (c ∉ mines kb)) ∧
     (make_safe_move iter kb = None ↔
      ∀ c, c ∈ safes kb → c ∈ moves_made kb ∨ c ∈ mines kb)) ∧
  (∀ c, c ∈ safes kb → c ∉ moves_made kb → c ∉ mines kb →
     ∃ iter, enumeration iter ∧ make_safe_move iter kb = Some c).
Proof.
  split.
  - intros iter Hiter. split.
    + intros c (Hc&?&?)%make_safe_move_Some.
      by apply (enumeration_elem_of iter) in Hc.
    + rewrite make_safe_move_None. split; intros Hall c Hc; apply Hall.
      * by apply (enumeration_elem_of iter).
      * by apply (enumeration_elem_of iter) in Hc.
  - intros c Hs Hmv Hm. exists (first_of c).
    split; [apply enumeration_first_of|].
    unfold make_safe_move, first_of.
    rewrite bool_decide_eq_true_2 by done.
    rewrite filter_cons, decide_True by done. done.
Qed.

(** On a 1x3 board whose mine is at [(0,1)], after [(0,1)] is marked as a
    mine and [(0,0)] and [(0,2)] as safe, both safe cells are candidates:
    one order of iteration returns [(0,0)], the reversed order [(0,2)]. *)
Lemma make_safe_move_spec_witness :
  ∃ kb : KB,
    exec 3 [MarkMine (0, 1); MarkSafe (0, 0); MarkSafe (0, 2)] (init 1 3)
      = Some kb ∧
    enumeration (elements (C:=gset Cell)) ∧
    enumeration (λ s : gset Cell, reverse (elements s)) ∧
    make_safe_move elements kb ≠ make_safe_move (λ s, reverse (elements s)) kb ∧
    (∀ c, make_safe_move elements kb = Some c →
       c ∈ safes kb ∧ (c ∉ moves_made kb) ∧ (c ∉ mines kb)) ∧
    (∀ c, make_safe_move (λ s, reverse (elements s)) kb = Some c →
       c ∈ safes kb ∧ (c ∉ moves_made kb) ∧ (c ∉ mines kb)).
Proof.
  exists (default (init 1 3)
            (exec 3 [MarkMine (0, 1); MarkSafe (0, 0); MarkSafe (0, 2)]
                  (init 1 3))).
  run_first Hex.
  split; [apply enumeration_elements|].
  split; [apply enumeration_reverse|].
  split; [vm_compute; congruence|].
  split.
  - apply (make_safe_move_spec
             (default (init 1 3)
                (exec 3 [MarkMine (0, 1); MarkSafe (0, 0); MarkSafe (0, 2)]
                      (init 1 3)))).
    apply enumeration_elements.
  - apply (make_safe_move_spec
             (default (init 1 3)
                (exec 3 [MarkMine (0, 1); MarkSafe (0, 0); MarkSafe (0, 2)]
                      (init 1 3)))).
    apply enumeration_reverse.
Defined.

(** ** What an observation can change *)

Section footprint.
Context `{Countable C}.
Implicit Types (kb : MinesweeperAI.t C).

Lemma elem_of_unresolved kb c :
  c ∈ unresolved kb ↔ ∃ s, s ∈ knowledge kb ∧ c ∈ Sentence.cells s.
Proof.
  unfold unresolved. rewrite elem_of_union_list. split.
  - intros (X&(s&->&Hs)%list_elem_of_fmap&Hc). by exists s.
  - intros (s&Hs&Hc). exists (Sentence.cells s).
    split; [|done]. apply list_elem_of_fmap. by exists s.
Qed.

(** A scan only marks cells that a stored sentence mentions. *)
Lemma scan_footprint kb :
  mines (scan kb).1 ∪ safes (scan kb).1 ∪ unresolved (scan kb).1
  ⊆ mines kb ∪ safes kb ∪ unresolved kb.
Proof.
  apply (scan_ind (λ kb', mines kb' ∪ safes kb' ∪ unresolved kb'
                          ⊆ mines kb ∪ safes kb ∪ unresolved kb)); [| |done].
  - intros s c kb' Hs Hc%known_mines_subseteq Hkb'.
    assert (c ∈ unresolved kb) by (apply elem_of_unresolved; eauto).
    rewrite mark_mine_mines, mark_mine_safes.
    pose proof (narrows_union_list _ _ (mark_mine_narrows c kb')) as Hn.
    unfold unresolved in *. set_solver.
  - intros s c kb' Hs Hc%known_safes_subseteq Hkb'.
    assert (c ∈ unresolved kb) by (apply elem_of_unresolved; eauto).
    rewrite mark_safe_mines, mark_safe_safes.
    pose proof (narrows_union_list _ _ (mark_safe_narrows c kb')) as Hn.
    unfold unresolved in *. set_solver.
Qed.

Lemma propagate_footprint fuel kb kb' :
  propagate fuel kb = Some kb' →
  mines kb' ∪ safes kb' ∪ unresolved kb'
  ⊆ mines kb ∪ safes kb ∪ unresolved kb.
Proof.
  apply (propagate_ind (λ kb1, mines kb1 ∪ safes kb1 ∪ unresolved kb1
                               ⊆ mines kb ∪ safes kb ∪ unresolved kb));
    [|done].
  intros kb1 Hkb1. etrans; [apply scan_footprint|exact Hkb1].
Qed.

Lemma subset_elimination_unresolved kb :
  unresolved (subset_elimination kb) = unresolved kb.
Proof.
  apply set_eq. intros c. rewrite !elem_of_unresolved. simpl. split.
  - intros (s&[Hs|Hs]%elem_of_app&Hc); [by exists s|].
    apply new_inferences_cells in Hs as (s'&Hs'&Hsub).
    exists s'. split; [done|set_solver].
  - intros (s&Hs&Hc). exists s. split; [|done]. apply elem_of_app. by left.
Qed.
End footprint.

Lemma add_sentence_footprint (kb : KB) (cell : Cell) (count : Z) :
  mines (add_sentence kb cell count) ∪ safes (add_sentence kb cell count)
    ∪ unresolved (add_sentence kb cell count)
  ⊆ mines kb ∪ safes kb ∪ unresolved kb
    ∪ {[cell]} ∪ list_to_set (neighbor_cells kb cell).
Proof.
  destruct (add_sentence_records kb cell count) as (_&Es&Em).
  rewrite Es, Em. clear Es Em.
  assert (unresolved (add_sentence kb cell count)
          ⊆ unresolved kb ∪ list_to_set (neighbor_cells kb cell)) as Hu;
    [|set_solver].
  rewrite add_sentence_unfold. cbv zeta.
  set (kb1 := mark_safe cell _).
  assert (unresolved kb1 ⊆ unresolved kb) as Hkb1.
  { apply (narrows_union_list (knowledge kb)).
    exact (mark_safe_narrows cell (set_moves_made kb _)). }
  assert (neighbor_cells kb1 cell = neighbor_cells kb cell) as El.
  { apply neighbor_cells_dims; unfold kb1, mark_safe; by case_bool_decide. }
  rewrite El. case_bool_decide; [|set_solver].
  intros c (s&[Hs|Hs%list_elem_of_singleton]%elem_of_app&Hc)%elem_of_unresolved.
  - apply elem_of_union_l, Hkb1, elem_of_unresolved. eauto.
  - subst s. simpl in Hc.
    apply elem_of_list_to_set, list_elem_of_filter in Hc as [_ Hc].
    apply elem_of_union_r. by apply elem_of_list_to_set.
Qed.

Lemma add_knowledge_changes
    (fuel : nat) (kb : KB) (cell : Cell) (count : Z) (kb' : KB) :
  add_knowledge fuel kb cell count = Some kb' →
  height kb' = height kb ∧ width kb' = width kb ∧
  moves_made kb' = {[cell]} ∪ moves_made kb ∧
  cell ∈ safes kb' ∧
  mines kb' ∪ safes kb' ∪ unresolved kb'
  ⊆ mines kb ∪ safes kb ∪ unresolved kb
    ∪ {[cell]} ∪ list_to_set (neighbor_cells kb cell).
Proof.
  intros (kbp&Hp&->)%add_knowledge_Some.
  destruct (add_sentence_grows kb cell count) as (Hh&Hw&_).
  destruct (propagate_grows _ _ _ Hp) as (Hh'&Hw'&_&_&Hs).
  destruct (add_sentence_records kb cell count) as (Em&Es&_).
  split_and!.
  - simpl. congruence.
  - simpl. congruence.
  - simpl. by rewrite (propagate_moves_made _ _ _ Hp).
  - simpl. apply Hs. rewrite Es. set_solver.
  - rewrite subset_elimination_unresolved. simpl.
    etrans; [exact (propagate_footprint _ _ _ Hp)|apply add_sentence_footprint].
Qed.

(** X6: [add_knowledge], when it returns: the board size is unchanged;
    [moves_made] gains the observed cell and nothing else; the observed
    cell is recorded as safe; and whatever is newly recorded as a mine or
    as safe, or mentioned by a stored sentence, is the observed cell, one
    of its neighbours, or a cell that a stored sentence mentioned
    before. *)
Theorem add_knowledge_frame
    (fuel : nat) (kb : KB) (cell : Cell) (count : Z) (kb' : KB) :
  add_knowledge fuel kb cell count = Some kb' →
  height kb' = height kb ∧ width kb' = width kb ∧
  moves_made kb' = {[cell]} ∪ moves_made kb ∧
  cell ∈ safes kb' ∧
  mines kb' ∪ safes kb' ∪ unresolved kb'
  ⊆ mines kb ∪ safes kb ∪ unresolved kb
    ∪ {[cell]} ∪ list_to_set (neighbor_cells kb cell).
Proof. apply add_knowledge_changes. Qed.

Lemma add_knowledge_frame_witness :
  ∃ kb' : KB,
    add_knowledge 3 (init 2 3) (0, 0) 1 = Some kb' ∧
    moves_made kb' = {[(0, 0)]} ∪ moves_made (init (Cell:=Cell) 2 3) ∧
    (0, 0) ∈ safes kb'.
Proof.
  exists (default (init 2 3) (add_knowledge 3 (init 2 3) (0, 0) 1)).
  run_first Hex.
  destruct (add_knowledge_frame 3 (init 2 3) (0, 0) 1 _ Hex) as (_&_&Hm&Hs&_).
  split; [exact Hm|exact Hs].
Defined.

(** ** Truth of the knowledge *)

Lemma exec_op_played_safe (fuel : nat) (o : op) (kb kb' : KB) :
  exec_op fuel o kb = Some kb' →
  moves_made kb ⊆ safes kb → moves_made kb' ⊆ safes kb'.
Proof.
  destruct o as [cell count|cell|cell|iter|r]; simpl.
  - intros Hadd Hsub.
    destruct (add_knowledge_changes _ _ _ _ _ Hadd) as (_&_&Hm&Hcell&_).
    pose proof (exec_op_grows fuel (Observe cell count) kb kb' Hadd)
      as (_&_&_&_&Hs).
    rewrite Hm. set_solver.
  - intros [= <-]. by rewrite mark_mine_moves_made, mark_mine_safes.
  - intros [= <-]. rewrite mark_safe_moves_made, mark_safe_safes. set_solver.
  - by intros [= <-].
  - by intros [= <-].
Qed.

Lemma exec_played_safe (fuel : nat) (ops : list op) (kb kb' : KB) :
  exec fuel ops kb = Some kb' →
  moves_made kb ⊆ safes kb → moves_made kb' ⊆ safes kb'.
Proof.
  revert kb. induction ops as [|o ops IH]; intros kb; simpl.
  - by intros [= <-].
  - destruct (exec_op fuel o kb) as [kb1|] eqn:E; simpl; [|done].
    intros Hex Hsub. apply (IH kb1); [done|]. by eapply exec_op_played_safe.
Qed.

(** X9: After a sequence of calls that tell the truth about a mine layout:
    every cell recorded as a mine is a mine; no cell recorded as safe or
    as played is one; every stored sentence has as its count the number of
    mines among its cells, a number between 0 and the number of cells; and
    the cell [make_safe_move] proposes is not a mine, in whatever order
    its loop goes over [safes]. *)
Theorem knowledge_true_when_truthful
    (M : gset Cell) (h w : Z) (fuel : nat) (ops : list op) (kb : KB) :
  Forall (truthful M h w) ops →
  exec fuel ops (init h w) = Some kb →
  mines kb ⊆ M ∧ safes kb ## M ∧ moves_made kb ## M ∧
  (∀ s, s ∈ knowledge kb →
     Z.of_nat (size (Sentence.cells s ∩ M)) = Sentence.count s ∧
     0 ≤ Sentence.count s ≤ Z.of_nat (size (Sentence.cells s))) ∧
  (∀ iter c, enumeration iter → make_safe_move iter kb = Some c → c ∉ M).
Proof.
  intros Hops Hex.
  assert (sound M kb) as (Hm&Hs&Hk).
  { eapply exec_sound; [exact Hops| |exact Hex].
    split_and!; simpl; [set_solver|set_solver|]. intros s Hs. inversion Hs. }
  assert (moves_made kb ⊆ safes kb) as Hmv.
  { eapply exec_played_safe; [exact Hex|]. simpl. set_solver. }
  split_and!; [done|done|set_solver| |].
  - intros s Hin. pose proof (Hk s Hin) as Hholds. unfold holds in Hholds.
    assert (size (Sentence.cells s ∩ M) ≤ size (Sentence.cells s))%nat
      by (apply subseteq_size; set_solver).
    split; [done|lia].
  - intros iter c Hiter (Hc&_&_)%make_safe_move_Some.
    apply (enumeration_elem_of iter) in Hc; [|done]. set_solver.
Qed.

Lemma knowledge_true_when_truthful_witness :
  ∃ kb : KB,
    exec 3 [Observe (0, 3) 1; Observe (0, 0) 0] (init 1 4) = Some kb ∧
    mines kb ⊆ {[(0, 2)]} ∧ safes kb ## {[(0, 2)]} ∧
    make_safe_move (λ s, reverse (elements s)) kb = Some (0, 1) ∧
    (0, 1) ∉ ({[(0, 2)]} : gset Cell).
Proof.
  exists (default (init 1 4)
            (exec 3 [Observe (0, 3) 1; Observe (0, 0) 0] (init 1 4))).
  run_first Hex.
  assert (Forall (truthful {[(0, 2)]} 1 4)
            [Observe (0, 3) 1; Observe (0, 0) 0]) as Hops
    by (repeat constructor; vm_compute; congruence).
  destruct (knowledge_true_when_truthful {[(0, 2)]} 1 4 3 _ _ Hops Hex)
    as (Hm&Hs&_&_&Hmove).
  split; [exact Hm|]. split; [exact Hs|].
  assert (make_safe_move (λ s, reverse (elements s))
            (default (init 1 4)
               (exec 3 [Observe (0, 3) 1; Observe (0, 0) 0] (init 1 4)))
          = Some (0, 1)) as Hsafe by (vm_compute; reflexivity).
  split; [exact Hsafe|].
  exact (Hmove _ _ enumeration_reverse Hsafe).
Defined.

(** X10: Subset elimination changes nothing but the list of sentences, and
    mentions no new cell; the sentences it derives are true of every mine
    layout of which the stored sentences are true. *)
Theorem subset_elimination_keeps_truth `{Countable C} (kb : MinesweeperAI.t C) :
  mines (subset_elimination kb) = mines kb ∧
  safes (subset_elimination kb) = safes kb ∧
  moves_made (subset_elimination kb) = moves_made kb ∧
  unresolved (subset_elimination kb) = unresolved kb ∧
  ∀ M : gset C,
    (∀ s, s ∈ knowledge kb → holds M s) →
    ∀ s, s ∈ knowledge (subset_elimination kb) → holds M s.
Proof.
  split_and!; [done|done|done|apply subset_elimination_unresolved|].
  intros M Hk d. simpl. intros [Hd|Hd]%elem_of_app; [auto|].
  apply elem_of_new_inferences in Hd as (i&j&sub&sup&_&Hi&Hj&Hsub&->&_).
  apply holds_difference; [done| |]; apply Hk; by eapply list_elem_of_lookup_2.
Qed.

(** ** The driver *)

Section runner_facts.
Implicit Types (st : Runner.state) (g : Minesweeper.t) (m c : Cell).

Lemma on_board_true g c :
  Runner.on_board g c = true ↔
  0 ≤ c.1 < Minesweeper.height g ∧ 0 ≤ c.2 < Minesweeper.width g.
Proof.
  unfold Runner.on_board.
  by rewrite andb_true_iff, !bool_decide_eq_true.
Qed.

(** The cells of the board as a set, with its size. *)
Lemma board_cells (h w : Z) :
  ∃ B : gset Cell,
    (∀ c, c ∈ B ↔ 0 ≤ c.1 < h ∧ 0 ≤ c.2 < w) ∧
    size B = (Z.to_nat h * Z.to_nat w)%nat.
Proof.
  destruct (grid_NoDup_length (range 0 h) (range 0 w))
    as [Hnd Hlen]; [apply NoDup_seqZ|apply NoDup_seqZ|].
  rewrite !length_range, !Z.sub_0_r in Hlen.
  eexists (list_to_set _). split; [|by rewrite size_list_to_set, Hlen].
  intros [i j]. rewrite elem_of_list_to_set, elem_of_flat_map. simpl. split.
  - intros (i'&Hi&(j'&[= -> ->]&Hj)%list_elem_of_fmap).
    by apply elem_of_range in Hi, Hj.
  - intros [Hi Hj]. exists i. split; [by apply elem_of_range|].
    apply list_elem_of_fmap. exists j. split; [done|by apply elem_of_range].
Qed.

Lemma start_inv g : Minesweeper.wf g → Runner.inv (Runner.start g).
Proof.
  intros Hg. unfold Runner.inv, Runner.start. simpl.
  split; [done|]. split; [done|]. split; [done|].
  split; [apply init_clean|]. split.
  { split_and!; simpl; [set_solver|set_solver|]. intros s Hs. inversion Hs. }
  split; [done|]. split; [done|].
  intros c Hc. exfalso. revert Hc. unfold unresolved. simpl. set_solver.
Qed.

(** Applying a move on the board. *)
Lemma apply_move_on_board (fuel : nat) m st :
  Runner.inv st → Runner.on_board (Runner.game st) m = true →
  (∀ e, Runner.apply_move fuel (Some m) st ≠ Some (Raises e)) ∧
  (m ∈ Minesweeper.mines (Runner.game st) →
     Runner.apply_move fuel (Some m) st
     = Some (Returns (Runner.Build (Runner.game st) (Runner.ai st)
                        (Runner.revealed st) (Runner.flags st) true))) ∧
  (m ∉ Minesweeper.mines (Runner.game st) →
     ∃ n, Minesweeper.nearby_mines (Runner.game st) m = Returns n ∧
          truthful (Minesweeper.mines (Runner.game st))
                   (height (Runner.ai st)) (width (Runner.ai st))
                   (Observe m n) ∧
          Runner.apply_move fuel (Some m) st
          = (kb' ← add_knowledge fuel (Runner.ai st) m n;
             Some (Returns (Runner.Build (Runner.game st) kb'
                              ({[m]} ∪ Runner.revealed st)
                              (Runner.flags st) (Runner.lost st))))).
Proof.
  intros (Hg&Hh&Hw&_) [Hi Hj]%on_board_true.
  pose proof (wf_read _ m Hg Hi Hj) as Hread.
  pose proof (game_nearby_mines_count _ m Hg) as Hnear.
  unfold Runner.apply_move, Minesweeper.is_mine. rewrite Hread, Hnear.
  split_and!.
  - intros e. case_bool_decide; [done|].
    by destruct (add_knowledge _ _ _ _).
  - intros Hm. by rewrite bool_decide_eq_true_2.
  - intros Hm. rewrite bool_decide_eq_false_2 by done.
    eexists. split; [done|]. split; [|done].
    split; [done|]. by rewrite Hh, Hw.
Qed.

Lemma observe_inv (fuel : nat) m (n : Z) st (kb' : KB) :
  Runner.inv st → Runner.on_board (Runner.game st) m = true →
  truthful (Minesweeper.mines (Runner.game st))
           (height (Runner.ai st)) (width (Runner.ai st)) (Observe m n) →
  add_knowledge fuel (Runner.ai st) m n = Some kb' →
  Runner.inv (Runner.Build (Runner.game st) kb' ({[m]} ∪ Runner.revealed st)
                (Runner.flags st) (Runner.lost st)).
Proof.
  intros (Hg&Hh&Hw&Hclean&Hsound&Hrev&Hmv&Hboard) Hm Htrue Hadd.
  destruct (add_knowledge_changes _ _ _ _ _ Hadd) as (Hh'&Hw'&Hmoves&_&Hfoot).
  unfold Runner.inv. simpl. split_and!.
  - done.
  - congruence.
  - congruence.
  - by apply (exec_op_clean fuel (Observe m n) (Runner.ai st)).
  - by apply (exec_op_sound _ fuel (Observe m n) (Runner.ai st)).
  - by rewrite Hmoves, Hrev.
  - by apply (exec_op_played_safe fuel (Observe m n) (Runner.ai st)).
  - intros c Hc%Hfoot.
    apply elem_of_union in Hc as [Hc|Hc%elem_of_list_to_set].
    + apply elem_of_union in Hc as [Hc|Hc%elem_of_singleton];
        [by apply Hboard|by subst c].
    + apply elem_of_neighbor_cells in Hc as (_&_&_&?&?).
      apply on_board_true. lia.
Qed.

Lemma apply_move_inv (fuel : nat) m st st' :
  Runner.inv st → Runner.on_board (Runner.game st) m = true →
  Runner.apply_move fuel (Some m) st = Some (Returns st') →
  Runner.inv st' ∧ Runner.game st' = Runner.game st ∧
  Runner.flags st' = Runner.flags st ∧
  (m ∈ Minesweeper.mines (Runner.game st) →
     Runner.lost st' = true ∧ Runner.ai st' = Runner.ai st ∧
     Runner.revealed st' = Runner.revealed st) ∧
  (m ∉ Minesweeper.mines (Runner.game st) →
     Runner.lost st' = Runner.lost st ∧
     Runner.revealed st' = {[m]} ∪ Runner.revealed st).
Proof.
  intros Hinv Hm.
  destruct (apply_move_on_board fuel m st Hinv Hm) as (_&Hmine&Hfree).
  destruct (decide (m ∈ Minesweeper.mines (Runner.game st))) as [Hin|Hin].
  - rewrite (Hmine Hin). intros [= <-]. simpl.
    split_and!; done.
  - destruct (Hfree Hin) as (n&_&Htrue&->).
    destruct (add_knowledge fuel (Runner.ai st) m n) as [kb'|] eqn:Hadd;
      simpl; [|done].
    intros [= <-]. simpl. split_and!; try done.
    by apply (observe_inv fuel m n).
Qed.

(** The move the player proposes is a cell of the board that is not
    revealed. *)
Lemma ai_move_spec (iter : gset Cell → list Cell) (r : nat) st :
  Runner.inv st → enumeration iter →
  ∃ move st',
    Runner.ai_move iter r st = Returns (move, st') ∧
    Runner.game st' = Runner.game st ∧ Runner.ai st' = Runner.ai st ∧
    Runner.revealed st' = Runner.revealed st ∧
    Runner.lost st' = Runner.lost st ∧
    match move with
    | Some m =>
        st' = st ∧ Runner.on_board (Runner.game st) m = true ∧
        (m ∉ Runner.revealed st) ∧
        (make_safe_move iter (Runner.ai st) = Some m ∨
         make_safe_move iter (Runner.ai st) = None)
    | None =>
        Runner.flags st' = mines (Runner.ai st) ∧
        make_safe_move iter (Runner.ai st) = None ∧
        make_random_move r (Runner.ai st) = Returns None
    end.
Proof.
  intros (Hg&Hh&Hw&Hclean&Hsound&Hrev&Hmv&Hboard) Hiter.
  unfold Runner.ai_move.
  destruct (make_safe_move iter (Runner.ai st)) as [m|] eqn:Hsafe.
  - exists (Some m), st.
    pose proof (make_safe_move_Some _ _ _ Hsafe) as (Hs&Hm&_).
    apply (enumeration_elem_of iter) in Hs; [|done].
    assert (Runner.on_board (Runner.game st) m = true)
      by (apply Hboard; set_solver).
    assert (m ∉ Runner.revealed st) by (by rewrite Hrev).
    split_and!; auto.
  - destruct (make_random_move r (Runner.ai st)) as [[m|]|e] eqn:Hrand.
    + exists (Some m), st.
      revert Hrand. unfold make_random_move. cbv zeta.
      case_bool_decide as Hfull; [done|].
      destruct (possible_moves (Runner.ai st)) as [|c l] eqn:Hposs; [done|].
      destruct (choice_elem_of r (c :: l)) as (m'&Hchoice&Hin); [done|].
      rewrite Hchoice. intros [= <-]. rewrite <-Hposs in Hin.
      apply elem_of_possible_moves in Hin as (Hi&Hj&Hnm&_).
      assert (Runner.on_board (Runner.game st) m' = true)
        by (apply on_board_true; by rewrite <-Hh, <-Hw).
      assert (m' ∉ Runner.revealed st) by (by rewrite Hrev).
      split_and!; auto.
    + eexists None, _. split_and!; done.
    + exfalso. revert Hrand. unfold make_random_move. cbv zeta.
      case_bool_decide as Hfull; [done|].
      destruct (possible_moves (Runner.ai st)) as [|c l] eqn:Hposs; [done|].
      destruct (choice_elem_of r (c :: l)) as (m'&Hchoice&Hin); [done|].
      by rewrite Hchoice.
Qed.

Lemma step_inv (fuel : nat) (a : Runner.action) st st' :
  Runner.inv st → Runner.ordered a →
  Runner.step fuel a st = Some (Returns st') →
  Runner.inv st' ∧ Runner.game st' = Runner.game st.
Proof.
  intros Hinv Ha. destruct a as [iter r|c|c]; simpl.
  - destruct (Runner.lost st); [by intros [= <-]|].
    destruct (ai_move_spec iter r st Hinv Ha)
      as (move&st1&->&Hg1&Hai1&Hrev1&Hlost1&Hmove).
    destruct move as [m|].
    + destruct Hmove as (->&Hm&_). intros Hap.
      destruct (apply_move_inv fuel m st st' Hinv Hm Hap) as (?&?&_). done.
    + simpl. intros [= <-]. split; [|done].
      destruct st1 as [g1 ai1 rev1 fl1 lost1]. simpl in *. subst.
      exact Hinv.
  - destruct (_ && _) eqn:E; [|by intros [= <-]].
    apply andb_true_iff in E as [E _]. apply andb_true_iff in E as [E _].
    apply andb_true_iff in E as [_ Hc]. intros Hap.
    destruct (apply_move_inv fuel c st st' Hinv Hc Hap) as (?&?&_). done.
  - intros [= <-]. destruct (_ && _); [|done].
    case_bool_decide; split; try done; exact Hinv.
Qed.

Lemma run_inv (fuel : nat) (acts : list Runner.action) st st' :
  Runner.inv st → Forall Runner.ordered acts →
  Runner.run fuel acts st = Some (Returns st') →
  Runner.inv st' ∧ Runner.game st' = Runner.game st.
Proof.
  intros Hinv Hacts. revert st Hinv.
  induction Hacts as [|a acts Ha Hacts IH]; intros st Hinv; simpl.
  - by intros [= <-].
  - destruct (Runner.step fuel a st) as [[st1|e]|] eqn:E; [|done|done].
    destruct (step_inv fuel a st st1 Hinv Ha E) as [Hinv1 Hg1].
    intros Hrun. destruct (IH st1 Hinv1 Hrun) as [? ?].
    split; [done|congruence].
Qed.
End runner_facts.

Section runner_runs.
Implicit Types (st : Runner.state) (g : Minesweeper.t) (m c : Cell).

Lemma apply_move_fuel_mono (fuel fuel' : nat) (move : option Cell) st r :
  Runner.apply_move fuel move st = Some r → (fuel ≤ fuel')%nat →
  Runner.apply_move fuel' move st = Some r.
Proof.
  intros Hap Hle. destruct move as [m|]; [|done].
  revert Hap. unfold Runner.apply_move.
  destruct (Minesweeper.is_mine _ m) as [[|]|e]; try done.
  destruct (Minesweeper.nearby_mines _ m) as [n|e]; try done.
  destruct (add_knowledge fuel (Runner.ai st) m n) as [kb'|] eqn:Hadd;
    simpl; [|done].
  pose proof (exec_op_fuel_mono fuel fuel' (Observe m n) _ _ Hadd Hle) as Hadd'.
  simpl in Hadd'. by rewrite Hadd'.
Qed.

Lemma step_fuel_mono (fuel fuel' : nat) (a : Runner.action) st r :
  Runner.step fuel a st = Some r → (fuel ≤ fuel')%nat →
  Runner.step fuel' a st = Some r.
Proof.
  intros Hstep Hle. destruct a as [iter k|c|c]; simpl in *.
  - destruct (Runner.lost st); [done|].
    destruct (Runner.ai_move iter k st) as [[move st1]|e]; [|done].
    by eapply apply_move_fuel_mono.
  - by eapply apply_move_fuel_mono.
  - done.
Qed.

Lemma run_fuel_mono (fuel fuel' : nat) (acts : list Runner.action) st r :
  Runner.run fuel acts st = Some r → (fuel ≤ fuel')%nat →
  Runner.run fuel' acts st = Some r.
Proof.
  revert st. induction acts as [|a acts IH]; intros st; simpl; [done|].
  destruct (Runner.step fuel a st) as [[st1|e]|] eqn:E; [| |done].
  - intros Hrun Hle. rewrite (step_fuel_mono _ _ _ _ _ E Hle). by apply IH.
  - intros [= <-] Hle. by rewrite (step_fuel_mono _ _ _ _ _ E Hle).
Qed.

Lemma apply_move_total m st :
  Runner.inv st → Runner.on_board (Runner.game st) m = true →
  ∃ fuel st', Runner.apply_move fuel (Some m) st = Some (Returns st').
Proof.
  intros Hinv Hm.
  destruct (decide (m ∈ Minesweeper.mines (Runner.game st))) as [Hin|Hin].
  - destruct (apply_move_on_board 0 m st Hinv Hm) as (_&Hmine&_).
    exists 0%nat. eexists. by apply Hmine.
  - destruct (apply_move_on_board 0 m st Hinv Hm) as (_&_&Hfree).
    destruct (Hfree Hin) as (n&Hn&_&_).
    pose proof Hinv as (_&_&_&Hclean&_).
    destruct (exec_op_total (Observe m n) (Runner.ai st) Hclean)
      as (fuel&kb'&Hadd).
    exists fuel. eexists.
    destruct (apply_move_on_board fuel m st Hinv Hm) as (_&_&Hfree').
    destruct (Hfree' Hin) as (n'&Hn'&_&->).
    assert (n' = n) as -> by congruence.
    simpl in Hadd. by rewrite Hadd.
Qed.

Lemma step_total (a : Runner.action) st :
  Runner.inv st → Runner.ordered a →
  ∃ fuel st', Runner.step fuel a st = Some (Returns st').
Proof.
  intros Hinv Ha. destruct a as [iter r|c|c]; simpl.
  - destruct (Runner.lost st); [by exists 0%nat; eexists|].
    destruct (ai_move_spec iter r st Hinv Ha) as (move&st1&->&_&_&_&_&Hmove).
    destruct move as [m|]; [|by exists 0%nat; eexists].
    destruct Hmove as (->&Hm&_). by apply apply_move_total.
  - destruct (_ && _) eqn:E; [|by exists 0%nat; eexists].
    apply andb_true_iff in E as [E _]. apply andb_true_iff in E as [E _].
    apply andb_true_iff in E as [_ Hc]. by apply apply_move_total.
  - by exists 0%nat; eexists.
Qed.

Lemma step_no_raise (fuel : nat) (a : Runner.action) st e :
  Runner.inv st → Runner.ordered a →
  Runner.step fuel a st ≠ Some (Raises e).
Proof.
  intros Hinv Ha. destruct a as [iter r|c|c]; simpl.
  - destruct (Runner.lost st); [done|].
    destruct (ai_move_spec iter r st Hinv Ha) as (move&st1&->&_&_&_&_&Hmove).
    destruct move as [m|]; [|done].
    destruct Hmove as (->&Hm&_).
    by apply (apply_move_on_board fuel m st Hinv Hm).
  - destruct (_ && _) eqn:E; [|done].
    apply andb_true_iff in E as [E _]. apply andb_true_iff in E as [E _].
    apply andb_true_iff in E as [_ Hc].
    by apply (apply_move_on_board fuel c st Hinv Hc).
  - done.
Qed.

Lemma run_total (acts : list Runner.action) st :
  Runner.inv st → Forall Runner.ordered acts →
  ∃ fuel st', Runner.run fuel acts st = Some (Returns st').
Proof.
  intros Hinv Hacts. revert st Hinv.
  induction Hacts as [|a acts Ha Hacts IH]; intros st Hinv; simpl.
  - by exists 0%nat, st.
  - destruct (step_total a st Hinv Ha) as (fuel1&st1&E1).
    destruct (step_inv fuel1 a st st1 Hinv Ha E1) as [Hinv1 _].
    destruct (IH st1 Hinv1) as (fuel2&st2&E2).
    exists (fuel1 `max` fuel2)%nat, st2.
    rewrite (step_fuel_mono fuel1 _ _ _ _ E1) by lia.
    apply (run_fuel_mono fuel2); [done|lia].
Qed.

Lemma run_no_raise (fuel : nat) (acts : list Runner.action) st e :
  Runner.inv st → Forall Runner.ordered acts →
  Runner.run fuel acts st ≠ Some (Raises e).
Proof.
  intros Hinv Hacts. revert st Hinv.
  induction Hacts as [|a acts Ha Hacts IH]; intros st Hinv; simpl; [done|].
  destruct (Runner.step fuel a st) as [[st1|e1]|] eqn:E; [| |done].
  - apply IH. by destruct (step_inv fuel a st st1 Hinv Ha E).
  - by destruct (step_no_raise fuel a st e1 Hinv Ha).
Qed.
End runner_runs.

(** When [make_random_move] has nothing to propose, and what the
    knowledge base records is true of a mine layout on the board, every
    cell of the board is played or a recorded mine, and the recorded mines
    are all the mines. *)
Lemma no_random_move_all_known (r : nat) (kb : KB) (M : gset Cell) :
  sound M kb → moves_made kb ⊆ safes kb →
  (∀ c, c ∈ moves_made kb ∪ M → 0 ≤ c.1 < height kb ∧ 0 ≤ c.2 < width kb) →
  make_random_move r kb = Returns None →
  mines kb = M ∧
  ∀ c, 0 ≤ c.1 < height kb → 0 ≤ c.2 < width kb →
       c ∈ moves_made kb ∨ c ∈ M.
Proof.
  intros (Hm&Hs&_) Hmv Hboard Hnone.
  destruct (board_cells (height kb) (width kb)) as (B&HB&HsizeB).
  assert (∀ c, c ∈ B → c ∈ moves_made kb ∨ c ∈ mines kb) as Hall.
  { revert Hnone. unfold make_random_move. cbv zeta.
    case_bool_decide as Hfull.
    - intros _.
      assert (moves_made kb ∪ mines kb = B) as <-; [|set_solver].
      apply set_subseteq_size_eq.
      + intros c Hc. apply HB, Hboard. set_solver.
      + rewrite size_union by set_solver. rewrite HsizeB. nia.
    - destruct (possible_moves kb) as [|c0 l] eqn:Hposs.
      + intros _ c Hc%HB.
        destruct (decide (c ∈ moves_made kb)); [by left|].
        destruct (decide (c ∈ mines kb)); [by right|].
        assert (c ∈ possible_moves kb) as Hin
          by (apply elem_of_possible_moves; tauto).
        rewrite Hposs in Hin. by apply elem_of_nil in Hin.
      + destruct (choice_elem_of r (c0 :: l)) as (x&Hx&_); [done|].
        by rewrite Hx. }
  split.
  - apply set_eq. intros c. split; [apply Hm|].
    intros Hc. destruct (Hall c) as [Hmoved|]; [|set_solver|done].
    apply HB, Hboard. set_solver.
  - intros c Hi Hj. destruct (Hall c) as [|Hmine]; [by apply HB|by left|].
    right. by apply Hm.
Qed.

(** X17: The driver keeps the player's knowledge true of the game: after any
    sequence of passes from a fresh game and player, in whatever order the
    safe cells are gone over in each "AI Move" pass, the revealed cells
    are the player's played cells and none of them is a mine; every cell
    the player records as a mine is one and no cell it records as safe is;
    every stored sentence counts the mines among its cells. *)
Theorem driver_keeps_knowledge_true
    (g : Minesweeper.t) (fuel : nat) (acts : list Runner.action)
    (st : Runner.state) :
  Minesweeper.wf g →
  Forall Runner.ordered acts →
  Runner.run fuel acts (Runner.start g) = Some (Returns st) →
  Runner.game st = g ∧
  Runner.revealed st = moves_made (Runner.ai st) ∧
  Runner.revealed st ## Minesweeper.mines g ∧
  mines (Runner.ai st) ⊆ Minesweeper.mines g ∧
  safes (Runner.ai st) ## Minesweeper.mines g ∧
  (∀ s, s ∈ knowledge (Runner.ai st) →
     Z.of_nat (size (Sentence.cells s ∩ Minesweeper.mines g))
     = Sentence.count s) ∧
  (∀ c, c ∈ Runner.revealed st → Runner.on_board g c = true).
Proof.
  intros Hg Hacts Hrun.
  destruct (run_inv fuel acts _ st (start_inv g Hg) Hacts Hrun) as [Hinv Hgame].
  simpl in Hgame. destruct Hinv as (_&_&_&_&(Hm&Hs&Hk)&Hrev&Hmv&Hboard).
  rewrite Hgame in *. split_and!; try done.
  - rewrite Hrev. set_solver.
  - intros c Hc. apply Hboard. rewrite Hrev in Hc. set_solver.
Qed.

(** X18: The driver never stops on an exception: whatever the passes and the
    orders of iteration, no [IndexError] is raised, every propagation loop
    ends, and the run reaches a state. *)
Theorem driver_never_raises (g : Minesweeper.t) (acts : list Runner.action) :
  Minesweeper.wf g →
  Forall Runner.ordered acts →
  (∀ fuel e, Runner.run fuel acts (Runner.start g) ≠ Some (Raises e)) ∧
  ∃ fuel st, ∀ fuel', (fuel ≤ fuel')%nat →
    Runner.run fuel' acts (Runner.start g) = Some (Returns st).
Proof.
  intros Hg Hacts. pose proof (start_inv g Hg) as Hinv. split.
  - intros fuel e. by apply run_no_raise.
  - destruct (run_total acts _ Hinv Hacts) as (fuel&st&Hrun).
    exists fuel, st. intros fuel' Hle. by apply (run_fuel_mono fuel).
Qed.

(** X19: A safe move never loses: when the game is not lost and
    [make_safe_move] proposes a cell, whichever it is under the order
    [iter] of this pass, the "AI Move" pass reveals that cell, which is no
    mine, and the game is still not lost. *)
Theorem safe_move_never_loses
    (g : Minesweeper.t) (fuel : nat) (acts : list Runner.action)
    (st : Runner.state) (iter : gset Cell → list Cell) (m : Cell)
    (r fuel' : nat) (st' : Runner.state) :
  Minesweeper.wf g →
  Forall Runner.ordered acts →
  Runner.run fuel acts (Runner.start g) = Some (Returns st) →
  Runner.lost st = false →
  enumeration iter →
  make_safe_move iter (Runner.ai st) = Some m →
  Runner.step fuel' (Runner.AIMove iter r) st = Some (Returns st') →
  Minesweeper.is_mine g m = Returns false ∧
  Runner.lost st' = false ∧
  Runner.revealed st' = {[m]} ∪ Runner.revealed st.
Proof.
  intros Hg Hacts Hrun Hlost Hiter Hsafe.
  destruct (run_inv fuel acts _ st (start_inv g Hg) Hacts Hrun) as [Hinv Hgame].
  simpl in Hgame. simpl. rewrite Hlost.
  unfold Runner.ai_move. rewrite Hsafe.
  pose proof Hinv as (_&_&_&_&(_&Hs&_)&_&_&Hboard).
  pose proof (make_safe_move_Some _ _ _ Hsafe) as (Hm&_&_).
  apply (enumeration_elem_of iter) in Hm; [|done].
  assert (Runner.on_board (Runner.game st) m = true) as Hon
    by (apply Hboard; set_solver).
  assert (m ∉ Minesweeper.mines (Runner.game st)) as Hfree by set_solver.
  intros Hap.
  destruct (apply_move_inv fuel' m st st' Hinv Hon Hap) as (_&_&_&_&Hres).
  destruct (Hres Hfree) as [Hl Hr]. rewrite Hgame in *.
  split_and!; [|congruence|done].
  apply on_board_true in Hon as [Hi Hj]. unfold Minesweeper.is_mine.
  rewrite (wf_read g m Hg Hi Hj). by rewrite bool_decide_eq_false_2.
Qed.

(** X20: "No moves left": when the player has neither a safe nor a random move
    to propose, the flags it sets are exactly the mines of the game, so
    that the driver's test [game.mines == flags] shows "Won"; and every
    cell of the board is then revealed or a mine.  This holds in whatever
    order the safe cells were gone over, in the passes before and in this
    one. *)
Theorem no_moves_left_means_won
    (g : Minesweeper.t) (fuel : nat) (acts : list Runner.action)
    (st : Runner.state) (iter : gset Cell → list Cell) (r : nat)
    (st' : Runner.state) :
  Minesweeper.wf g →
  Forall Runner.ordered acts →
  Runner.run fuel acts (Runner.start g) = Some (Returns st) →
  Runner.ai_move iter r st = Returns (None, st') →
  Runner.flags st' = Minesweeper.mines g ∧
  Minesweeper.mines (Runner.game st') = Runner.flags st' ∧
  ∀ c, Runner.on_board g c = true →
       c ∈ Runner.revealed st ∨ c ∈ Minesweeper.mines g.
Proof.
  intros Hg Hacts Hrun Hai.
  destruct (run_inv fuel acts _ st (start_inv g Hg) Hacts Hrun) as [Hinv Hgame].
  simpl in Hgame.
  assert (make_random_move r (Runner.ai st) = Returns None ∧
          Runner.game st' = Runner.game st ∧
          Runner.flags st' = mines (Runner.ai st)) as (Hnone&Hg1&Hflags).
  { revert Hai. unfold Runner.ai_move.
    destruct (make_safe_move iter (Runner.ai st)); [done|].
    destruct (make_random_move r (Runner.ai st)) as [[m|]|e]; [done| |done].
    by intros [= <-]. }
  destruct Hinv as (Hwf&Hh&Hw&_&Hsound&Hrev&Hmv&Hboard).
  destruct (no_random_move_all_known r (Runner.ai st)
              (Minesweeper.mines (Runner.game st)) Hsound Hmv)
    as [Hmines Hall]; [|done|].
  { rewrite Hh, Hw. intros c [Hc|Hc]%elem_of_union.
    - apply on_board_true, Hboard. set_solver.
    - destruct Hwf as (_&_&_&Hon). by apply Hon. }
  rewrite Hgame in *. split_and!.
  - rewrite Hflags. exact Hmines.
  - rewrite Hg1, Hflags. by symmetry.
  - intros c [Hi Hj]%on_board_true. rewrite Hrev.
    apply Hall; by rewrite ?Hh, ?Hw.
Qed.

(** A 1x4 game with its mine at the right end, as [__init__] builds it
    from the draws [(0, 3)].  After a click on [(0,1)] the player knows
    [(0,0)] and [(0,2)] to be safe, and which of them [make_safe_move]
    proposes is up to the order of iteration. *)
Lemma game_1x4_wf :
  Minesweeper.wf
    (Minesweeper.Build 1 4 {[(0, 3)]} [[false; false; false; true]] ∅).
Proof.
  apply (game_init_wf 1 4 1 [(0, 3)]%nat). vm_compute. reflexivity.
Qed.

Ltac solve_ordered :=
  repeat first [apply Forall_nil_2 | apply Forall_cons_2];
  first [exact I | apply enumeration_elements | apply enumeration_reverse].

Lemma driver_keeps_knowledge_true_witness :
  ∃ st : Runner.state,
    Runner.run 3 [Runner.Reveal (0, 1);
                  Runner.AIMove (λ s, reverse (elements s)) 0;
                  Runner.AIMove elements 0; Runner.AIMove elements 0]
      (Runner.start
         (Minesweeper.Build 1 4 {[(0, 3)]} [[false; false; false; true]] ∅))
    = Some (Returns st) ∧
    Runner.revealed st ## {[(0, 3)]} ∧ mines (Runner.ai st) ⊆ {[(0, 3)]}.
Proof.
  pose (g := Minesweeper.Build 1 4 {[(0, 3)]} [[false; false; false; true]] ∅).
  exists (Runner.final (Runner.start g)
            (Runner.run 3 [Runner.Reveal (0, 1);
                           Runner.AIMove (λ s, reverse (elements s)) 0;
                           Runner.AIMove elements 0; Runner.AIMove elements 0]
               (Runner.start g))).
  subst g.
  match goal with
  | |- ?A ∧ _ => assert A as Hrun by (vm_compute; reflexivity)
  end.
  split; [exact Hrun|].
  assert (Forall Runner.ordered
            [Runner.Reveal (0, 1);
             Runner.AIMove (λ s, reverse (elements s)) 0;
             Runner.AIMove elements 0; Runner.AIMove elements 0]) as Hacts
    by solve_ordered.
  destruct (driver_keeps_knowledge_true _ _ _ _ game_1x4_wf Hacts Hrun)
    as (_&_&Hrev&Hm&_).
  split; [exact Hrev|exact Hm].
Defined.

Lemma driver_never_raises_witness :
  Runner.run 3 [Runner.Reveal (0, 1);
                Runner.AIMove (λ s, reverse (elements s)) 0;
                Runner.AIMove elements 0]
    (Runner.start
       (Minesweeper.Build 1 4 {[(0, 3)]} [[false; false; false; true]] ∅))
  ≠ Some (Raises IndexError).
Proof.
  apply (driver_never_raises _
           [Runner.Reveal (0, 1);
            Runner.AIMove (λ s, reverse (elements s)) 0;
            Runner.AIMove elements 0]
           game_1x4_wf).
  solve_ordered.
Defined.

(** The same state under two orders of iteration: one pass reveals
    [(0,0)], the other [(0,2)], and neither loses. *)
Lemma safe_move_never_loses_witness :
  ∃ st st1 st2 : Runner.state,
    Runner.run 3 [Runner.Reveal (0, 1)]
      (Runner.start
         (Minesweeper.Build 1 4 {[(0, 3)]} [[false; false; false; true]] ∅))
    = Some (Returns st) ∧
    make_safe_move (λ s, reverse (elements s)) (Runner.ai st) = Some (0, 0) ∧
    Runner.step 3 (Runner.AIMove (λ s, reverse (elements s)) 0) st
    = Some (Returns st1) ∧
    make_safe_move elements (Runner.ai st) = Some (0, 2) ∧
    Runner.step 3 (Runner.AIMove elements 0) st = Some (Returns st2) ∧
    Runner.lost st1 = false ∧
    Runner.revealed st1 = {[(0, 0)]} ∪ Runner.revealed st ∧
    Runner.lost st2 = false ∧
    Runner.revealed st2 = {[(0, 2)]} ∪ Runner.revealed st.
Proof.
  pose (g := Minesweeper.Build 1 4 {[(0, 3)]} [[false; false; false; true]] ∅).
  pose (st := Runner.final (Runner.start g)
                (Runner.run 3 [Runner.Reveal (0, 1)] (Runner.start g))).
  exists st,
    (Runner.final st
       (Runner.step 3 (Runner.AIMove (λ s, reverse (elements s)) 0) st)),
    (Runner.final st (Runner.step 3 (Runner.AIMove elements 0) st)).
  subst st g.
  match goal with
  | |- ?A ∧ ?B ∧ ?C ∧ ?D ∧ ?E ∧ _ =>
      assert A as Hrun by (vm_compute; reflexivity);
      assert B as Hsafe1 by (vm_compute; reflexivity);
      assert C as Hstep1 by (vm_compute; reflexivity);
      assert D as Hsafe2 by (vm_compute; reflexivity);
      assert E as Hstep2 by (vm_compute; reflexivity)
  end.
  split; [exact Hrun|]. split; [exact Hsafe1|]. split; [exact Hstep1|].
  split; [exact Hsafe2|]. split; [exact Hstep2|].
  match type of Hsafe2 with
  | make_safe_move _ (Runner.ai ?s) = _ =>
      assert (Runner.lost s = false) as Hlost by (vm_compute; reflexivity)
  end.
  assert (Forall Runner.ordered [Runner.Reveal (0, 1)]) as Hacts
    by solve_ordered.
  destruct (safe_move_never_loses _ _ _ _ _ _ _ _ _
              game_1x4_wf Hacts Hrun Hlost enumeration_reverse Hsafe1 Hstep1)
    as (_&Hl1&Hr1).
  destruct (safe_move_never_loses _ _ _ _ _ _ _ _ _
              game_1x4_wf Hacts Hrun Hlost enumeration_elements Hsafe2 Hstep2)
    as (_&Hl2&Hr2).
  split; [exact Hl1|]. split; [exact Hr1|]. split; [exact Hl2|exact Hr2].
Defined.

Lemma no_moves_left_means_won_witness :
  ∃ st st' : Runner.state,
    Runner.run 3 [Runner.Reveal (0, 1);
                  Runner.AIMove (λ s, reverse (elements s)) 0;
                  Runner.AIMove elements 0]
      (Runner.start
         (Minesweeper.Build 1 4 {[(0, 3)]} [[false; false; false; true]] ∅))
    = Some (Returns st) ∧
    Runner.ai_move elements 0 st = Returns (None, st') ∧
    Runner.flags st' = {[(0, 3)]}.
Proof.
  pose (g := Minesweeper.Build 1 4 {[(0, 3)]} [[false; false; false; true]] ∅).
  pose (st := Runner.final (Runner.start g)
                (Runner.run 3 [Runner.Reveal (0, 1);
                               Runner.AIMove (λ s, reverse (elements s)) 0;
                               Runner.AIMove elements 0]
                   (Runner.start g))).
  exists st, (Runner.Build (Runner.game st) (Runner.ai st) (Runner.revealed st)
                (mines (Runner.ai st)) (Runner.lost st)).
  subst st g.
  match goal with
  | |- ?A ∧ ?B ∧ _ =>
      assert A as Hrun by (vm_compute; reflexivity);
      assert B as Hai by (vm_compute; reflexivity)
  end.
  split; [exact Hrun|]. split; [exact Hai|].
  assert (Forall Runner.ordered
            [Runner.Reveal (0, 1);
             Runner.AIMove (λ s, reverse (elements s)) 0;
             Runner.AIMove elements 0]) as Hacts
    by solve_ordered.
  by destruct (no_moves_left_means_won _ _ _ _ _ _ _
                 game_1x4_wf Hacts Hrun Hai) as (Hflags&_).
Defined.

(** ** One scan of the propagation loop *)

Section scan_facts.
Context `{Countable C}.
Implicit Types (kb : MinesweeperAI.t C) (s : Sentence.t C).
Implicit Types (st : MinesweeperAI.t C * bool).

Lemma for_each_mark_mine_known xs kb :
  (∀ x, x ∈ xs → x ∈ mines kb) → for_each mark_mine xs kb = kb.
Proof.
  unfold for_each. induction xs as [|x xs IH]; intros Hxs; simpl; [done|].
  unfold mark_mine at 2.
  rewrite bool_decide_eq_true_2 by (apply Hxs; by left).
  apply IH. intros y Hy. apply Hxs. by right.
Qed.

Lemma for_each_mark_safe_known xs kb :
  (∀ x, x ∈ xs → x ∈ safes kb) → for_each mark_safe xs kb = kb.
Proof.
  unfold for_each. induction xs as [|x xs IH]; intros Hxs; simpl; [done|].
  unfold mark_safe at 2.
  rewrite bool_decide_eq_true_2 by (apply Hxs; by left).
  apply IH. intros y Hy. apply Hxs. by right.
Qed.

Lemma scan_step_records st s :
  Sentence.known_mines s ⊆ mines (scan_step st s).1 ∧
  Sentence.known_safes s ⊆ safes (scan_step st s).1.
Proof.
  unfold scan_step. cbv zeta.
  destruct (bool_decide (Sentence.known_mines s ≠ ∅)) eqn:Em;
    destruct (bool_decide (Sentence.known_safes s ≠ ∅)) eqn:Es; simpl.
  - rewrite for_each_mark_safe_safes. split; [|set_solver].
    etrans; [|apply (for_each_ind (λ kb', mines (for_each mark_mine
                 (elements (Sentence.known_mines s)) st.1) ⊆ mines kb'));
              [|done]].
    + rewrite for_each_mark_mine_mines. set_solver.
    + intros x kb' _ Hkb'. rewrite mark_safe_mines. done.
  - apply bool_decide_eq_false, dec_stable in Es. rewrite Es.
    rewrite for_each_mark_mine_mines. set_solver.
  - apply bool_decide_eq_false, dec_stable in Em. rewrite Em.
    rewrite for_each_mark_safe_safes. set_solver.
  - apply bool_decide_eq_false, dec_stable in Em, Es. rewrite Em, Es.
    set_solver.
Qed.

Lemma foldl_scan_step_records l st s :
  s ∈ l →
  Sentence.known_mines s ⊆ mines (foldl scan_step st l).1 ∧
  Sentence.known_safes s ⊆ safes (foldl scan_step st l).1.
Proof.
  revert st. induction l as [|a l IH]; intros st Hs; simpl.
  - inversion Hs.
  - apply elem_of_cons in Hs as [->|Hs]; [|by apply IH].
    destruct (scan_step_records st a) as [Hm Hsf].
    destruct (foldl_scan_step_grows l (scan_step st a)) as (_&_&_&Hgm&Hgs).
    split; set_solver.
Qed.

Lemma foldl_scan_step_nothing_known l st :
  (∀ s, s ∈ l → Sentence.known_mines s = ∅ ∧ Sentence.known_safes s = ∅) →
  foldl scan_step st l = st.
Proof.
  revert st. induction l as [|a l IH]; intros st Hl; simpl; [done|].
  destruct (Hl a) as [Em Es]; [by left|].
  assert (scan_step st a = st) as ->.
  { unfold scan_step. cbv zeta. rewrite Em, Es.
    by rewrite !bool_decide_eq_false_2 by (intros Hne; by apply Hne). }
  apply IH. intros s Hs. apply Hl. by right.
Qed.

(** When the cells a sentence yields are already recorded, its marks
    change nothing, but the flag is raised all the same. *)
Lemma scan_step_stale st s :
  Sentence.known_mines s ⊆ mines st.1 →
  Sentence.known_safes s ⊆ safes st.1 →
  (scan_step st s).1 = st.1 ∧
  (scan_step st s).2
  = st.2 || bool_decide (Sentence.known_mines s ≠ ∅)
         || bool_decide (Sentence.known_safes s ≠ ∅).
Proof.
  intros Hm Hs. unfold scan_step. cbv zeta.
  destruct (bool_decide (Sentence.known_mines s ≠ ∅)) eqn:Em;
    destruct (bool_decide (Sentence.known_safes s ≠ ∅)) eqn:Es; simpl.
  - rewrite for_each_mark_mine_known by set_solver.
    rewrite for_each_mark_safe_known by set_solver.
    by rewrite orb_true_r.
  - rewrite for_each_mark_mine_known by set_solver.
    by rewrite orb_false_r, orb_true_r.
  - rewrite for_each_mark_safe_known by set_solver.
    by rewrite orb_true_r.
  - by rewrite !orb_false_r.
Qed.

Lemma foldl_scan_step_stale l kb (b : bool) :
  (∀ s, s ∈ l → Sentence.known_mines s ⊆ mines kb ∧
                Sentence.known_safes s ⊆ safes kb) →
  (foldl scan_step (kb, b) l).1 = kb ∧
  ((∃ s, s ∈ l ∧ (Sentence.known_mines s ≠ ∅ ∨ Sentence.known_safes s ≠ ∅)) →
   (foldl scan_step (kb, b) l).2 = true).
Proof.
  revert b. induction l as [|a l IH]; intros b Hl; simpl.
  - split; [done|]. intros (s&Hs&_). inversion Hs.
  - destruct (Hl a) as [Hm Hs]; [by left|].
    destruct (scan_step_stale (kb, b) a Hm Hs) as [E1 E2]. simpl in *.
    destruct (scan_step (kb, b) a) as [kb1 b1]. simpl in *. subst kb1.
    destruct (IH b1) as [IH1 IH2]; [intros s Hin; apply Hl; by right|].
    split; [done|].
    intros (s&[->|Hin]%elem_of_cons&Hne); [|apply IH2; eauto].
    assert (b1 = true) as ->.
    { rewrite E2. destruct Hne as [Hne|Hne].
      - by rewrite (bool_decide_eq_true_2 _ Hne), orb_true_r.
      - by rewrite (bool_decide_eq_true_2 _ Hne), orb_true_r. }
    clear. revert kb. induction l as [|a' l IHl]; intros kb; simpl; [done|].
    destruct (scan_step (kb, true) a') as [kb2 b2] eqn:E.
    assert (b2 = true) as ->; [|apply IHl].
    revert E. unfold scan_step. cbv zeta. simpl.
    destruct (bool_decide (Sentence.known_mines a' ≠ ∅));
      destruct (bool_decide (Sentence.known_safes a' ≠ ∅)); simpl;
      by intros [= _ <-].
Qed.
End scan_facts.

(** X7: One scan of the propagation loop records every known mine and every
    known safe cell of every stored sentence, as the sentences stood when
    the scan began; it reports no change exactly when no stored sentence
    yields any, and then it changed nothing. *)
Theorem scan_records_known `{Countable C} (kb : MinesweeperAI.t C) :
  (∀ s, s ∈ knowledge kb →
     Sentence.known_mines s ⊆ mines (scan kb).1 ∧
     Sentence.known_safes s ⊆ safes (scan kb).1) ∧
  ((scan kb).2 = false ↔
   ∀ s, s ∈ knowledge kb →
     Sentence.known_mines s = ∅ ∧ Sentence.known_safes s = ∅) ∧
  ((scan kb).2 = false → (scan kb).1 = kb).
Proof.
  split_and!.
  - intros s Hs. by apply foldl_scan_step_records.
  - split; [by intros Hf; apply scan_false|].
    intros Hk. unfold scan. by rewrite foldl_scan_step_nothing_known.
  - by intros Hf; apply scan_false.
Qed.

(** X8: The loop raises [changes_made] for every sentence that yields known
    cells, also when all of them are recorded already.  So on a knowledge
    base in which every cell that a stored sentence yields is already
    recorded, and some sentence yields one, the loop never ends.  (No
    sequence of calls builds such a knowledge base; assigning to the
    fields does.) *)
Theorem propagation_hangs_on_stale_knowledge `{Countable C}
    (kb : MinesweeperAI.t C) (fuel : nat) :
  (∀ s, s ∈ knowledge kb →
     Sentence.known_mines s ⊆ mines kb ∧ Sentence.known_safes s ⊆ safes kb) →
  (∃ s, s ∈ knowledge kb ∧
        (Sentence.known_mines s ≠ ∅ ∨ Sentence.known_safes s ≠ ∅)) →
  scan kb = (kb, true) ∧ propagate fuel kb = None.
Proof.
  intros Hstale Hsome.
  assert (scan kb = (kb, true)) as Hscan.
  { unfold scan. destruct (foldl_scan_step_stale (knowledge kb) kb false Hstale)
      as [E1 E2].
    specialize (E2 Hsome).
    destruct (foldl scan_step (kb, false) (knowledge kb)). simpl in *.
    by subst. }
  split; [done|]. induction fuel as [|fuel IH]; simpl; [done|].
  by rewrite Hscan.
Qed.

Lemma propagation_hangs_on_stale_knowledge_witness :
  propagate 100 (Build 1 1 ∅ ({[0]} : gset Z) ∅ [Sentence.init {[0]} 1]) = None.
Proof.
  apply (propagation_hangs_on_stale_knowledge
           (Build 1 1 ∅ ({[0]} : gset Z) ∅ [Sentence.init {[0]} 1]) 100).
  - intros s Hs%list_elem_of_singleton. subst s. vm_compute. split; [|done].
    intros x. done.
  - exists (Sentence.init {[0]} 1). split; [by left|]. left. vm_compute. done.
Defined.
